(** * OpenAPI parser of ocp-javascript: a shallow embedding

    This development embeds [src/parsers/openapi_parser.ts] (class
    [OpenAPIParser]) and the registry that dispatches documents to parsers,
    [src/parsers/registry.ts] (class [ParserRegistry]), and states their
    properties as theorems.

    Modelling conventions.
    - A decoded document is a [json] tree.  An object is the list of its own
      properties in the order [Object.entries] enumerates them; numbers are
      integers, printed in decimal (as JavaScript prints them below 1e21).
    - JavaScript strings are modelled by [string], for ASCII text: case
      conversion acts on ASCII letters and leaves every other character
      alone, so a theorem that speaks of letter case is stated for ASCII
      strings.
    - Property lookup sees own properties only: members inherited from
      [Object.prototype] and friends are not part of a decoded document,
      and a pointer segment that names one ([constructor], [toString],
      ...) finds nothing.
    - An assignment [o[k] = v] adds or replaces the own property [k].  For
      the key [__proto__] JavaScript changes the prototype of [o] instead;
      theorems about the members of an object built by assignment are
      stated for keys other than [__proto__], or for documents without
      such a member ([proto_free]).
    - A value is converted to a string by [JSOps.ToString], which throws
      for an object that has a member named [toString]: that member is
      data and cannot be called.
    - A function that may throw returns an [outcome]; the memoisation cache
      of [resolveRefs] is threaded explicitly and survives a throw, as the
      shared JavaScript object does.
    - The call stack is unbounded: general recursion is given by a fuel
      parameter, and [resolveRefs] is the fuelled function run on a bound
      that is proved sufficient. *)

From Stdlib Require Import String Ascii List ZArith NArith Lia Bool Arith.
From Stdlib Require Import Permutation DecimalString.
Import ListNotations.

Local Open Scope string_scope.
Local Open Scope nat_scope.
Local Open Scope list_scope.

(* ================================================================== *)
(** * JavaScript strings *)

Module Str.

Definition code (c : ascii) : nat := nat_of_ascii c.

Definition is_lower (c : ascii) : bool := (97 <=? code c) && (code c <=? 122).
Definition is_upper (c : ascii) : bool := (65 <=? code c) && (code c <=? 90).
Definition is_digit (c : ascii) : bool := (48 <=? code c) && (code c <=? 57).
Definition is_letter (c : ascii) : bool := is_lower c || is_upper c.
Definition is_alnum (c : ascii) : bool := is_letter c || is_digit c.

Definition lower_char (c : ascii) : ascii :=
  if is_upper c then ascii_of_nat (code c + 32) else c.
Definition upper_char (c : ascii) : ascii :=
  if is_lower c then ascii_of_nat (code c - 32) else c.

Fixpoint map (f : ascii -> ascii) (s : string) : string :=
  match s with
  | EmptyString => EmptyString
  | String c s' => String (f c) (map f s')
  end.

Fixpoint filter (f : ascii -> bool) (s : string) : string :=
  match s with
  | EmptyString => EmptyString
  | String c s' => if f c then String c (filter f s') else filter f s'
  end.

Fixpoint existsb (f : ascii -> bool) (s : string) : bool :=
  match s with
  | EmptyString => false
  | String c s' => f c || existsb f s'
  end.

(** [s.toLowerCase()], [s.toUpperCase()] *)
Definition toLowerCase : string -> string := map lower_char.
Definition toUpperCase : string -> string := map upper_char.

(** [s.startsWith(p)] *)
Definition startsWith (s p : string) : bool := String.prefix p s.

(** [s.substring(n)] *)
Fixpoint substring_from (n : nat) (s : string) : string :=
  match n, s with
  | O, _ => s
  | S _, EmptyString => EmptyString
  | S n', String _ s' => substring_from n' s'
  end.

(** [s.split(c)] for a one-character separator [c] *)
Fixpoint split (c : ascii) (s : string) : list string :=
  match s with
  | EmptyString => [EmptyString]
  | String a s' =>
      if Ascii.eqb a c then EmptyString :: split c s'
      else match split c s' with
           | w :: ws => String a w :: ws
           | [] => [String a EmptyString]
           end
  end.

(** [s.includes(t)] *)
Fixpoint includes (s t : string) : bool :=
  String.prefix t s ||
  match s with
  | EmptyString => false
  | String _ s' => includes s' t
  end.

Definition nonempty (s : string) : bool :=
  match s with EmptyString => false | _ => true end.

(** [s.replace(/c/g, d)] for single characters [c], [d] *)
Definition replace_char (c d : ascii) : string -> string :=
  map (fun a => if Ascii.eqb a c then d else a).

(** Decimal rendering of a number, as [String(n)] prints an integer. *)
Definition of_N (n : N) : string := NilZero.string_of_uint (N.to_uint n).
Definition of_Z (z : Z) : string := NilZero.string_of_int (Z.to_int z).

(** [array_index k] is [Some i] when the property key [k] is an array
    index: the canonical decimal form of an integer below [2^32 - 1]. *)
Definition array_index (k : string) : option N :=
  match NilZero.uint_of_string k with
  | Some u =>
      let n := N.of_uint u in
      if String.eqb (of_N n) k && (n <? 4294967295)%N then Some n else None
  | None => None
  end.

End Str.

(* ================================================================== *)
(** * Decoded documents *)

#[local] Set Warnings "-register-all".

Inductive json : Type :=
| JNull
| JBool (b : bool)
| JNum (n : Z)
| JStr (s : string)
| JArr (items : list json)
| JObj (props : list (string * json)).

(** Induction over the nesting of a document. *)
Section JsonInd.
Variable P : json -> Prop.
Hypothesis Hnull : P JNull.
Hypothesis Hbool : forall b, P (JBool b).
Hypothesis Hnum : forall n, P (JNum n).
Hypothesis Hstr : forall s, P (JStr s).
Hypothesis Harr : forall l, Forall P l -> P (JArr l).
Hypothesis Hobj : forall ps, Forall (fun kv => P (snd kv)) ps -> P (JObj ps).

End JsonInd.

(** Nesting depth, at least one. *)
Fixpoint depth (j : json) : nat :=
  match j with
  | JArr l => S (fold_right (fun x d => Nat.max (depth x) d) 0 l)
  | JObj ps => S (fold_right (fun kv d => Nat.max (depth (snd kv)) d) 0 ps)
  | _ => 1
  end.

(** Every string scalar of a document. *)
Fixpoint strings_of (j : json) : list string :=
  match j with
  | JStr s => [s]
  | JArr l => flat_map strings_of l
  | JObj ps => flat_map (fun kv => strings_of (snd kv)) ps
  | _ => []
  end.

(* ================================================================== *)
(** * JavaScript objects and operators on decoded values *)

Module JS.

Definition keys (ps : list (string * json)) : list string := List.map fst ps.

(** own-property lookup *)
Fixpoint assoc (k : string) (ps : list (string * json)) : option json :=
  match ps with
  | [] => None
  | (k', v) :: tl => if String.eqb k k' then Some v else assoc k tl
  end.

Definition has_key (k : string) (ps : list (string * json)) : bool :=
  match assoc k ps with Some _ => true | None => false end.

Fixpoint replace_key (k : string) (v : json) (ps : list (string * json))
  : list (string * json) :=
  match ps with
  | [] => []
  | (k', v') :: tl =>
      if String.eqb k k' then (k, v) :: tl else (k', v') :: replace_key k v tl
  end.

(** A new array-index key goes before the first property that is not an
    array index or has a larger index. *)
Fixpoint insert_index (i : N) (k : string) (v : json)
  (ps : list (string * json)) : list (string * json) :=
  match ps with
  | [] => [(k, v)]
  | (k', v') :: tl =>
      match Str.array_index k' with
      | Some j =>
          if (j <? i)%N then (k', v') :: insert_index i k v tl
          else (k, v) :: ps
      | None => (k, v) :: ps
      end
  end.

(** [o[k] = v]: an existing property keeps its place; a new one is
    enumerated after the older ones, except that array-index keys come
    first, in ascending order. *)
Definition set (ps : list (string * json)) (k : string) (v : json)
  : list (string * json) :=
  if has_key k ps then replace_key k v ps
  else match Str.array_index k with
       | Some i => insert_index i k v ps
       | None => ps ++ [(k, v)]
       end.

(** The object obtained by setting the given properties one after the
    other, as a decoder or an object literal does. *)
Definition obj_of (entries : list (string * json)) : list (string * json) :=
  fold_left (fun acc kv => set acc (fst kv) (snd kv)) entries [].

(** [Object.assign(target, source)] *)
Definition assign (target source : list (string * json))
  : list (string * json) :=
  fold_left (fun acc kv => set acc (fst kv) (snd kv)) source target.

(** truthiness *)
Definition truthy (v : json) : bool :=
  match v with
  | JNull => false
  | JBool b => b
  | JNum n => negb (Z.eqb n 0)
  | JStr s => Str.nonempty s
  | JArr _ | JObj _ => true
  end.

Definition truthy_opt (v : option json) : bool :=
  match v with Some x => truthy x | None => false end.

(** [a || b] where [b] is a value *)
Definition or_else (a : option json) (b : json) : json :=
  match a with
  | Some x => if truthy x then x else b
  | None => b
  end.

(** [typeof v === 'object'] *)
Definition typeof_object (v : json) : bool :=
  match v with
  | JNull | JArr _ | JObj _ => true
  | _ => false
  end.

(** [v === null] *)
Definition is_null (v : json) : bool :=
  match v with
  | JNull => true
  | _ => false
  end.

(** [v === s] for a string literal [s] *)
Definition is_string (v : option json) (s : string) : bool :=
  match v with
  | Some (JStr x) => String.eqb x s
  | _ => false
  end.

Definition chars (s : string) : list json :=
  List.map (fun c => JStr (String c EmptyString)) (list_ascii_of_string s).

Definition nth_N (l : list json) (i : N) : option json :=
  nth_error l (N.to_nat i).

End JS.

(* ================================================================== *)
(** * Outcomes *)

Inductive exn : Type :=
| TypeError
| SchemaDiscoveryError (msg : string).

Inductive outcome (A : Type) : Type :=
| Ret (a : A)
| Throw (e : exn)
| Diverge.

Arguments Ret {A} a.
Arguments Throw {A} e.
Arguments Diverge {A}.

Definition obind {A B} (x : outcome A) (f : A -> outcome B) : outcome B :=
  match x with
  | Ret a => f a
  | Throw e => Throw e
  | Diverge => Diverge
  end.

Module JSOps.
Import JS.

(** [v.k] / [v[k]]: reading a property of [null] throws; a primitive has
    no own data property but a string's [length] and characters. *)
Definition get (v : json) (k : string) : outcome (option json) :=
  match v with
  | JNull => Throw TypeError
  | JObj ps => Ret (assoc k ps)
  | JArr l =>
      if String.eqb k "length" then Ret (Some (JNum (Z.of_nat (List.length l))))
      else match Str.array_index k with
           | Some i => Ret (nth_N l i)
           | None => Ret None
           end
  | JStr s =>
      if String.eqb k "length" then Ret (Some (JNum (Z.of_nat (String.length s))))
      else match Str.array_index k with
           | Some i => Ret (nth_N (chars s) i)
           | None => Ret None
           end
  | JBool _ | JNum _ => Ret None
  end.

(** [k in v]: throws unless [v] is an object or an array. *)
Definition has (k : string) (v : json) : outcome bool :=
  match v with
  | JObj ps => Ret (has_key k ps)
  | JArr l =>
      if String.eqb k "length" then Ret true
      else match Str.array_index k with
           | Some i => Ret (N.to_nat i <? List.length l)
           | None => Ret false
           end
  | _ => Throw TypeError
  end.

Fixpoint indexed (i : N) (l : list json) : list (string * json) :=
  match l with
  | [] => []
  | x :: tl => (Str.of_N i, x) :: indexed (N.succ i) tl
  end.

(** [Object.entries(v)] *)
Definition entries (v : json) : outcome (list (string * json)) :=
  match v with
  | JNull => Throw TypeError
  | JObj ps => Ret ps
  | JArr l => Ret (indexed 0 l)
  | JStr s => Ret (indexed 0 (chars s))
  | JBool _ | JNum _ => Ret []
  end.

(** The elements a [for ... of] loop visits. *)
Definition iterate (v : json) : outcome (list json) :=
  match v with
  | JArr l => Ret l
  | JStr s => Ret (chars s)
  | _ => Throw TypeError
  end.

(** The string a value converts to, when it converts. *)
Fixpoint to_string (v : json) : string :=
  match v with
  | JNull => "null"
  | JBool true => "true"
  | JBool false => "false"
  | JNum n => Str.of_Z n
  | JStr s => s
  | JArr l =>
      String.concat ","
        (List.map (fun x => match x with JNull => "" | _ => to_string x end) l)
  | JObj _ => "[object Object]"
  end.

(** A value converts to a string unless the conversion meets an object
    with a member named [toString] of its own: the conversion of an object
    calls its [toString], found on [Object.prototype] unless the object
    has its own, and a member of a decoded object is data, which cannot be
    called ([valueOf], tried next, hands the object back).  An array joins
    the conversions of its elements, [null] counting as the empty
    string. *)
Fixpoint printable (v : json) : bool :=
  match v with
  | JArr l => List.forallb printable l
  | JObj ps => negb (has_key "toString" ps)
  | _ => true
  end.

(** [String(v)], as a template literal or a computed property key
    converts a value. *)
Definition ToString (v : json) : outcome string :=
  if printable v then Ret (to_string v) else Throw TypeError.

Definition ToString_opt (v : option json) : outcome string :=
  match v with Some x => ToString x | None => Ret "undefined" end.

End JSOps.

(* ================================================================== *)
(** * The memoisation cache and the resolver monad *)

(** [memoCache]: a JavaScript object from pointer to resolved schema. *)
Definition Memo : Type := list (string * json).

(** A computation that reads and writes the cache and may throw; the
    cache is returned in every case. *)
Definition M (A : Type) : Type := Memo -> outcome A * Memo.

Definition ret {A} (a : A) : M A := fun memo => (Ret a, memo).

Definition throw {A} (e : exn) : M A := fun memo => (Throw e, memo).

Definition lift {A} (o : outcome A) : M A := fun memo => (o, memo).

Definition bind {A B} (x : M A) (f : A -> M B) : M B :=
  fun memo =>
    match x memo with
    | (Ret a, memo') => f a memo'
    | (Throw e, memo') => (Throw e, memo')
    | (Diverge, memo') => (Diverge, memo')
    end.

Declare Scope resolver_scope.
Delimit Scope resolver_scope with M.
Notation "x <- c ;; k" := (bind c (fun x => k))
  (at level 61, c at next level, right associativity) : resolver_scope.
Local Open Scope resolver_scope.

(** [l.map(f)] for an effectful [f] *)
Fixpoint mapM {A B} (f : A -> M B) (l : list A) : M (list B) :=
  match l with
  | [] => ret []
  | x :: tl => y <- f x ;; ys <- mapM f tl ;; ret (y :: ys)
  end.

(** [for (const [k, v] of entries) if (keep k) result[k] = f(v)] *)
Fixpoint resolve_props (f : json -> M json) (keep : string -> bool)
  (entries result : list (string * json)) : M (list (string * json)) :=
  match entries with
  | [] => ret result
  | (k, v) :: tl =>
      if keep k then
        v' <- f v ;; resolve_props f keep tl (JS.set result k v')
      else resolve_props f keep tl result
  end.

(* ================================================================== *)
(** * Reference resolution *)

Definition ref_node (refPath : string) : json := JObj [("$ref", JStr refPath)].

Definition circular_placeholder : json :=
  JObj [("type", JStr "object"); ("description", JStr "Circular reference")].

Definition unresolved_placeholder : json :=
  JObj [("type", JStr "object"); ("description", JStr "Unresolved reference")].

(** The loop of [lookupRef]: one step per pointer segment. *)
Fixpoint navigate (current : json) (pathParts : list string) : json :=
  match pathParts with
  | [] => current
  | part :: rest =>
      match current with
      | JObj ps =>
          match JS.assoc part ps with
          | Some v => navigate v rest
          | None => JNull
          end
      | JArr l =>
          match JSOps.has part current, JSOps.get current part with
          | Ret true, Ret (Some v) => navigate v rest
          | _, _ => JNull
          end
      | _ => JNull
      end
  end.

(** [lookupRef(root, refPath)]: the referenced value, [null] if not found. *)
Definition lookupRef (root : json) (refPath : string) : json :=
  if negb (Str.startsWith refPath "#/") then JNull
  else navigate root (Str.split "/" (Str.substring_from 2 refPath)).

(** [resolved.type === 'object' || 'properties' in resolved] *)
Definition object_shaped (resolved : json) : outcome bool :=
  obind (JSOps.get resolved "type") (fun type =>
    if JS.is_string type "object" then Ret true
    else JSOps.has "properties" resolved).

(** The guard taken inside [anyOf]/[oneOf]/[allOf]: [true] when the
    [$ref] node is returned as it stands (the target is object-shaped, or
    the test threw). *)
Definition keep_polymorphic_ref (root : json) (refPath : string) : bool :=
  match lookupRef root refPath with
  | JNull => false
  | resolved =>
      match object_shaped resolved with
      | Ret b => b
      | _ => true
      end
  end.

Definition in_stack (refPath : string) (resolutionStack : list string) : bool :=
  List.existsb (String.eqb refPath) resolutionStack.

Section Composition.
Variables branch other : json -> M json.

(** A node carrying the composition keyword [kw]: the branches are
    resolved first, then every other property. *)
Definition composition (kw : string) (props : list (string * json)) : M json :=
  match JS.assoc kw props with
  | Some (JArr items) =>
      mapped <- mapM branch items ;;
      result <- resolve_props other (fun k => negb (String.eqb k kw)) props
                  [(kw, JArr mapped)] ;;
      ret (JObj result)
  | _ => throw TypeError
  end.
End Composition.

(** The type of [resolveRefs] with a fixed [root]. *)
Definition resolver : Type :=
  json -> list string -> Memo -> bool -> outcome json * Memo.

Section Body.
(** The recursive calls of the body go through [recur]. *)
Variable recur : resolver.
Variable root : json.

(** The branch of a pure [$ref] node [obj] with pointer [refPath]. *)
Definition resolve_pointer (obj : json) (refPath : string)
  (resolutionStack : list string) (memo : Memo)
  (insidePolymorphicKeyword : bool) : outcome json * Memo :=
  if negb (Str.startsWith refPath "#/") then (Ret obj, memo)
  else if insidePolymorphicKeyword && keep_polymorphic_ref root refPath
  then (Ret obj, memo)
  else
    match JS.assoc refPath memo with
    | Some cached => (Ret cached, memo)
    | None =>
        if in_stack refPath resolutionStack then
          (Ret circular_placeholder,
           JS.set memo refPath circular_placeholder)
        else
          match lookupRef root refPath with
          | JNull => (Ret obj, memo)
          | resolved =>
              let newStack := resolutionStack ++ [refPath] in
              match recur resolved newStack memo insidePolymorphicKeyword with
              | (Ret resolvedObj, memo') =>
                  (Ret resolvedObj, JS.set memo' refPath resolvedObj)
              | (Throw _, memo') =>
                  (Ret unresolved_placeholder,
                   JS.set memo' refPath unresolved_placeholder)
              | (Diverge, memo') => (Diverge, memo')
              end
          end
    end.

(** The body of [resolveRefs]. *)
Definition resolve_node (obj : json) (resolutionStack : list string)
  (memo : Memo) (insidePolymorphicKeyword : bool) : outcome json * Memo :=
  let call (flag : bool) (o : json) : M json :=
    fun m => recur o resolutionStack m flag in
  match obj with
  | JObj props =>
      if JS.has_key "anyOf" props then
        composition (call true) (call insidePolymorphicKeyword)
          "anyOf" props memo
      else if JS.has_key "oneOf" props then
        composition (call true) (call insidePolymorphicKeyword)
          "oneOf" props memo
      else if JS.has_key "allOf" props then
        composition (call true) (call insidePolymorphicKeyword)
          "allOf" props memo
      else if JS.has_key "$ref" props && (List.length props =? 1) then
        match JS.assoc "$ref" props with
        | Some (JStr refPath) =>
            resolve_pointer obj refPath resolutionStack memo
              insidePolymorphicKeyword
        | _ => (Throw TypeError, memo)
        end
      else
        (result <- resolve_props (call insidePolymorphicKeyword)
                     (fun _ => true) props [] ;;
         ret (JObj result)) memo
  | JArr items =>
      (mapped <- mapM (call insidePolymorphicKeyword) items ;;
       ret (JArr mapped)) memo
  | _ => (Ret obj, memo)
  end.
End Body.

(** [resolveRefs] with its recursion depth bounded by [fuel]. *)
Fixpoint resolveRefs_fuel (fuel : nat) (root : json) {struct fuel} : resolver :=
  match fuel with
  | O => fun _ _ memo _ => (Diverge, memo)
  | S fuel' => resolve_node (resolveRefs_fuel fuel' root) root
  end.

(** Pointers that may still be pushed on the resolution stack. *)
Definition pending (candidates stack : list string) : nat :=
  List.length (List.filter (fun p => negb (in_stack p stack)) candidates).

Definition resolve_fuel (obj root : json) (stack : list string) : nat :=
  depth obj
  + pending (strings_of root ++ strings_of obj) stack * S (depth root).

(** [resolveRefs(obj, root, resolutionStack, memo, insidePolymorphicKeyword)];
    an omitted [root] is [obj] itself. *)
Definition resolveRefs (obj : json) (root : option json)
  (resolutionStack : list string) (memo : Memo)
  (insidePolymorphicKeyword : bool) : outcome json * Memo :=
  let root := match root with Some r => r | None => obj end in
  resolveRefs_fuel (resolve_fuel obj root resolutionStack) root obj
    resolutionStack memo insidePolymorphicKeyword.

(* ================================================================== *)
(** * Tool names *)

Definition DEFAULT_API_TITLE : string := "Unknown API".
Definition DEFAULT_API_VERSION : string := "1.0.0".
Definition SUPPORTED_HTTP_METHODS : list string :=
  ["get"; "post"; "put"; "patch"; "delete"].

Definition string_in (s : string) (l : list string) : bool :=
  List.existsb (String.eqb s) l.

(** [name.replace(/([a-z0-9])([A-Z])/g, '$1 $2')]: matches are found from
    the left and do not overlap. *)
Fixpoint split_pascal (s : string) : string :=
  match s with
  | String a (String b rest as tl) =>
      if (Str.is_lower a || Str.is_digit a) && Str.is_upper b
      then String a (String " " (String b (split_pascal rest)))
      else String a (split_pascal tl)
  | _ => s
  end.

(** the character class of the separator pattern *)
Definition is_separator (c : ascii) : bool :=
  Ascii.eqb c "/" || Ascii.eqb c "_" || Ascii.eqb c "." || Ascii.eqb c "-".

(** [s.replace(/[\/_.-]+/g, ' ')]: [in_run] tells that the previous
    character belonged to the run being replaced. *)
Fixpoint replace_separators (in_run : bool) (s : string) : string :=
  match s with
  | EmptyString => EmptyString
  | String c s' =>
      if is_separator c then
        if in_run then replace_separators true s'
        else String " " (replace_separators true s')
      else String c (replace_separators false s')
  end.

(** [w.charAt(0).toUpperCase() + w.slice(1).toLowerCase()] *)
Definition capitalize (w : string) : string :=
  match w with
  | EmptyString => EmptyString
  | String c s' => String (Str.upper_char c) (Str.toLowerCase s')
  end.

Definition normalizeToolName (name : string) : string :=
  if negb (Str.nonempty name) then name
  else
    let pascalSplit := split_pascal name in
    let normalized := replace_separators false pascalSplit in
    let words := List.filter Str.nonempty (Str.split " " normalized) in
    match words with
    | [] => name
    | first :: others =>
        String.concat "" (Str.toLowerCase first :: List.map capitalize others)
    end.

Definition isValidToolName (name : string) : bool :=
  match name with
  | EmptyString => false
  | String c _ => Str.is_letter c && Str.existsb Str.is_alnum name
  end.

(** [path.replace(/\//g, '_').replace(/[{}]/g, '')] *)
Definition cleanPath (path : string) : string :=
  Str.filter (fun c => negb (Ascii.eqb c "{" || Ascii.eqb c "}"))
    (Str.replace_char "/" "_" path).

Definition fallbackName (method path : string) : string :=
  String.append (Str.toLowerCase method) (cleanPath path).

(* ================================================================== *)
(** * Tools and specifications *)

Module OCPTool.
Record t : Type := mk {
  name : string;
  description : json;
  method : string;
  path : string;
  parameters : list (string * json);
  response_schema : option json;
  operation_id : option json;
  tags : json
}.
End OCPTool.

Module OCPAPISpec.
Record t : Type := mk {
  base_url : json;
  title : json;
  version : json;
  description : json;
  tools : list OCPTool.t;
  raw_spec : json
}.
End OCPAPISpec.

(* ================================================================== *)
(** * Version detection *)

Definition dquote : string := String (ascii_of_nat 34) EmptyString.

Definition missing_version_message : string :=
  String.concat dquote
    ["Unable to detect spec version: missing "; "swagger"; " or ";
     "openapi"; " field"].

Definition detectSpecVersion (spec : json) : outcome string :=
  obind (JSOps.has "swagger" spec) (fun has_swagger =>
  if has_swagger then
    obind (JSOps.get spec "swagger") (fun swaggerVersion =>
    match swaggerVersion with
    | Some (JStr s) =>
        if Str.startsWith s "2." then Ret "swagger_2"
        else Throw (SchemaDiscoveryError
                      (String.append "Unsupported Swagger version: " s))
    | _ =>
        obind (JSOps.ToString_opt swaggerVersion) (fun shown =>
        Throw (SchemaDiscoveryError
                 (String.append "Unsupported Swagger version: " shown)))
    end)
  else
    obind (JSOps.has "openapi" spec) (fun has_openapi =>
    if has_openapi then
      obind (JSOps.get spec "openapi") (fun openapiVersion =>
      match openapiVersion with
      | Some (JStr s) =>
          if Str.startsWith s "3.0" then Ret "openapi_3.0"
          else if Str.startsWith s "3.1" then Ret "openapi_3.1"
          else if Str.startsWith s "3.2" then Ret "openapi_3.2"
          else Throw (SchemaDiscoveryError
                        (String.append "Unsupported OpenAPI version: " s))
      | _ =>
          obind (JSOps.ToString_opt openapiVersion) (fun shown =>
          Throw (SchemaDiscoveryError
                   (String.append "Unsupported OpenAPI version: " shown)))
      end)
    else Throw (SchemaDiscoveryError missing_version_message))).

(* ================================================================== *)
(** * Resource filter *)

(** The callback of [tools.filter]: does the first resource segment of
    [toolPath] belong to [normalizedResources]? *)
Definition resource_match (normalizedResources : list string)
  (pathPrefix : option string) (toolPath : string) : bool :=
  let path :=
    match pathPrefix with
    | Some prefix =>
        if Str.nonempty prefix then
          let prefixLower := Str.toLowerCase prefix in
          let pathLower := Str.toLowerCase toolPath in
          if Str.startsWith pathLower prefixLower
          then Str.substring_from (String.length prefix) toolPath
          else toolPath
        else toolPath
    | None => toolPath
    end in
  let pathLower := Str.toLowerCase path in
  let pathNormalized := Str.replace_char "." "/" pathLower in
  let segments :=
    List.filter (fun seg => Str.nonempty seg && negb (Str.startsWith seg "{"))
      (Str.split "/" pathNormalized) in
  match segments with
  | first :: _ => string_in first normalizedResources
  | [] => false
  end.

Definition filterToolsByResources (tools : list OCPTool.t)
  (includeResources : option (list string)) (pathPrefix : option string)
  : list OCPTool.t :=
  match includeResources with
  | None | Some [] => tools
  | Some resources =>
      let normalizedResources := List.map Str.toLowerCase resources in
      List.filter
        (fun tool => resource_match normalizedResources pathPrefix
                       (OCPTool.path tool))
        tools
  end.

(* ================================================================== *)
(** * Extraction of one operation *)

(** [required.includes(name)]: membership in an array, containment in a
    string; any other value has no [includes] method. *)
Definition includes_name (required : json) (name : string) : outcome bool :=
  match required with
  | JArr l =>
      Ret (List.existsb
             (fun x => match x with JStr s => String.eqb s name | _ => false end)
             l)
  | JStr s => Ret (Str.includes s name)
  | _ => Throw TypeError
  end.

(** [if (key in source) target[key] = source[key]] *)
Definition copy_if_present (key : string) (source : json)
  (target : list (string * json)) : outcome (list (string * json)) :=
  obind (JSOps.has key source) (fun present =>
  if present then
    obind (JSOps.get source key) (fun v =>
    match v with
    | Some x => Ret (JS.set target key x)
    | None => Ret target
    end)
  else Ret target).

(** The body of the loop of [parseParameters]. *)
Definition parseParameter (param specData : json)
  (result : list (string * json)) : M (list (string * json)) :=
  if negb (JS.truthy param) || negb (JS.typeof_object param) then ret result
  else
    name <- lift (JSOps.get param "name") ;;
    if negb (JS.truthy_opt name) then ret result
    else
      description <- lift (JSOps.get param "description") ;;
      required <- lift (JSOps.get param "required") ;;
      location <- lift (JSOps.get param "in") ;;
      let paramSchema :=
        [("description", JS.or_else description (JStr ""));
         ("required", JS.or_else required (JBool false));
         ("location", JS.or_else location (JStr "query"));
         ("type", JStr "string")] in
      schema0 <- lift (JSOps.get param "schema") ;;
      let schema := JS.or_else schema0 (JObj []) in
      resolvedSchema <- (fun memo => resolveRefs schema (Some specData) [] memo false) ;;
      type <- lift (JSOps.get resolvedSchema "type") ;;
      let paramSchema := JS.set paramSchema "type" (JS.or_else type (JStr "string")) in
      paramSchema <- lift (copy_if_present "enum" resolvedSchema paramSchema) ;;
      paramSchema <- lift (copy_if_present "format" resolvedSchema paramSchema) ;;
      key <- lift (JSOps.ToString_opt name) ;;
      ret (JS.set result key (JObj paramSchema)).

Fixpoint parseParameters_loop (params : list json) (specData : json)
  (result : list (string * json)) : M (list (string * json)) :=
  match params with
  | [] => ret result
  | param :: tl =>
      result' <- parseParameter param specData result ;;
      parseParameters_loop tl specData result'
  end.

Definition parseParameters (parameters specData : json)
  : M (list (string * json)) :=
  params <- lift (JSOps.iterate parameters) ;;
  parseParameters_loop params specData [].

(** The loop shared by both request-body readers: one parameter per
    object-valued property of the body schema. *)
Fixpoint body_properties (entries : list (string * json)) (required : json)
  (result : list (string * json)) : outcome (list (string * json)) :=
  match entries with
  | [] => Ret result
  | (name, prop) :: tl =>
      if negb (JS.typeof_object prop) || JS.is_null prop
      then body_properties tl required result
      else
        obind (JSOps.get prop "description") (fun description =>
        obind (includes_name required name) (fun is_required =>
        obind (JSOps.get prop "type") (fun type =>
        let entry :=
          [("description", JS.or_else description (JStr ""));
           ("required", JBool is_required);
           ("location", JStr "body");
           ("type", JS.or_else type (JStr "string"))] in
        obind (copy_if_present "enum" prop entry) (fun entry' =>
        body_properties tl required (JS.set result name (JObj entry'))))))
  end.

(** [if (schema.type === 'object') { ... return result; } return {};] *)
Definition body_parameters (schema : json) : outcome (list (string * json)) :=
  obind (JSOps.get schema "type") (fun type =>
  if JS.is_string type "object" then
    obind (JSOps.get schema "properties") (fun properties =>
    obind (JSOps.get schema "required") (fun required =>
    obind (JSOps.entries (JS.or_else properties (JObj []))) (fun entries =>
    body_properties entries (JS.or_else required (JArr [])) [])))
  else Ret []).

Definition parseOpenApi3RequestBody (requestBody specData : json)
  : M (list (string * json)) :=
  if negb (JS.truthy requestBody) || negb (JS.typeof_object requestBody)
  then ret []
  else
    content0 <- lift (JSOps.get requestBody "content") ;;
    let content := JS.or_else content0 (JObj []) in
    jsonContent <- lift (JSOps.get content "application/json") ;;
    match jsonContent with
    | Some jc =>
        if negb (JS.truthy jc) then ret []
        else
          schema0 <- lift (JSOps.get jc "schema") ;;
          match schema0 with
          | Some s =>
              if negb (JS.truthy s) then ret []
              else
                schema <- (fun memo => resolveRefs s (Some specData) [] memo false) ;;
                lift (body_parameters schema)
          | None => ret []
          end
    | None => ret []
    end.

Definition parseSwagger2BodyParameter (param specData : json)
  : M (list (string * json)) :=
  if negb (JS.truthy param) || negb (JS.typeof_object param) then ret []
  else
    location <- lift (JSOps.get param "in") ;;
    if negb (JS.is_string location "body") then ret []
    else
      schema0 <- lift (JSOps.get param "schema") ;;
      match schema0 with
      | Some s =>
          if negb (JS.truthy s) then ret []
          else
            schema <- (fun memo => resolveRefs s (Some specData) [] memo false) ;;
            lift (body_parameters schema)
      | None => ret []
      end.

Section Versioned.
(** [this.specVersion] *)
Variable specVersion : option string.

Definition is_swagger_2 : bool :=
  match specVersion with
  | Some v => String.eqb v "swagger_2"
  | None => false
  end.

(** The schema a response carries at the place the version prescribes,
    when there is a truthy one. *)
Definition response_schema_of (response : json) : outcome (option json) :=
  if is_swagger_2 then
    obind (JSOps.get response "schema") (fun schema =>
    Ret (if JS.truthy_opt schema then schema else None))
  else
    obind (JSOps.get response "content") (fun content0 =>
    let content := JS.or_else content0 (JObj []) in
    obind (JSOps.get content "application/json") (fun jsonContent =>
    match jsonContent with
    | Some jc =>
        if JS.truthy jc then
          obind (JSOps.get jc "schema") (fun schema =>
          Ret (if JS.truthy_opt schema then schema else None))
        else Ret None
    | None => Ret None
    end)).

(** The loop of [parseResponses] over [Object.entries(responses)]. *)
Fixpoint parseResponses_loop (entries : list (string * json))
  (specData : json) : M (option json) :=
  match entries with
  | [] => ret None
  | (statusCode, response) :: tl =>
      if Str.startsWith statusCode "2" && JS.typeof_object response
         && negb (JS.is_null response)
      then
        found <- lift (response_schema_of response) ;;
        match found with
        | Some schema =>
            r <- (fun memo => resolveRefs schema (Some specData) [] memo false) ;;
            ret (Some r)
        | None => parseResponses_loop tl specData
        end
      else parseResponses_loop tl specData
  end.

Definition parseResponses (responses specData : json) : M (option json) :=
  entries <- lift (JSOps.entries responses) ;;
  parseResponses_loop entries specData.

(** [for (const param of ...) Object.assign(parameters, bodyParams)] *)
Fixpoint swagger2_body_loop (params : list json) (specData : json)
  (parameters : list (string * json)) : M (list (string * json)) :=
  match params with
  | [] => ret parameters
  | param :: tl =>
      bodyParams <- parseSwagger2BodyParameter param specData ;;
      swagger2_body_loop tl specData (JS.assign parameters bodyParams)
  end.

(** The tool name chosen for an operation, if any. *)
Definition toolNameOf (path method : string) (operationId : option json)
  : outcome (option string) :=
  obind
    (if JS.truthy_opt operationId then
       match operationId with
       | Some (JStr id) =>
           let normalizedName := normalizeToolName id in
           Ret (if isValidToolName normalizedName
                then Some normalizedName else None)
       | _ => Throw TypeError
       end
     else Ret None)
    (fun toolName =>
     match toolName with
     | Some _ => Ret toolName
     | None =>
         let normalizedFallback :=
           normalizeToolName (fallbackName method path) in
         Ret (if isValidToolName normalizedFallback
              then Some normalizedFallback else None)
     end).

Definition createToolFromOperation (path method : string)
  (operation specData : json) : M (option OCPTool.t) :=
  if negb (JS.truthy operation) || negb (JS.typeof_object operation)
  then ret None
  else
    operationId <- lift (JSOps.get operation "operationId") ;;
    toolName <- lift (toolNameOf path method operationId) ;;
    match toolName with
    | None => ret None
    | Some toolName =>
        summary <- lift (JSOps.get operation "summary") ;;
        description0 <- lift (JSOps.get operation "description") ;;
        let description :=
          JS.or_else summary
            (JS.or_else description0 (JStr "No description provided")) in
        tags0 <- lift (JSOps.get operation "tags") ;;
        let tags := JS.or_else tags0 (JArr []) in
        parameters0 <- lift (JSOps.get operation "parameters") ;;
        let paramList := JS.or_else parameters0 (JArr []) in
        parameters <- parseParameters paramList specData ;;
        parameters <-
          (if string_in (Str.toUpperCase method) ["POST"; "PUT"; "PATCH"]
           then
             if is_swagger_2 then
               params <- lift (JSOps.iterate paramList) ;;
               swagger2_body_loop params specData parameters
             else
               requestBody <- lift (JSOps.get operation "requestBody") ;;
               match requestBody with
               | Some rb =>
                   if JS.truthy rb then
                     bodyParams <- parseOpenApi3RequestBody rb specData ;;
                     ret (JS.assign parameters bodyParams)
                   else ret parameters
               | None => ret parameters
               end
           else ret parameters) ;;
        responses0 <- lift (JSOps.get operation "responses") ;;
        responseSchema <-
          parseResponses (JS.or_else responses0 (JObj [])) specData ;;
        ret (Some
               (OCPTool.mk toolName description (Str.toUpperCase method) path
                  parameters responseSchema operationId tags))
    end.

(** The inner loop of [parseOpenApiSpec]: the operations of one path. *)
Fixpoint operations_loop (path : string) (entries : list (string * json))
  (spec : json) (tools : list OCPTool.t) : M (list OCPTool.t) :=
  match entries with
  | [] => ret tools
  | (method, operation) :: tl =>
      if negb (string_in (Str.toLowerCase method) SUPPORTED_HTTP_METHODS)
      then operations_loop path tl spec tools
      else
        tool <- createToolFromOperation path method operation spec ;;
        match tool with
        | Some t => operations_loop path tl spec (tools ++ [t])
        | None => operations_loop path tl spec tools
        end
  end.

(** The outer loop of [parseOpenApiSpec] over [Object.entries(paths)]. *)
Fixpoint paths_loop (entries : list (string * json)) (spec : json)
  (tools : list OCPTool.t) : M (list OCPTool.t) :=
  match entries with
  | [] => ret tools
  | (path, pathItem) :: tl =>
      if negb (JS.typeof_object pathItem) || JS.is_null pathItem
      then paths_loop tl spec tools
      else
        operations <- lift (JSOps.entries pathItem) ;;
        tools' <- operations_loop path operations spec tools ;;
        paths_loop tl spec tools'
  end.

Section BaseUrl.
(** [string_positive s]: the truth of [s > 0] for a string [s], which
    JavaScript decides on the number the string reads as. *)
Variable string_positive : string -> bool.

(** [x > 0]: an array or an object is compared through the string it
    converts to, and the string of an object reads as no number. *)
Definition positive (x : option json) : outcome bool :=
  match x with
  | None => Ret false
  | Some JNull => Ret false
  | Some (JBool b) => Ret b
  | Some (JNum n) => Ret (0 <? n)%Z
  | Some (JStr s) => Ret (string_positive s)
  | Some (JArr l) =>
      obind (JSOps.ToString (JArr l)) (fun s => Ret (string_positive s))
  | Some (JObj ps) => obind (JSOps.ToString (JObj ps)) (fun _ => Ret false)
  end.

Definition extractBaseUrl (spec : json) : outcome json :=
  if is_swagger_2 then
    obind (JSOps.get spec "schemes") (fun schemes0 =>
    let schemes := JS.or_else schemes0 (JArr [JStr "https"]) in
    obind (JSOps.get spec "host") (fun host0 =>
    let host := JS.or_else host0 (JStr "") in
    obind (JSOps.get spec "basePath") (fun basePath0 =>
    let basePath := JS.or_else basePath0 (JStr "") in
    if JS.truthy host then
      obind (JSOps.get schemes "length") (fun len =>
      obind (positive len) (fun nonempty =>
      obind (if nonempty then JSOps.get schemes "0"
             else Ret (Some (JStr "https"))) (fun scheme =>
      obind (JSOps.ToString_opt scheme) (fun schemeText =>
      obind (JSOps.ToString host) (fun hostText =>
      obind (JSOps.ToString basePath) (fun basePathText =>
      Ret (JStr (String.concat ""
                   [schemeText; "://"; hostText; basePathText]))))))))
    else Ret (JStr ""))))
  else
    obind (JSOps.get spec "servers") (fun servers0 =>
    match servers0 with
    | Some servers =>
        if JS.truthy servers then
          obind (JSOps.get servers "length") (fun len =>
          obind (positive len) (fun nonempty =>
          if nonempty then
            obind (JSOps.get servers "0") (fun first =>
            match first with
            | Some server =>
                obind (JSOps.get server "url") (fun url =>
                Ret (JS.or_else url (JStr "")))
            | None => Throw TypeError
            end)
          else Ret (JStr "")))
        else Ret (JStr "")
    | None => Ret (JStr "")
    end).

Definition parseOpenApiSpec (spec : json) (baseUrlOverride : option string)
  : outcome OCPAPISpec.t :=
  let memoCache : Memo := [] in
  obind (JSOps.get spec "info") (fun info0 =>
  let info := JS.or_else info0 (JObj []) in
  obind (JSOps.get info "title") (fun title0 =>
  let title := JS.or_else title0 (JStr DEFAULT_API_TITLE) in
  obind (JSOps.get info "version") (fun version0 =>
  let version := JS.or_else version0 (JStr DEFAULT_API_VERSION) in
  obind (JSOps.get info "description") (fun description0 =>
  let description := JS.or_else description0 (JStr "") in
  obind
    (match baseUrlOverride with
     | Some url => if Str.nonempty url then Ret (JStr url)
                   else extractBaseUrl spec
     | None => extractBaseUrl spec
     end) (fun baseUrl =>
  obind (JSOps.get spec "paths") (fun paths0 =>
  let paths := JS.or_else paths0 (JObj []) in
  obind (JSOps.entries paths) (fun entries =>
  obind (fst (paths_loop entries spec [] memoCache)) (fun tools =>
  Ret (OCPAPISpec.mk baseUrl title version description tools spec))))))))).
End BaseUrl.
End Versioned.

(** [parse(specData, baseUrlOverride, includeResources, pathPrefix)] *)
Definition parse (string_positive : string -> bool) (specData : json)
  (baseUrlOverride : option string) (includeResources : option (list string))
  (pathPrefix : option string) : outcome OCPAPISpec.t :=
  obind (detectSpecVersion specData) (fun specVersion =>
  obind (parseOpenApiSpec (Some specVersion) string_positive specData
           baseUrlOverride) (fun apiSpec =>
  match includeResources with
  | Some resources =>
      let filteredTools :=
        filterToolsByResources (OCPAPISpec.tools apiSpec) (Some resources)
          pathPrefix in
      Ret (OCPAPISpec.mk (OCPAPISpec.base_url apiSpec)
             (OCPAPISpec.title apiSpec) (OCPAPISpec.version apiSpec)
             (OCPAPISpec.description apiSpec) filteredTools
             (OCPAPISpec.raw_spec apiSpec))
  | None => Ret apiSpec
  end)).

(** [canParse(specData)]: ['swagger' in specData || 'openapi' in specData] *)
Definition canParse (specData : json) : outcome bool :=
  obind (JSOps.has "swagger" specData) (fun has_swagger =>
  if has_swagger then Ret true else JSOps.has "openapi" specData).

(** [getFormatName()] *)
Definition getFormatName : outcome string := Ret "OpenAPI".

(* ================================================================== *)
(** * The parser registry *)

(** [l.map(f)] for an [f] that may throw *)
Fixpoint omapM {A B} (f : A -> outcome B) (l : list A) : outcome (list B) :=
  match l with
  | [] => Ret []
  | x :: tl => obind (f x) (fun y => obind (omapM f tl) (fun ys => Ret (y :: ys)))
  end.

(** The abstract class [APISpecParser] of [src/parsers/base.ts]: what a
    parser of some format has to provide. *)
Module APISpecParser.
Record t : Type := mk {
  canParse : json -> outcome bool;
  parse : json -> option string -> option (list string) -> option string ->
          outcome OCPAPISpec.t;
  getFormatName : outcome string
}.
End APISpecParser.

(** [new OpenAPIParser()] *)
Definition OpenAPIParser (string_positive : string -> bool) : APISpecParser.t :=
  APISpecParser.mk canParse (parse string_positive) getFormatName.

(** Class [ParserRegistry] of [src/parsers/registry.ts]; a method that
    changes [this.parsers] returns the registry it leaves behind. *)
Module ParserRegistry.

Record t : Type := mk { parsers : list APISpecParser.t }.

(** [this.parsers.push(parser)] *)
Definition register (this : t) (parser : APISpecParser.t) : t :=
  mk (parsers this ++ [parser]).

Definition registerBuiltinParsers (string_positive : string -> bool) (this : t)
  : t :=
  register this (OpenAPIParser string_positive).

(** [new ParserRegistry(autoRegisterBuiltin)]; the flag defaults to [true]. *)
Definition new (string_positive : string -> bool)
  (autoRegisterBuiltin : option bool) : t :=
  let this := mk [] in
  if match autoRegisterBuiltin with Some flag => flag | None => true end
  then registerBuiltinParsers string_positive this
  else this.

(** The loop of [findParser] over the parsers not yet asked. *)
Fixpoint findParser_loop (remaining : list APISpecParser.t) (specData : json)
  : outcome (option APISpecParser.t) :=
  match remaining with
  | [] => Ret None
  | parser :: rest =>
      obind (APISpecParser.canParse parser specData) (fun accepted =>
      if accepted then Ret (Some parser) else findParser_loop rest specData)
  end.

(** [findParser(specData)]: the parser found, [null] if there is none. *)
Definition findParser (this : t) (specData : json)
  : outcome (option APISpecParser.t) :=
  findParser_loop (parsers this) specData.

Definition getSupportedFormats (this : t) : outcome (list string) :=
  omapM APISpecParser.getFormatName (parsers this).

Definition getParserCount (this : t) : nat := List.length (parsers this).

End ParserRegistry.

(* ================================================================== *)
(** * Specifications, invariants and classes of documents *)

(** The two kinds of failure of version detection, told apart by the
    message of the [SchemaDiscoveryError]. *)
Definition UnsupportedVersion (e : exn) : Prop :=
  exists shown,
    e = SchemaDiscoveryError
          (String.append "Unsupported Swagger version: " shown)
    \/ e = SchemaDiscoveryError
             (String.append "Unsupported OpenAPI version: " shown).

Definition MissingVersionField (e : exn) : Prop :=
  e = SchemaDiscoveryError missing_version_message.

(** The value of field [k] is a string that starts with [p]. *)
Definition field_starts_with (props : list (string * json)) (k p : string)
  : Prop :=
  exists s, JS.assoc k props = Some (JStr s) /\ Str.startsWith s p = true.

(** The value of field [k], if any, converts to a string. *)
Definition field_printable (props : list (string * json)) (k : string) : bool :=
  match JS.assoc k props with
  | Some v => JSOps.printable v
  | None => true
  end.


(** The filter in the words of its description.  Letter case is spelled
    out on character codes, independently of the case conversion the
    code calls. *)
Module FilterSpec.






(** dots to slashes, split on '/', drop empty segments and placeholders *)
Definition segments (path : string) : list string :=
  List.filter (fun seg => Str.nonempty seg && negb (Str.startsWith seg "{"))
    (Str.split "/" (Str.replace_char "." "/" path)).




End FilterSpec.

Definition tool_at (path : string) : OCPTool.t :=
  OCPTool.mk "tool" (JStr "") "GET" path [] None None (JArr []).

(** The naming policy in the words of its description. *)
Module NamingSpec.

(** what one character of the path contributes to the synthesized name
    when '/' is turned into '_' and braces are dropped *)
Definition underscored (c : ascii) : string :=
  if Ascii.eqb c "/" then "_"
  else if Ascii.eqb c "{" || Ascii.eqb c "}" then ""
  else String c EmptyString.

(** the same when '/' is dropped as well *)
Definition removed (c : ascii) : string :=
  if Ascii.eqb c "/" || Ascii.eqb c "{" || Ascii.eqb c "}" then ""
  else String c EmptyString.

Fixpoint rewrite_path (f : ascii -> string) (path : string) : string :=
  match path with
  | EmptyString => EmptyString
  | String c rest => String.append (f c) (rewrite_path f rest)
  end.

(** [<lowercased method><rewritten path>], normalized *)
Definition synthesized (f : ascii -> string) (method path : string) : string :=
  normalizeToolName
    (String.append (Str.toLowerCase method) (rewrite_path f path)).

(** the name the policy yields from a synthesized candidate *)
Definition chosen (candidate : string) : option string :=
  if isValidToolName candidate then Some candidate else None.

(** no operation id, or one whose normalized form is not a valid name *)
Definition unusable (operationId : option json) : Prop :=
  JS.truthy_opt operationId = false
  \/ exists id, operationId = Some (JStr id)
                /\ isValidToolName (normalizeToolName id) = false.

End NamingSpec.

(** The response extractor in the words of its description. *)
Module ResponseSpec.

(** member [k] of a mapping; anything else has no members *)
Definition field (v : option json) (k : string) : option json :=
  match v with
  | Some (JObj ps) => JS.assoc k ps
  | _ => None
  end.

(** Swagger 2: [response.schema];
    OpenAPI 3.x: [response.content["application/json"].schema] *)
Definition schema_at (swagger2 : bool) (response : json) : option json :=
  if swagger2 then field (Some response) "schema"
  else field (field (field (Some response) "content") "application/json")
         "schema".

(** an entry the scan stops at: a 2xx key, a response that is an object,
    and a truthy schema at the place the version prescribes *)
Definition qualifies (swagger2 : bool) (entry : string * json) : bool :=
  Str.startsWith (fst entry) "2"
  && JS.typeof_object (snd entry) && negb (JS.is_null (snd entry))
  && JS.truthy_opt (schema_at swagger2 (snd entry)).

(** the reading of the claim as stated: the first key that starts with
    "2", in the order the keys were inserted, decides *)
Definition first_2xx_inserted (swagger2 : bool)
  (inserted : list (string * json)) : option json :=
  match List.find (fun entry => Str.startsWith (fst entry) "2") inserted with
  | Some (_, response) => schema_at swagger2 response
  | None => None
  end.

End ResponseSpec.

(** The run of the resolver on the schema found, wrapped as the response
    schema of the tool. *)
Definition resolved_response (schema specData : json) : M (option json) :=
  (r <- (fun memo => resolveRefs schema (Some specData) [] memo false) ;;
   ret (Some r))%M.

Definition string_schema : json := JObj [("type", JStr "string")].
Definition integer_schema : json := JObj [("type", JStr "integer")].



(** [o] lies strictly inside [obj]. *)
Definition inside (o obj : json) : Prop :=
  depth o < depth obj /\ incl (strings_of o) (strings_of obj).

(** [c'] answers as [c] does wherever [c] does not run out of fuel. *)
Definition refines {A} (c c' : M A) : Prop :=
  forall memo r memo',
    c memo = (r, memo') -> r <> Diverge -> c' memo = (r, memo').

Definition resolver_refines (rec rec' : resolver) : Prop :=
  forall o stack flag,
    refines (fun m => rec o stack m flag) (fun m => rec' o stack m flag).

(** [c] never runs out of fuel. *)
Definition terminates {A} (c : M A) : Prop :=
  forall memo, fst (c memo) <> Diverge.

Definition memo_sound (root : json) (memo : Memo) : Prop :=
  forall p, JS.has_key p memo = true -> lookupRef root p <> JNull.

Definition stack_sound (root : json) (stack : list string) : Prop :=
  forall p, in_stack p stack = true -> lookupRef root p <> JNull.

(** [c] maintains the invariant [I] of the cache, however it ends. *)
Definition preserves {A} (I : Memo -> Prop) (c : M A) : Prop :=
  forall memo r memo', I memo -> c memo = (r, memo') -> I memo'.

(** [rec] keeps the cache sound whenever the stack is. *)
Definition resolver_sound (root : json) (rec : resolver) : Prop :=
  forall o stack flag,
    stack_sound root stack ->
    preserves (memo_sound root) (fun m => rec o stack m flag).

(** A schema is object-shaped when its [type] is "object" or it has a
    [properties] member. *)
Definition is_object_shaped (target : json) : bool :=
  match target with
  | JObj ps =>
      JS.is_string (JS.assoc "type" ps) "object" || JS.has_key "properties" ps
  | _ => false
  end.

Definition petstore : json :=
  JObj [("components",
         JObj [("schemas",
                JObj [("Pet", JObj [("type", JStr "object");
                                    ("properties",
                                     JObj [("name", string_schema)])]);
                      ("Name", string_schema);
                      ("Broken", JObj [("anyOf", JStr "Pet")])])])].

(** Two entries agree when they have the same key and related values. *)
Definition entry_equiv (R : json -> json -> Prop) (a b : string * json)
  : Prop :=
  fst a = fst b /\ R (snd a) (snd b).

(** Structural identity: the same scalars, the same elements in the same
    order, the same members whatever their order. *)
Inductive json_equiv : json -> json -> Prop :=
| equiv_null : json_equiv JNull JNull
| equiv_bool b : json_equiv (JBool b) (JBool b)
| equiv_num n : json_equiv (JNum n) (JNum n)
| equiv_str s : json_equiv (JStr s) (JStr s)
| equiv_arr l l' :
    Forall2 json_equiv l l' -> json_equiv (JArr l) (JArr l')
| equiv_obj ps ps' qs qs' :
    Permutation ps ps' -> Permutation qs qs' ->
    Forall2 (fun a b => fst a = fst b /\ json_equiv (snd a) (snd b)) ps' qs' ->
    json_equiv (JObj ps) (JObj qs).

(** [f] returns on [x], keeps the invariant [I] of the cache and answers
    within [R]. *)
Definition returns (I : Memo -> Prop) (R : json -> json -> Prop)
  (f : json -> M json) (x : json) : Prop :=
  forall memo, I memo ->
    exists y memo', f x memo = (Ret y, memo') /\ I memo' /\ R x y.

(** [P] holds of every object of the document. *)
Fixpoint every_object (P : list (string * json) -> bool) (j : json) : bool :=
  match j with
  | JArr l => forallb (every_object P) l
  | JObj ps => P ps && forallb (fun kv => every_object P (snd kv)) ps
  | _ => true
  end.

Fixpoint distinct (l : list string) : bool :=
  match l with
  | [] => true
  | x :: tl => negb (string_in x tl) && distinct tl
  end.

(** No object has two members of the same name. *)
Definition unique_keys : json -> bool :=
  every_object (fun ps => distinct (JS.keys ps)).

(** No object has a [$ref] member. *)
Definition ref_free : json -> bool :=
  every_object (fun ps => negb (JS.has_key "$ref" ps)).

(** No object has a member named [__proto__]: every member of such a
    document is copied by an assignment [result[key] = value], where the
    key [__proto__] would change the prototype of [result] instead. *)
Definition proto_free : json -> bool :=
  every_object (fun ps => negb (JS.has_key "__proto__" ps)).

(** The keyword under which an object is treated as a composition. *)
Definition leading_keyword (ps : list (string * json)) : option string :=
  if JS.has_key "anyOf" ps then Some "anyOf"
  else if JS.has_key "oneOf" ps then Some "oneOf"
  else if JS.has_key "allOf" ps then Some "allOf"
  else None.

Definition composed_by_array (ps : list (string * json)) : bool :=
  match leading_keyword ps with
  | Some kw =>
      match JS.assoc kw ps with
      | Some (JArr _) => true
      | _ => false
      end
  | None => true
  end.

(** Wherever an object is treated as a composition, the keyword holds an
    array of branches. *)
Definition well_composed : json -> bool := every_object composed_by_array.




(** [rec] returns on [o], keeps [I] and answers with a document
    structurally identical to [T o]. *)
Definition resolves (I : Memo -> Prop) (T : json -> json) (rec : resolver)
  (stack : list string) (flag : bool) (o : json) : Prop :=
  returns I (fun x y => json_equiv (T x) y) (fun x m => rec x stack m flag) o.

(** the members of an object, each value replaced by its image *)
Definition rebuilt (T : json -> json) (ps : list (string * json))
  : list (string * json) :=
  List.map (fun kv => (fst kv, T (snd kv))) ps.

(** A schema that describes an object with a property named [anyOf]. *)
Definition schema_with_anyOf_property : json :=
  JObj [("type", JStr "object");
        ("properties", JObj [("anyOf", string_schema)])].



(** For a pointer under resolution the cache holds nothing, or the
    placeholder. *)
Definition cycle_sound (stack : list string) (memo : Memo) : Prop :=
  forall p, in_stack p stack = true ->
    JS.assoc p memo = None \/ JS.assoc p memo = Some circular_placeholder.

(** [stack'] has every pointer of [stack]. *)
Definition extends (stack stack' : list string) : Prop :=
  forall p, in_stack p stack = true -> in_stack p stack' = true.

Definition self_referential : json :=
  JObj [("components",
         JObj [("schemas",
                JObj [("A", JObj [("type", JStr "object");
                                  ("properties",
                                   JObj [("self",
                                          ref_node "#/components/schemas/A")])]);
                      ("B", ref_node "#/components/schemas/B")])])].

Definition union_schema : json :=
  JObj [("description", JStr "a name or an age");
        ("oneOf", JArr [string_schema; integer_schema])].

(** A space, or one of the separators [/ _ . -] that normalization
    turns into a word boundary. *)
Definition is_delimiter (c : ascii) : bool := Ascii.eqb c " " || is_separator c.

(** A name in the form normalization aims at: it starts with a lower-case
    letter and holds no delimiter. *)
Definition camel_name (name : string) : Prop :=
  (exists c rest, name = String c rest /\ Str.is_lower c = true)
  /\ Str.existsb is_delimiter name = false.

(** What [createToolFromOperation] guarantees of the tool it builds for
    the operation [method] of [path]. *)
Definition tool_of (path method : string) (tool : OCPTool.t) : Prop :=
  (exists candidate, OCPTool.name tool = normalizeToolName candidate)
  /\ isValidToolName (OCPTool.name tool) = true
  /\ OCPTool.method tool = Str.toUpperCase method
  /\ OCPTool.path tool = path.

(** A tool as a parse delivers it: a valid name in camel case, one of the
    supported methods in upper case, one of the paths of the document. *)
Definition well_formed_tool (paths : list string) (tool : OCPTool.t) : Prop :=
  isValidToolName (OCPTool.name tool) = true
  /\ camel_name (OCPTool.name tool)
  /\ In (OCPTool.method tool) (List.map Str.toUpperCase SUPPORTED_HTTP_METHODS)
  /\ In (OCPTool.path tool) paths.

(** An entry of a path item that stands for an operation: its key is one
    of the supported methods, letter case aside. *)
Definition is_operation (entry : string * json) : bool :=
  string_in (Str.toLowerCase (fst entry)) SUPPORTED_HTTP_METHODS.

(** An entry of [paths] that is looked into: its value is an object. *)
Definition is_path_item (entry : string * json) : bool :=
  JS.typeof_object (snd entry) && negb (JS.is_null (snd entry)).

(** The scheme of a Swagger 2 base URL: the first of [schemes], "https"
    when there is none. *)
Definition swagger2_scheme (schemes : option json) : string :=
  match schemes with
  | Some (JArr (first :: _)) => JSOps.to_string first
  | _ => "https"
  end.

(** [apiSpec] with its tools replaced. *)
Definition with_tools (apiSpec : OCPAPISpec.t) (tools : list OCPTool.t)
  : OCPAPISpec.t :=
  OCPAPISpec.mk (OCPAPISpec.base_url apiSpec) (OCPAPISpec.title apiSpec)
    (OCPAPISpec.version apiSpec) (OCPAPISpec.description apiSpec) tools
    (OCPAPISpec.raw_spec apiSpec).

(** The key under which [parseParameters] files a parameter: the string
    form of its truthy [name]; a parameter that is no object or has no
    such name is skipped. *)
Definition parameter_name (param : json) : option string :=
  match param with
  | JObj fields =>
      match JS.assoc "name" fields with
      | Some name => if JS.truthy name then Some (JSOps.to_string name) else None
      | None => None
      end
  | _ => None
  end.

(** Every parameter that has a name is named by a string. *)
Definition named_by_strings (params : list json) : Prop :=
  forall fields name,
    In (JObj fields) params -> JS.assoc "name" fields = Some name ->
    JS.truthy name = true -> exists s, name = JStr s.

(** The four members every extracted parameter carries. *)
Definition parameter_entry (entry : json) : Prop :=
  exists fields,
    entry = JObj fields
    /\ JS.has_key "description" fields = true
    /\ JS.has_key "required" fields = true
    /\ JS.has_key "location" fields = true
    /\ JS.has_key "type" fields = true.

(** A parameter read from a request body whose schema lists the required
    properties in [required]. *)
Definition body_entry (required : json) (name : string) (entry : json) : Prop :=
  exists fields is_required,
    entry = JObj fields
    /\ JS.assoc "location" fields = Some (JStr "body")
    /\ JS.assoc "required" fields = Some (JBool is_required)
    /\ includes_name required name = Ret is_required
    /\ JS.has_key "description" fields = true
    /\ JS.has_key "type" fields = true.

(** The list of required properties a body schema declares: its
    [required] member, the empty list when it has none. *)
Definition required_of (schema : json) : json :=
  JS.or_else (ResponseSpec.field (Some schema) "required") (JArr []).

(** The cache holds [v] for the pointer [p]. *)
Definition caches (p : string) (v : json) (memo : Memo) : Prop :=
  JS.assoc p memo = Some v.

(** A node handled by the pointer branch: its only member is [$ref]. *)
Definition pure_ref (props : list (string * json)) : bool :=
  JS.has_key "$ref" props && (List.length props =? 1).

(** An outcome that is a value or a [TypeError]. *)
Definition settles {A} (o : outcome A) : Prop :=
  match o with
  | Ret _ => True
  | Throw e => e = TypeError
  | Diverge => False
  end.

(** A computation that ends, from every cache, in a value or a
    [TypeError]. *)
Definition always_settles {A} (c : M A) : Prop :=
  forall memo, settles (fst (c memo)).

(** A computation that throws nothing but a [TypeError]. *)
Definition throws_type_errors_only {A} (c : M A) : Prop :=
  forall memo e memo', c memo = (Throw e, memo') -> e = TypeError.

(** An OpenAPI 3 document with one path: an operation, and a key that is
    no method. *)
Definition users_api_members : list (string * json) :=
  [("openapi", JStr "3.0.0");
   ("info", JObj [("title", JStr "Test API")]);
   ("servers", JArr [JObj [("url", JStr "https://api.example.com")]]);
   ("paths",
    JObj [("/users",
           JObj [("get", JObj [("operationId", JStr "listUsers")]);
                 ("parameters", JArr [])])])].

Definition users_api : json := JObj users_api_members.

(** A Swagger 2 document that names a host and a base path. *)
Definition swagger_api_members : list (string * json) :=
  [("swagger", JStr "2.0"); ("host", JStr "api.example.com");
   ("basePath", JStr "/v1")].

Definition swagger_api : json := JObj swagger_api_members.

(** The paths of a document whose one operation answers with a schema
    that is a reference. *)
Definition pets_paths : list (string * json) :=
  [("/pets",
    JObj [("get",
           JObj [("responses",
                  JObj [("200",
                         JObj [("content",
                                JObj [("application/json",
                                       JObj [("schema",
                                              ref_node
                                                "#/components/schemas/Name")])])])])])])].

(** A query parameter in the style of Swagger 2: the type is a member of
    the parameter itself. *)
Definition limit_parameter : list (string * json) :=
  [("name", JStr "limit"); ("in", JStr "query"); ("type", JStr "integer")].

(** A request body that describes an object with one required property. *)
Definition user_body : json :=
  JObj [("content",
         JObj [("application/json",
                JObj [("schema",
                       JObj [("type", JStr "object");
                             ("properties", JObj [("name", string_schema)]);
                             ("required", JArr [JStr "name"])])])])].

(* ================================================================== *)
(** * Version detection: properties *)

Lemma has_key_assoc k ps :
  JS.has_key k ps = true <-> exists v, JS.assoc k ps = Some v.
Proof.
  unfold JS.has_key. destruct (JS.assoc k ps) as [v|].
  - split; eauto.
  - split; [discriminate | intros [v H]; discriminate].
Qed.

Lemma has_key_false k ps : JS.has_key k ps = false <-> JS.assoc k ps = None.
Proof.
  unfold JS.has_key. destruct (JS.assoc k ps); split; congruence.
Qed.

Lemma ToString_printable v :
  JSOps.printable v = true -> JSOps.ToString v = Ret (JSOps.to_string v).
Proof. unfold JSOps.ToString. now intros ->. Qed.

Lemma ToString_unprintable v :
  JSOps.printable v = false -> JSOps.ToString v = Throw TypeError.
Proof. unfold JSOps.ToString. now intros ->. Qed.

Lemma ToString_ret v shown :
  JSOps.ToString v = Ret shown ->
  JSOps.printable v = true /\ shown = JSOps.to_string v.
Proof.
  unfold JSOps.ToString. destruct (JSOps.printable v); [|discriminate].
  intros H. injection H as <-. now split.
Qed.

(** The error of a version field that fits no supported version, when
    the value can be shown in the message. *)
Lemma unsupported_version_shown (label : string) (v : json) :
  JSOps.printable v = true ->
  obind (JSOps.ToString_opt (Some v)) (fun shown =>
    Throw (A := string) (SchemaDiscoveryError (String.append label shown)))
  = Throw (SchemaDiscoveryError (String.append label (JSOps.to_string v))).
Proof.
  intros Hv. cbn [JSOps.ToString_opt]. now rewrite (ToString_printable _ Hv).
Qed.

Lemma swagger_branch props :
  JS.has_key "swagger" props = true ->
  (field_starts_with props "swagger" "2." ->
   detectSpecVersion (JObj props) = Ret "swagger_2")
  /\ (~ field_starts_with props "swagger" "2." ->
      field_printable props "swagger" = true ->
      exists e, detectSpecVersion (JObj props) = Throw e
                /\ UnsupportedVersion e)
  /\ (field_printable props "swagger" = false ->
      detectSpecVersion (JObj props) = Throw TypeError).
Proof.
  intros Hhas. unfold detectSpecVersion, field_printable.
  cbn [JSOps.has JSOps.get obind].
  rewrite Hhas. apply has_key_assoc in Hhas as [v Hv]. rewrite Hv.
  split; [|split].
  - intros [s [Hs Hp]]. rewrite Hv in Hs. injection Hs as ->. now rewrite Hp.
  - intros Hno Hshown.
    assert (Hthrow : forall shown,
      exists e, Throw (A := string) (SchemaDiscoveryError
                  (String.append "Unsupported Swagger version: " shown))
                = Throw e /\ UnsupportedVersion e).
    { intros shown. eexists. split; [reflexivity|]. exists shown. now left. }
    destruct v as [| b | n | s | l | ps];
      try (rewrite (unsupported_version_shown _ _ Hshown); apply Hthrow).
    destruct (Str.startsWith s "2.") eqn:Hp; [|apply Hthrow].
    exfalso. apply Hno. exists s. now split.
  - intros Hhidden.
    destruct v as [| b | n | s | l | ps]; try discriminate;
      cbn [JSOps.ToString_opt]; now rewrite (ToString_unprintable _ Hhidden).
Qed.

Lemma openapi_branch props :
  JS.has_key "swagger" props = false ->
  JS.has_key "openapi" props = true ->
  (field_starts_with props "openapi" "3.0" ->
   detectSpecVersion (JObj props) = Ret "openapi_3.0")
  /\ (~ field_starts_with props "openapi" "3.0" ->
      field_starts_with props "openapi" "3.1" ->
      detectSpecVersion (JObj props) = Ret "openapi_3.1")
  /\ (~ field_starts_with props "openapi" "3.0" ->
      ~ field_starts_with props "openapi" "3.1" ->
      field_starts_with props "openapi" "3.2" ->
      detectSpecVersion (JObj props) = Ret "openapi_3.2")
  /\ (~ field_starts_with props "openapi" "3.0" ->
      ~ field_starts_with props "openapi" "3.1" ->
      ~ field_starts_with props "openapi" "3.2" ->
      field_printable props "openapi" = true ->
      exists e, detectSpecVersion (JObj props) = Throw e
                /\ UnsupportedVersion e)
  /\ (field_printable props "openapi" = false ->
      detectSpecVersion (JObj props) = Throw TypeError).
Proof.
  intros Hsw Hhas. unfold detectSpecVersion, field_printable.
  cbn [JSOps.has JSOps.get obind].
  rewrite Hsw, Hhas. cbn [obind].
  apply has_key_assoc in Hhas as [v Hv]. rewrite Hv.
  assert (Hthrow : forall shown,
    exists e, Throw (A := string) (SchemaDiscoveryError
                (String.append "Unsupported OpenAPI version: " shown))
              = Throw e /\ UnsupportedVersion e).
  { intros shown. eexists. split; [reflexivity|]. exists shown. now right. }
  assert (Hfield : forall p s, v = JStr s ->
    (field_starts_with props "openapi" p <-> Str.startsWith s p = true)).
  { intros p s ->. split.
    - intros [s' [Hs' Hp]]. rewrite Hv in Hs'. now injection Hs' as ->.
    - intros Hp. exists s. now split. }
  assert (Hnot : forall p, (forall s, v <> JStr s) ->
    ~ field_starts_with props "openapi" p).
  { intros p Hns [s [Hs _]]. rewrite Hv in Hs. injection Hs as ->.
    now apply (Hns s). }
  destruct v as [| b | n | s | l | ps].
  1-3, 5-6:
    (repeat split; intros;
     try (exfalso; eapply Hnot; [|eassumption]; intros; discriminate);
     try discriminate;
     try (cbn [JSOps.ToString_opt];
          match goal with
          | H : JSOps.printable _ = false |- _ =>
              now rewrite (ToString_unprintable _ H)
          end);
     match goal with
     | H : JSOps.printable _ = true |- _ =>
         rewrite (unsupported_version_shown _ _ H); apply Hthrow
     end).
  pose proof (Hfield "3.0" s eq_refl) as H0.
  pose proof (Hfield "3.1" s eq_refl) as H1.
  pose proof (Hfield "3.2" s eq_refl) as H2.
  destruct (Str.startsWith s "3.0") eqn:E0;
    destruct (Str.startsWith s "3.1") eqn:E1;
    destruct (Str.startsWith s "3.2") eqn:E2;
    repeat split; intros;
    try reflexivity;
    try discriminate;
    try (exfalso; tauto);
    try apply Hthrow;
    try (exfalso;
         match goal with
         | H : field_starts_with _ _ _ |- _ =>
             first [apply H0 in H | apply H1 in H | apply H2 in H];
             discriminate
         end).
Qed.

Lemma missing_branch props :
  JS.has_key "swagger" props = false ->
  JS.has_key "openapi" props = false ->
  exists e, detectSpecVersion (JObj props) = Throw e /\ MissingVersionField e.
Proof.
  intros Hsw Hoa. unfold detectSpecVersion. cbn [JSOps.has obind].
  rewrite Hsw, Hoa. eexists. split; reflexivity.
Qed.



Example detectSpecVersion_swagger_2 :
  detectSpecVersion (JObj [("swagger", JStr "2.0")]) = Ret "swagger_2".
Proof. reflexivity. Qed.

Example detectSpecVersion_openapi_3_1 :
  detectSpecVersion (JObj [("openapi", JStr "3.1.2")]) = Ret "openapi_3.1".
Proof. reflexivity. Qed.

Example detectSpecVersion_openapi_4 :
  detectSpecVersion (JObj [("openapi", JStr "4.0.0")])
  = Throw (SchemaDiscoveryError "Unsupported OpenAPI version: 4.0.0").
Proof. reflexivity. Qed.

Example detectSpecVersion_empty :
  detectSpecVersion (JObj []) = Throw (SchemaDiscoveryError missing_version_message).
Proof. reflexivity. Qed.

(* ================================================================== *)
(** * Resource filter: properties *)

Section FilterFacts.






Lemma filter_map_commute {A B} (f : A -> B) (p : B -> bool) (q : A -> bool) l :
  (forall x, p (f x) = q x) ->
  List.filter p (List.map f l) = List.map f (List.filter q l).
Proof.
  intros H. induction l as [|x l IH]; [reflexivity|].
  cbn. rewrite H. destruct (q x); cbn; now rewrite IH.
Qed.

Lemma string_in_spec s l : string_in s l = true <-> In s l.
Proof.
  unfold string_in. rewrite existsb_exists. split.
  - intros [x [Hin Heq]]. apply String.eqb_eq in Heq. now subst.
  - intros Hin. exists s. split; [assumption | apply String.eqb_refl].
Qed.






End FilterFacts.



Example filter_repos :
  filterToolsByResources
    [tool_at "/repos/{owner}/{repo}"; tool_at "/repos/{owner}/{repo}/issues";
     tool_at "/user/repos"] (Some ["repos"]) None
  = [tool_at "/repos/{owner}/{repo}"; tool_at "/repos/{owner}/{repo}/issues"].
Proof. reflexivity. Qed.

Example filter_payments_prefix :
  filterToolsByResources [tool_at "/v1/payments"; tool_at "/v2/payments"]
    (Some ["payments"]) (Some "/v1")
  = [tool_at "/v1/payments"].
Proof. reflexivity. Qed.

Example filter_no_substring_match :
  filterToolsByResources [tool_at "/payments"] (Some ["payment"]) None = [].
Proof. reflexivity. Qed.

(* ================================================================== *)
(** * Facts about the resolver monad *)

Section MonadFacts.
Context {A B : Type}.

Lemma bind_ret_inv (c : M A) (k : A -> M B) memo b memo' :
  bind c k memo = (Ret b, memo') ->
  exists a memo1, c memo = (Ret a, memo1) /\ k a memo1 = (Ret b, memo').
Proof.
  unfold bind. destruct (c memo) as [[a | e |] memo1]; intros H;
    try discriminate. eauto.
Qed.

Lemma bind_ret_eq (c : M A) (k : A -> M B) memo a memo1 :
  c memo = (Ret a, memo1) -> bind c k memo = k a memo1.
Proof. unfold bind. now intros ->. Qed.

Lemma lift_ret_inv (o : outcome A) memo a memo' :
  lift o memo = (Ret a, memo') -> o = Ret a /\ memo' = memo.
Proof. unfold lift. intros H. injection H as -> ->. auto. Qed.
End MonadFacts.

(** Peel the binds of a computation known to return. *)
Ltac bind_inv H :=
  let a := fresh "a" in
  let m := fresh "memo" in
  let H1 := fresh "Hstep" in
  apply bind_ret_inv in H as (a & m & H1 & H).

(* ================================================================== *)
(** * Tool names: properties *)

Example normalize_examples :
  List.map normalizeToolName
    ["FetchAccount"; "admin_apps_approve";
     "repos/disable-vulnerability-alerts"; "v2010/Accounts"]
  = ["fetchAccount"; "adminAppsApprove";
     "reposDisableVulnerabilityAlerts"; "v2010Accounts"].
Proof. reflexivity. Qed.

Example isValid_examples :
  List.map isValidToolName [""; "123invalid"; "___"; "metaRoot"]
  = [false; false; false; true].
Proof. reflexivity. Qed.

Lemma cleanPath_underscored path :
  cleanPath path = NamingSpec.rewrite_path NamingSpec.underscored path.
Proof.
  unfold cleanPath, Str.replace_char.
  induction path as [|c rest IH]; [reflexivity|].
  cbn [Str.map Str.filter NamingSpec.rewrite_path]. rewrite <- IH.
  unfold NamingSpec.underscored.
  destruct (Ascii.eqb c "/") eqn:Hslash; [reflexivity|].
  destruct (Ascii.eqb c "{" || Ascii.eqb c "}"); reflexivity.
Qed.

Lemma toolNameOf_fallback path method operationId :
  NamingSpec.unusable operationId ->
  toolNameOf path method operationId
  = Ret (NamingSpec.chosen
           (NamingSpec.synthesized NamingSpec.underscored method path)).
Proof.
  unfold toolNameOf, NamingSpec.chosen, NamingSpec.synthesized, fallbackName.
  rewrite cleanPath_underscored.
  intros [Hfalsy | [id [-> Hinvalid]]].
  - rewrite Hfalsy. reflexivity.
  - destruct (JS.truthy_opt (Some (JStr id))); cbn [obind];
      [rewrite Hinvalid|]; reflexivity.
Qed.

(** C2, as amended: when the operation id is absent or normalizes to an
    invalid name, the tool is named after the lowercased method followed
    by the path in which every '/' has become '_' and the braces are
    dropped, normalized; when that candidate is invalid too, no tool is
    created and the operation adds nothing to the tool list. *)
Theorem fallback_tool_name (specVersion : option string)
  (path method : string) (fields : list (string * json)) (specData : json)
  (memo : Memo) :
  NamingSpec.unusable (JS.assoc "operationId" fields) ->
  let candidate := NamingSpec.synthesized NamingSpec.underscored method path in
  (isValidToolName candidate = true ->
     forall result memo',
       createToolFromOperation specVersion path method (JObj fields) specData
         memo = (Ret result, memo') ->
       exists tool, result = Some tool /\ OCPTool.name tool = candidate)
  /\ (isValidToolName candidate = false ->
        createToolFromOperation specVersion path method (JObj fields) specData
          memo = (Ret None, memo)
        /\ forall others tools,
             operations_loop specVersion path ((method, JObj fields) :: others)
               specData tools memo
             = operations_loop specVersion path others specData tools memo).
Proof.
  intros Hunusable candidate.
  pose proof (toolNameOf_fallback path method _ Hunusable) as Hname.
  fold candidate in Hname. unfold NamingSpec.chosen in Hname.
  assert (Hcreate :
    createToolFromOperation specVersion path method (JObj fields) specData
    = (toolName <- lift (toolNameOf path method (JS.assoc "operationId" fields)) ;;
       match toolName with
       | None => ret None
       | Some toolName =>
          summary <- lift (JSOps.get (JObj fields) "summary") ;;
          description0 <- lift (JSOps.get (JObj fields) "description") ;;
          let description :=
            JS.or_else summary
              (JS.or_else description0 (JStr "No description provided")) in
          tags0 <- lift (JSOps.get (JObj fields) "tags") ;;
          let tags := JS.or_else tags0 (JArr []) in
          parameters0 <- lift (JSOps.get (JObj fields) "parameters") ;;
          let paramList := JS.or_else parameters0 (JArr []) in
          parameters <- parseParameters paramList specData ;;
          parameters <-
            (if string_in (Str.toUpperCase method) ["POST"; "PUT"; "PATCH"]
             then
               if is_swagger_2 specVersion then
                 params <- lift (JSOps.iterate paramList) ;;
                 swagger2_body_loop params specData parameters
               else
                 requestBody <- lift (JSOps.get (JObj fields) "requestBody") ;;
                 match requestBody with
                 | Some rb =>
                     if JS.truthy rb then
                       bodyParams <- parseOpenApi3RequestBody rb specData ;;
                       ret (JS.assign parameters bodyParams)
                     else ret parameters
                 | None => ret parameters
                 end
             else ret parameters) ;;
          responses0 <- lift (JSOps.get (JObj fields) "responses") ;;
          responseSchema <-
            parseResponses specVersion (JS.or_else responses0 (JObj []))
              specData ;;
          ret (Some
                 (OCPTool.mk toolName description (Str.toUpperCase method) path
                    parameters responseSchema
                    (JS.assoc "operationId" fields) tags))
       end)%M) by reflexivity.
  split.
  - intros Hvalid result memo' Hrun.
    rewrite Hcreate in Hrun. rewrite Hname, Hvalid in Hrun.
    unfold bind at 1 in Hrun. cbn [lift] in Hrun.
    repeat bind_inv Hrun.
    unfold ret in Hrun. injection Hrun as <- <-.
    eexists. split; reflexivity.
  - intros Hinvalid.
    assert (Hnone :
      createToolFromOperation specVersion path method (JObj fields) specData
        memo = (Ret None, memo)).
    { rewrite Hcreate, Hname, Hinvalid. reflexivity. }
    split; [exact Hnone|].
    intros others tools. cbn [operations_loop].
    destruct (negb (string_in (Str.toLowerCase method) SUPPORTED_HTTP_METHODS));
      [reflexivity|].
    unfold bind at 1. now rewrite Hnone.
Qed.

(** C2, as stated, fails: the synthesized candidate keeps a word boundary
    where the path had a '/', so [GET /users] is named [getUsers], not the
    [getusers] that dropping the slashes would give. *)
Lemma fallback_name_slash_not_removed :
  fst (createToolFromOperation (Some "openapi_3.0") "/users" "GET" (JObj [])
         (JObj []) [])
  = Ret (Some (OCPTool.mk "getUsers" (JStr "No description provided") "GET"
                 "/users" [] None None (JArr [])))
  /\ NamingSpec.synthesized NamingSpec.removed "GET" "/users" = "getusers"
  /\ ~ (forall method path fields result memo',
          NamingSpec.unusable (JS.assoc "operationId" fields) ->
          createToolFromOperation (Some "openapi_3.0") path method
            (JObj fields) (JObj []) [] = (Ret (Some result), memo') ->
          OCPTool.name result
          = NamingSpec.synthesized NamingSpec.removed method path).
Proof.
  split; [reflexivity|]. split; [reflexivity|].
  intros Hclaim.
  specialize (Hclaim "GET" "/users" []
    (OCPTool.mk "getUsers" (JStr "No description provided") "GET"
       "/users" [] None None (JArr [])) []).
  cbv in Hclaim. 
  assert (Hfalse : "getUsers" = "getusers").
  { apply Hclaim; [left|]; reflexivity. }
  discriminate Hfalse.
Qed.

(* ================================================================== *)
(** * Response schema: properties *)

Lemma response_schema_of_spec specVersion response :
  JS.typeof_object response = true -> JS.is_null response = false ->
  response_schema_of specVersion response
  = Ret (let schema :=
           ResponseSpec.schema_at (is_swagger_2 specVersion) response in
         if JS.truthy_opt schema then schema else None).
Proof.
  intros Hobj Hnull. unfold response_schema_of, ResponseSpec.schema_at.
  destruct (is_swagger_2 specVersion).
  - destruct response as [| | | | l | ps]; try discriminate; reflexivity.
  - destruct response as [| | | | l | ps]; try discriminate.
    + reflexivity.
    + cbn [JSOps.get obind ResponseSpec.field].
      destruct (JS.assoc "content" ps) as [content|]; [|reflexivity].
      destruct content as [| b | n | s | l | qs]; try reflexivity.
      * destruct b; reflexivity.
      * cbn [JS.or_else JS.truthy].
        destruct (negb (n =? 0)%Z); reflexivity.
      * destruct s; reflexivity.
      * cbn [JS.or_else JS.truthy JSOps.get obind ResponseSpec.field].
        destruct (JS.assoc "application/json" qs) as [jc|]; [|reflexivity].
        destruct jc as [| b | n | s | l | rs]; try reflexivity.
        -- destruct b; reflexivity.
        -- cbn [JS.truthy]. destruct (negb (n =? 0)%Z); reflexivity.
        -- destruct s; reflexivity.
Qed.

Lemma parseResponses_loop_find specVersion entries specData memo :
  parseResponses_loop specVersion entries specData memo
  = match List.find (ResponseSpec.qualifies (is_swagger_2 specVersion)) entries with
    | Some (_, response) =>
        match ResponseSpec.schema_at (is_swagger_2 specVersion) response with
        | Some schema => resolved_response schema specData memo
        | None => (Ret None, memo)
        end
    | None => (Ret None, memo)
    end.
Proof.
  induction entries as [|[statusCode response] tl IH]; [reflexivity|].
  cbn [parseResponses_loop List.find]. unfold ResponseSpec.qualifies at 1.
  cbn [fst snd].
  destruct (Str.startsWith statusCode "2"); [|exact IH].
  destruct (JS.typeof_object response) eqn:Hobj; [|exact IH].
  destruct (JS.is_null response) eqn:Hnull; [exact IH|].
  cbn [andb negb].
  unfold bind at 1. unfold lift at 1.
  rewrite (response_schema_of_spec _ _ Hobj Hnull). cbv zeta.
  destruct (ResponseSpec.schema_at (is_swagger_2 specVersion) response)
    as [schema|] eqn:Hschema; cbn [JS.truthy_opt].
  - destruct (JS.truthy schema); [|exact IH].
    cbv iota beta. rewrite Hschema. reflexivity.
  - exact IH.
Qed.

(** C3, as amended: the entries of [responses] are scanned in the order
    [Object.entries] yields them; the scan stops at the first entry whose
    key starts with "2", whose response is an object and which carries a
    truthy schema at the place the version prescribes, and returns that
    schema resolved; when no entry qualifies there is no response schema
    and nothing is thrown, and the tool built from the operation has
    none. *)
Theorem parseResponses_first_qualifying (specVersion : option string)
  (responses : list (string * json)) (specData : json) (memo : Memo) :
  let swagger2 := is_swagger_2 specVersion in
  (forall statusCode response schema,
      List.find (ResponseSpec.qualifies swagger2) responses
      = Some (statusCode, response) ->
      ResponseSpec.schema_at swagger2 response = Some schema ->
      parseResponses specVersion (JObj responses) specData memo
      = resolved_response schema specData memo)
  /\ (List.find (ResponseSpec.qualifies swagger2) responses = None ->
      parseResponses specVersion (JObj responses) specData memo
      = (Ret None, memo)
      /\ forall path method fields tool memo',
           JS.assoc "responses" fields = Some (JObj responses) ->
           createToolFromOperation specVersion path method (JObj fields)
             specData memo = (Ret (Some tool), memo') ->
           OCPTool.response_schema tool = None).
Proof.
  intros swagger2.
  assert (Hrun : forall m,
    parseResponses specVersion (JObj responses) specData m
    = parseResponses_loop specVersion responses specData m) by reflexivity.
  split.
  - intros statusCode response schema Hfind Hschema.
    rewrite Hrun, parseResponses_loop_find. fold swagger2.
    now rewrite Hfind, Hschema.
  - intros Hfind.
    assert (Hnone : forall m,
      parseResponses specVersion (JObj responses) specData m = (Ret None, m)).
    { intros m. rewrite Hrun, parseResponses_loop_find. fold swagger2.
      now rewrite Hfind. }
    split; [apply Hnone|].
    intros path method fields tool memo' Hresp Hcreate.
    unfold createToolFromOperation in Hcreate.
    cbn [JS.truthy JS.typeof_object negb orb] in Hcreate.
    bind_inv Hcreate. bind_inv Hcreate.
    destruct a0 as [toolName|].
    2:{ unfold ret in Hcreate. discriminate. }
    repeat bind_inv Hcreate.
    unfold ret in Hcreate. injection Hcreate as <- <-.
    cbn [OCPTool.response_schema].
    match goal with
    | H : lift (JSOps.get (JObj fields) "responses") _ = _ |- _ =>
        apply lift_ret_inv in H as [Hget _];
        cbn [JSOps.get] in Hget; rewrite Hresp in Hget;
        injection Hget as <-
    end.
    match goal with
    | H : parseResponses _ _ _ _ = _ |- _ =>
        cbn [JS.or_else JS.truthy] in H; rewrite Hnone in H;
        now injection H as <- _
    end.
Qed.

(** C3, as stated, fails on both counts.  A first 2xx response without a
    schema does not end the scan: the schema of a later 2xx response is
    returned.  And the scan does not follow insertion order: status codes
    are array-index keys, which an object enumerates in ascending order
    whatever the order they were written in. *)
Lemma first_2xx_key_does_not_decide :
  (let inserted :=
     [("200", JObj [("description", JStr "done")]);
      ("201", JObj [("schema", string_schema)])] in
   JS.obj_of inserted = inserted
   /\ ResponseSpec.first_2xx_inserted true inserted = None
   /\ parseResponses (Some "swagger_2") (JObj (JS.obj_of inserted)) (JObj []) []
      = (Ret (Some string_schema), []))
  /\ (let inserted :=
        [("201", JObj [("schema", string_schema)]);
         ("200", JObj [("schema", integer_schema)])] in
      ResponseSpec.first_2xx_inserted true inserted = Some string_schema
      /\ parseResponses (Some "swagger_2") (JObj (JS.obj_of inserted))
           (JObj []) []
         = (Ret (Some integer_schema), [])).
Proof. repeat split. Qed.

(* ================================================================== *)
(** * Base URL: properties *)

Lemma obind_ret_inv {A B} (x : outcome A) (f : A -> outcome B) b :
  obind x f = Ret b -> exists a, x = Ret a /\ f a = Ret b.
Proof. destruct x; cbn; intros H; try discriminate. eauto. Qed.

Lemma get_of_truthy v k :
  JS.truthy v = true -> exists x, JSOps.get v k = Ret x.
Proof.
  destruct v as [| b | n | s | l | ps]; cbn [JS.truthy JSOps.get];
    try discriminate; intros _; eauto.
  - destruct (String.eqb k "length"); eauto.
    destruct (Str.array_index k); eauto.
  - destruct (String.eqb k "length"); eauto.
    destruct (Str.array_index k); eauto.
Qed.

Lemma or_else_truthy a d : JS.truthy d = true -> JS.truthy (JS.or_else a d) = true.
Proof.
  intros Hd. unfold JS.or_else. destruct a as [x|]; [|exact Hd].
  destruct (JS.truthy x) eqn:Hx; assumption.
Qed.


Section BaseUrlFacts.
Variable string_positive : string -> bool.



End BaseUrlFacts.



Example swagger2_base_url :
  obind
    (parse (fun _ => false)
       (JObj [("swagger", JStr "2.0"); ("host", JStr "api.example.com");
              ("basePath", JStr "/v1"); ("schemes", JArr [JStr "https"])])
       None None None)
    (fun api => Ret (OCPAPISpec.base_url api))
  = Ret (JStr "https://api.example.com/v1").
Proof. reflexivity. Qed.

(* ================================================================== *)
(** * Structure of documents *)

Lemma depth_pos j : 1 <= depth j.
Proof. destruct j; cbn; lia. Qed.

Lemma depth_item l x : In x l -> depth x < depth (JArr l).
Proof.
  cbn [depth]. induction l as [|y l IH]; [contradiction|].
  intros [-> | Hin]; cbn [fold_right]; [lia|].
  specialize (IH Hin). lia.
Qed.

Lemma depth_member ps k v : In (k, v) ps -> depth v < depth (JObj ps).
Proof.
  cbn [depth]. induction ps as [|[k' v'] ps IH]; [contradiction|].
  intros [Heq | Hin]; cbn [fold_right snd].
  - injection Heq as -> ->. lia.
  - specialize (IH Hin). lia.
Qed.

Lemma strings_item l x : In x l -> incl (strings_of x) (strings_of (JArr l)).
Proof.
  intros Hin s Hs. cbn [strings_of]. apply in_flat_map. eauto.
Qed.

Lemma strings_member ps k v :
  In (k, v) ps -> incl (strings_of v) (strings_of (JObj ps)).
Proof.
  intros Hin s Hs. cbn [strings_of]. apply in_flat_map.
  exists (k, v). auto.
Qed.

Lemma assoc_In k ps v : JS.assoc k ps = Some v -> In (k, v) ps.
Proof.
  induction ps as [|[k' v'] ps IH]; [discriminate|].
  cbn [JS.assoc]. destruct (String.eqb k k') eqn:E.
  - apply String.eqb_eq in E. subst. intros H. injection H as ->. now left.
  - intros H. right. auto.
Qed.

Lemma inside_member ps k v : In (k, v) ps -> inside v (JObj ps).
Proof. split; eauto using depth_member, strings_member. Qed.

Lemma inside_item l x : In x l -> inside x (JArr l).
Proof. split; eauto using depth_item, strings_item. Qed.

Lemma inside_trans a b c : inside a b -> inside b c -> inside a c.
Proof.
  intros [Hd1 Hs1] [Hd2 Hs2]. split; [lia|].
  eapply incl_tran; eassumption.
Qed.

Lemma inside_branch ps kw items x :
  JS.assoc kw ps = Some (JArr items) -> In x items -> inside x (JObj ps).
Proof.
  intros Hassoc Hin. eapply inside_trans.
  - apply inside_item. eassumption.
  - eapply inside_member. apply assoc_In. eassumption.
Qed.

(** What a pointer reaches is part of the document (or the length of one
    of its arrays). *)
Lemma navigate_within parts : forall current,
  depth (navigate current parts) <= depth current
  /\ incl (strings_of (navigate current parts)) (strings_of current).
Proof.
  induction parts as [|part rest IH]; intros current.
  - cbn [navigate]. split; [lia | apply incl_refl].
  - assert (Hnull : depth JNull <= depth current
                    /\ incl (strings_of JNull) (strings_of current)).
    { split; [apply depth_pos | intros s []]. }
    cbn [navigate]. destruct current as [| b | n | s | l | ps]; try exact Hnull.
    + destruct (JSOps.has part (JArr l)) as [[|] | |]; try exact Hnull.
      cbn [JSOps.get].
      destruct (String.eqb part "length").
      * destruct (IH (JNum (Z.of_nat (List.length l)))) as [Hd Hs].
        split.
        -- cbn [depth] in *. lia.
        -- intros s Hin. apply Hs in Hin. destruct Hin.
      * destruct (Str.array_index part) as [i|]; [|exact Hnull].
        destruct (JS.nth_N l i) as [v|] eqn:Hnth; [|exact Hnull].
        apply nth_error_In in Hnth.
        destruct (IH v) as [Hd Hs]. destruct (inside_item _ _ Hnth) as [Hd' Hs'].
        split; [lia | eapply incl_tran; eassumption].
    + destruct (JS.assoc part ps) as [v|] eqn:Hassoc; [|exact Hnull].
      apply assoc_In in Hassoc.
      destruct (IH v) as [Hd Hs].
      destruct (inside_member _ _ _ Hassoc) as [Hd' Hs'].
      split; [lia | eapply incl_tran; eassumption].
Qed.

Lemma lookupRef_within root refPath :
  depth (lookupRef root refPath) <= depth root
  /\ incl (strings_of (lookupRef root refPath)) (strings_of root).
Proof.
  unfold lookupRef. destruct (negb (Str.startsWith refPath "#/")).
  - split; [apply depth_pos | intros s []].
  - apply navigate_within.
Qed.

(* ================================================================== *)
(** * More fuel changes nothing *)

Lemma refines_refl {A} (c : M A) : refines c c.
Proof. intros memo r memo' H _. exact H. Qed.

Lemma refines_bind {A B} (c c' : M A) (k k' : A -> M B) :
  refines c c' -> (forall a, refines (k a) (k' a)) ->
  refines (bind c k) (bind c' k').
Proof.
  intros Hc Hk memo r memo' Hrun Hnd. unfold bind in *.
  destruct (c memo) as [[a | e |] memo1] eqn:Hcm.
  - rewrite (Hc _ _ _ Hcm) by discriminate. now apply Hk.
  - rewrite (Hc _ _ _ Hcm) by discriminate. exact Hrun.
  - injection Hrun as <- <-. contradiction.
Qed.

Lemma refines_mapM {A B} (f f' : A -> M B) l :
  (forall x, refines (f x) (f' x)) -> refines (mapM f l) (mapM f' l).
Proof.
  intros Hf. induction l as [|x l IH]; [apply refines_refl|].
  cbn [mapM]. apply refines_bind; [apply Hf|]. intros y.
  apply refines_bind; [exact IH|]. intros ys. apply refines_refl.
Qed.

Lemma refines_resolve_props (f f' : json -> M json) keep entries :
  (forall x, refines (f x) (f' x)) ->
  forall result,
    refines (resolve_props f keep entries result)
            (resolve_props f' keep entries result).
Proof.
  intros Hf. induction entries as [|[k v] tl IH]; intros result.
  - apply refines_refl.
  - cbn [resolve_props]. destruct (keep k); [|apply IH].
    apply refines_bind; [apply Hf|]. intros v'. apply IH.
Qed.

Lemma refines_composition (b b' o o' : json -> M json) kw props :
  (forall x, refines (b x) (b' x)) -> (forall x, refines (o x) (o' x)) ->
  refines (composition b o kw props) (composition b' o' kw props).
Proof.
  intros Hb Ho. unfold composition.
  destruct (JS.assoc kw props) as [[| | | | items |]|]; try apply refines_refl.
  apply refines_bind; [now apply refines_mapM|]. intros mapped.
  apply refines_bind; [now apply refines_resolve_props|]. intros result.
  apply refines_refl.
Qed.

Lemma refines_resolve_pointer rec rec' root obj refPath stack flag :
  resolver_refines rec rec' ->
  refines (fun m => resolve_pointer rec root obj refPath stack m flag)
          (fun m => resolve_pointer rec' root obj refPath stack m flag).
Proof.
  intros Hrec memo r memo' Hrun Hnd. unfold resolve_pointer in *.
  destruct (negb (Str.startsWith refPath "#/")); [exact Hrun|].
  destruct (flag && keep_polymorphic_ref root refPath); [exact Hrun|].
  destruct (JS.assoc refPath memo); [exact Hrun|].
  destruct (in_stack refPath stack); [exact Hrun|].
  destruct (lookupRef root refPath) as [| b | n | s | l | ps] eqn:Hlook;
    [exact Hrun | | | | |];
    match type of Hrun with
    | context [rec ?t ?st memo flag] =>
        destruct (rec t st memo flag) as [[x | e |] memo1] eqn:Hcall;
        [ rewrite (Hrec _ _ _ _ _ _ Hcall) by discriminate; exact Hrun
        | rewrite (Hrec _ _ _ _ _ _ Hcall) by discriminate; exact Hrun
        | injection Hrun as <- <-; contradiction ]
    end.
Qed.

Lemma refines_resolve_node rec rec' root obj stack flag :
  resolver_refines rec rec' ->
  refines (fun m => resolve_node rec root obj stack m flag)
          (fun m => resolve_node rec' root obj stack m flag).
Proof.
  intros Hrec. unfold resolve_node.
  assert (Hcall : forall fl x,
    refines (fun m => rec x stack m fl) (fun m => rec' x stack m fl))
    by (intros; apply Hrec).
  destruct obj as [| b | n | s | items | props]; try apply refines_refl.
  - apply refines_bind; [apply refines_mapM; intros; apply Hcall|].
    intros; apply refines_refl.
  - destruct (JS.has_key "anyOf" props);
      [apply refines_composition; intros; apply Hcall|].
    destruct (JS.has_key "oneOf" props);
      [apply refines_composition; intros; apply Hcall|].
    destruct (JS.has_key "allOf" props);
      [apply refines_composition; intros; apply Hcall|].
    destruct (JS.has_key "$ref" props && (List.length props =? 1)).
    + destruct (JS.assoc "$ref" props) as [[| | | refPath | |]|];
        try apply refines_refl.
      now apply refines_resolve_pointer.
    + apply refines_bind; [apply refines_resolve_props; intros; apply Hcall|].
      intros; apply refines_refl.
Qed.

Lemma resolveRefs_fuel_step fuel root :
  resolver_refines (resolveRefs_fuel fuel root) (resolveRefs_fuel (S fuel) root).
Proof.
  induction fuel as [|fuel IH]; intros o stack flag.
  - intros memo r memo' Hrun Hnd. cbn in Hrun. injection Hrun as <- _.
    contradiction.
  - change (resolveRefs_fuel (S (S fuel)) root)
      with (resolve_node (resolveRefs_fuel (S fuel) root) root).
    change (resolveRefs_fuel (S fuel) root)
      with (resolve_node (resolveRefs_fuel fuel root) root) at 1.
    now apply refines_resolve_node.
Qed.

Lemma resolveRefs_fuel_mono fuel fuel' root :
  fuel <= fuel' ->
  resolver_refines (resolveRefs_fuel fuel root) (resolveRefs_fuel fuel' root).
Proof.
  induction 1 as [|fuel' Hle IH]; intros o stack flag.
  - apply refines_refl.
  - intros memo r memo' Hrun Hnd.
    apply (resolveRefs_fuel_step fuel' root); [|exact Hnd].
    now apply IH.
Qed.

(* ================================================================== *)
(** * Termination of the resolver *)

Lemma terminates_ret {A} (a : A) : terminates (ret a).
Proof. intros memo. discriminate. Qed.

Lemma terminates_throw {A} e : terminates (throw (A := A) e).
Proof. intros memo. discriminate. Qed.

Lemma terminates_bind {A B} (c : M A) (k : A -> M B) :
  terminates c -> (forall a, terminates (k a)) -> terminates (bind c k).
Proof.
  intros Hc Hk memo. unfold bind. specialize (Hc memo).
  destruct (c memo) as [[a | e |] memo1]; cbn [fst] in *.
  - apply Hk.
  - discriminate.
  - contradiction.
Qed.

Lemma terminates_mapM {A B} (f : A -> M B) l :
  (forall x, In x l -> terminates (f x)) -> terminates (mapM f l).
Proof.
  induction l as [|x l IH]; intros Hf; [apply terminates_ret|].
  cbn [mapM]. apply terminates_bind; [apply Hf; now left|]. intros y.
  apply terminates_bind; [apply IH; intros; apply Hf; now right|].
  intros ys. apply terminates_ret.
Qed.

Lemma terminates_resolve_props (f : json -> M json) keep entries :
  (forall k v, In (k, v) entries -> terminates (f v)) ->
  forall result, terminates (resolve_props f keep entries result).
Proof.
  induction entries as [|[k v] tl IH]; intros Hf result;
    [apply terminates_ret|].
  assert (Htl : forall result', terminates (resolve_props f keep tl result')).
  { apply IH. intros k' v' Hin. apply (Hf k'). now right. }
  cbn [resolve_props]. destruct (keep k); [|apply Htl].
  apply terminates_bind; [apply (Hf k); now left|]. intros v'. apply Htl.
Qed.

Lemma terminates_composition (b o : json -> M json) kw props :
  (forall items x, JS.assoc kw props = Some (JArr items) -> In x items ->
                   terminates (b x)) ->
  (forall k v, In (k, v) props -> terminates (o v)) ->
  terminates (composition b o kw props).
Proof.
  intros Hb Ho. unfold composition.
  destruct (JS.assoc kw props) as [[| | | | items |]|] eqn:Hkw;
    try apply terminates_throw.
  apply terminates_bind; [apply terminates_mapM; eauto|]. intros mapped.
  apply terminates_bind; [now apply terminates_resolve_props|].
  intros result. apply terminates_ret.
Qed.

Lemma terminates_resolve_pointer rec root obj refPath stack flag :
  (in_stack refPath stack = false ->
   terminates (fun m => rec (lookupRef root refPath) (stack ++ [refPath]) m flag)) ->
  terminates (fun m => resolve_pointer rec root obj refPath stack m flag).
Proof.
  intros Hrec memo. unfold resolve_pointer.
  destruct (negb (Str.startsWith refPath "#/")); [discriminate|].
  destruct (flag && keep_polymorphic_ref root refPath); [discriminate|].
  destruct (JS.assoc refPath memo); [discriminate|].
  destruct (in_stack refPath stack); [discriminate|].
  specialize (Hrec eq_refl memo).
  destruct (lookupRef root refPath) as [| b | n | s | l | ps];
    [discriminate | | | | |];
    match goal with
    | |- context [rec ?t ?st memo flag] =>
        destruct (rec t st memo flag) as [[x | e |] memo1];
        cbn [fst] in *; [discriminate | discriminate | contradiction]
    end.
Qed.

Lemma terminates_resolve_node rec root obj stack flag :
  (forall o fl, inside o obj -> terminates (fun m => rec o stack m fl)) ->
  (forall p, In p (strings_of obj) -> in_stack p stack = false ->
     terminates (fun m => rec (lookupRef root p) (stack ++ [p]) m flag)) ->
  terminates (fun m => resolve_node rec root obj stack m flag).
Proof.
  intros Hin Hptr. unfold resolve_node.
  destruct obj as [| b | n | s | items | props]; try (intros memo; discriminate).
  - apply terminates_bind; [|intros; apply terminates_ret].
    apply terminates_mapM. intros x Hx. apply Hin. now apply inside_item.
  - assert (Hcomp : forall kw,
      terminates (composition (fun o m => rec o stack m true)
                    (fun o m => rec o stack m flag) kw props)).
    { intros kw. apply terminates_composition.
      - intros items x Hkw Hx. apply Hin. eapply inside_branch; eassumption.
      - intros k v Hkv. apply Hin. eapply inside_member; eassumption. }
    destruct (JS.has_key "anyOf" props); [apply Hcomp|].
    destruct (JS.has_key "oneOf" props); [apply Hcomp|].
    destruct (JS.has_key "allOf" props); [apply Hcomp|].
    destruct (JS.has_key "$ref" props && (List.length props =? 1)).
    + destruct (JS.assoc "$ref" props) as [[| | | refPath | |]|] eqn:Href;
        try (intros memo; discriminate).
      apply terminates_resolve_pointer. apply Hptr.
      apply assoc_In in Href.
      apply (strings_member _ _ _ Href). now left.
    + apply terminates_bind; [|intros; apply terminates_ret].
      apply terminates_resolve_props. intros k v Hkv.
      apply Hin. eapply inside_member; eassumption.
Qed.

Lemma in_stack_push p q stack :
  in_stack p (stack ++ [q]) = in_stack p stack || String.eqb p q.
Proof.
  unfold in_stack. rewrite existsb_app. cbn [existsb]. now rewrite orb_false_r.
Qed.

Lemma pending_push_le candidates stack p :
  pending candidates (stack ++ [p]) <= pending candidates stack.
Proof.
  unfold pending. induction candidates as [|c cs IH]; [reflexivity|].
  cbn [List.filter]. rewrite in_stack_push.
  destruct (in_stack c stack); cbn [orb negb]; [exact IH|].
  destruct (String.eqb c p); cbn [negb List.length]; lia.
Qed.

Lemma pending_push_lt candidates stack p :
  In p candidates -> in_stack p stack = false ->
  pending candidates (stack ++ [p]) < pending candidates stack.
Proof.
  intros Hin Hfresh. unfold pending.
  induction candidates as [|c cs IH]; [contradiction|].
  pose proof (pending_push_le cs stack p) as Hle. unfold pending in Hle.
  cbn [List.filter]. rewrite in_stack_push.
  destruct Hin as [-> | Hin].
  - rewrite Hfresh, String.eqb_refl. cbn [orb negb List.length]. lia.
  - specialize (IH Hin).
    destruct (in_stack c stack); cbn [orb negb]; [exact IH|].
    destruct (String.eqb c p); cbn [negb List.length]; lia.
Qed.

Section Termination.
Variable root : json.
Variable candidates : list string.
Hypothesis root_candidates : incl (strings_of root) candidates.

Lemma resolveRefs_fuel_terminates : forall fuel obj stack flag,
  incl (strings_of obj) candidates ->
  depth obj + pending candidates stack * S (depth root) <= fuel ->
  terminates (fun m => resolveRefs_fuel fuel root obj stack m flag).
Proof.
  induction fuel as [|fuel IH]; intros obj stack flag Hobj Hfuel.
  - pose proof (depth_pos obj). lia.
  - change (resolveRefs_fuel (S fuel) root)
      with (resolve_node (resolveRefs_fuel fuel root) root).
    apply terminates_resolve_node.
    + intros o fl [Hdepth Hstrings]. apply IH.
      * eapply incl_tran; eassumption.
      * lia.
    + intros p Hp Hfresh.
      destruct (lookupRef_within root p) as [Hdepth Hstrings].
      apply IH.
      * eapply incl_tran; eassumption.
      * pose proof (pending_push_lt candidates stack p (Hobj _ Hp) Hfresh)
          as Hlt.
        pose proof (depth_pos obj) as Hpos.
        assert (Hmul :
          pending candidates (stack ++ [p]) * S (depth root)
          + S (depth root)
          <= pending candidates stack * S (depth root)).
        { replace (pending candidates (stack ++ [p]) * S (depth root)
                   + S (depth root))
            with (S (pending candidates (stack ++ [p])) * S (depth root))
            by (cbn [Nat.mul]; lia).
          apply Nat.mul_le_mono_r. lia. }
        lia.
Qed.
End Termination.

Lemma resolve_fuel_enough obj root stack flag :
  terminates
    (fun m => resolveRefs_fuel (resolve_fuel obj root stack) root obj stack m flag).
Proof.
  apply (resolveRefs_fuel_terminates root (strings_of root ++ strings_of obj)).
  - apply incl_appl, incl_refl.
  - apply incl_appr, incl_refl.
  - unfold resolve_fuel. lia.
Qed.

(** A run of the fuelled resolver that comes to an end is the run of
    [resolveRefs]. *)
Lemma resolveRefs_of_fuel fuel obj root stack memo flag r memo' :
  resolveRefs_fuel fuel root obj stack memo flag = (r, memo') ->
  r <> Diverge ->
  resolveRefs obj (Some root) stack memo flag = (r, memo').
Proof.
  intros Hrun Hnd. unfold resolveRefs.
  destruct (Nat.le_ge_cases fuel (resolve_fuel obj root stack)) as [Hle | Hge].
  - now apply (resolveRefs_fuel_mono _ _ root Hle obj stack flag memo).
  - pose proof (resolve_fuel_enough obj root stack flag memo) as Hend.
    destruct (resolveRefs_fuel (resolve_fuel obj root stack) root obj stack
                memo flag) as [r0 memo0] eqn:Hbound.
    cbn [fst] in Hend.
    pose proof (resolveRefs_fuel_mono _ _ root Hge obj stack flag memo
                  _ _ Hbound Hend) as Hsame.
    congruence.
Qed.

(** On a pure [$ref] node the body is the pointer branch. *)
Lemma resolve_node_ref rec root refPath stack memo flag :
  resolve_node rec root (ref_node refPath) stack memo flag
  = resolve_pointer rec root (ref_node refPath) refPath stack memo flag.
Proof. reflexivity. Qed.

(** C4: reference resolution terminates on every document, cyclic or
    not.  The fuel computed from the document is never exhausted, any
    larger amount gives the same answer, and a pointer that is already on
    the resolution stack is answered without a recursive call. *)
Theorem resolveRefs_terminates (obj : json) (given_root : option json)
  (stack : list string) (memo : Memo) (insidePolymorphic : bool) :
  let root := match given_root with Some r => r | None => obj end in
  fst (resolveRefs obj given_root stack memo insidePolymorphic) <> Diverge
  /\ (forall fuel,
        resolve_fuel obj root stack <= fuel ->
        resolveRefs_fuel fuel root obj stack memo insidePolymorphic
        = resolveRefs obj given_root stack memo insidePolymorphic)
  /\ (forall refPath,
        in_stack refPath stack = true ->
        fst (resolveRefs_fuel 1 root (ref_node refPath) stack memo
               insidePolymorphic) <> Diverge).
Proof.
  intros root.
  change (resolveRefs obj given_root stack memo insidePolymorphic)
    with (resolveRefs obj (Some root) stack memo insidePolymorphic).
  split; [apply resolve_fuel_enough|]. split.
  - intros fuel Hfuel. unfold resolveRefs.
    pose proof (resolve_fuel_enough obj root stack insidePolymorphic memo)
      as Hend.
    destruct (resolveRefs_fuel (resolve_fuel obj root stack) root obj stack
                memo insidePolymorphic) as [r0 memo0] eqn:Hbound.
    cbn [fst] in Hend.
    exact (resolveRefs_fuel_mono _ _ root Hfuel obj stack insidePolymorphic
             memo _ _ Hbound Hend).
  - intros refPath Hon.
    change (resolveRefs_fuel 1 root)
      with (resolve_node (resolveRefs_fuel 0 root) root).
    rewrite resolve_node_ref.
    apply (terminates_resolve_pointer (resolveRefs_fuel 0 root)).
    intros Hfresh. congruence.
Qed.

(* ================================================================== *)
(** * Writing to an object *)

Lemma assoc_replace_key q p v ps :
  JS.has_key p ps = true ->
  JS.assoc q (JS.replace_key p v ps)
  = if String.eqb q p then Some v else JS.assoc q ps.
Proof.
  unfold JS.has_key. induction ps as [|[k x] ps IH]; [discriminate|].
  cbn [JS.assoc JS.replace_key]. destruct (String.eqb p k) eqn:Hpk.
  - apply String.eqb_eq in Hpk. subst k. intros _. cbn [JS.assoc].
    destruct (String.eqb q p); reflexivity.
  - intros Hin. cbn [JS.assoc]. destruct (String.eqb q k) eqn:Hqk.
    + apply String.eqb_eq in Hqk. subst k.
      rewrite String.eqb_sym in Hpk. now rewrite Hpk.
    + now apply IH.
Qed.

Lemma assoc_insert_index q i p v ps :
  JS.has_key p ps = false ->
  JS.assoc q (JS.insert_index i p v ps)
  = if String.eqb q p then Some v else JS.assoc q ps.
Proof.
  unfold JS.has_key. induction ps as [|[k x] ps IH]; intros Hfresh.
  - cbn [JS.insert_index JS.assoc]. destruct (String.eqb q p); reflexivity.
  - cbn [JS.assoc] in Hfresh. destruct (String.eqb p k) eqn:Hpk;
      [discriminate|].
    assert (Hhere : JS.assoc q ((p, v) :: (k, x) :: ps)
                    = if String.eqb q p then Some v
                      else JS.assoc q ((k, x) :: ps))
      by (cbn [JS.assoc]; destruct (String.eqb q p); reflexivity).
    cbn [JS.insert_index].
    destruct (Str.array_index k) as [j|]; [|exact Hhere].
    destruct (j <? i)%N; [|exact Hhere].
    cbn [JS.assoc]. rewrite (IH Hfresh).
    destruct (String.eqb q k) eqn:Hqk; [|reflexivity].
    apply String.eqb_eq in Hqk. subst k.
    rewrite String.eqb_sym in Hpk. now rewrite Hpk.
Qed.

Lemma assoc_app_last q p v ps :
  JS.has_key p ps = false ->
  JS.assoc q (ps ++ [(p, v)])
  = if String.eqb q p then Some v else JS.assoc q ps.
Proof.
  unfold JS.has_key. induction ps as [|[k x] ps IH]; intros Hfresh.
  - cbn [app JS.assoc]. destruct (String.eqb q p); reflexivity.
  - cbn [JS.assoc] in Hfresh. destruct (String.eqb p k) eqn:Hpk;
      [discriminate|].
    cbn [app JS.assoc]. rewrite (IH Hfresh).
    destruct (String.eqb q k) eqn:Hqk; [|reflexivity].
    apply String.eqb_eq in Hqk. subst k.
    rewrite String.eqb_sym in Hpk. now rewrite Hpk.
Qed.

(** Reading back a written object. *)
Lemma assoc_set q p v ps :
  JS.assoc q (JS.set ps p v)
  = if String.eqb q p then Some v else JS.assoc q ps.
Proof.
  unfold JS.set. destruct (JS.has_key p ps) eqn:Hp.
  - now apply assoc_replace_key.
  - destruct (Str.array_index p).
    + now apply assoc_insert_index.
    + now apply assoc_app_last.
Qed.

Lemma has_key_set q p v ps :
  JS.has_key q (JS.set ps p v) = String.eqb q p || JS.has_key q ps.
Proof.
  unfold JS.has_key at 1. rewrite assoc_set.
  destruct (String.eqb q p); reflexivity.
Qed.

(* ================================================================== *)
(** * The cache only holds pointers that have a target *)

Lemma memo_sound_empty root : memo_sound root [].
Proof. intros p H. discriminate. Qed.

Lemma stack_sound_empty root : stack_sound root [].
Proof. intros p H. discriminate. Qed.

Lemma memo_sound_set root memo p v :
  memo_sound root memo -> lookupRef root p <> JNull ->
  memo_sound root (JS.set memo p v).
Proof.
  intros Hmemo Hp q Hq. rewrite has_key_set in Hq.
  destruct (String.eqb q p) eqn:Hqp.
  - apply String.eqb_eq in Hqp. now subst.
  - now apply Hmemo.
Qed.

Lemma stack_sound_push root stack p :
  stack_sound root stack -> lookupRef root p <> JNull ->
  stack_sound root (stack ++ [p]).
Proof.
  intros Hstack Hp q Hq. rewrite in_stack_push in Hq.
  destruct (in_stack q stack) eqn:Hin; [now apply Hstack|].
  cbn [orb] in Hq. apply String.eqb_eq in Hq. now subst.
Qed.

Section Preservation.
Variable I : Memo -> Prop.

Lemma preserves_ret {A} (a : A) : preserves I (ret a).
Proof. intros memo r memo' HI H. now injection H as _ <-. Qed.

Lemma preserves_throw {A} e : preserves I (throw (A := A) e).
Proof. intros memo r memo' HI H. now injection H as _ <-. Qed.

Lemma preserves_bind {A B} (c : M A) (k : A -> M B) :
  preserves I c -> (forall a, preserves I (k a)) -> preserves I (bind c k).
Proof.
  intros Hc Hk memo r memo' HI Hrun. unfold bind in Hrun.
  destruct (c memo) as [[a | e |] memo1] eqn:Hcm;
    pose proof (Hc _ _ _ HI Hcm) as HI1.
  - exact (Hk a _ _ _ HI1 Hrun).
  - now injection Hrun as _ <-.
  - now injection Hrun as _ <-.
Qed.

Lemma preserves_mapM {A B} (f : A -> M B) l :
  (forall x, preserves I (f x)) -> preserves I (mapM f l).
Proof.
  intros Hf. induction l as [|x l IH]; [apply preserves_ret|].
  cbn [mapM]. apply preserves_bind; [apply Hf|]. intros y.
  apply preserves_bind; [exact IH|]. intros ys. apply preserves_ret.
Qed.

Lemma preserves_resolve_props (f : json -> M json) keep entries :
  (forall x, preserves I (f x)) ->
  forall result, preserves I (resolve_props f keep entries result).
Proof.
  intros Hf. induction entries as [|[k v] tl IH]; intros result;
    [apply preserves_ret|].
  cbn [resolve_props]. destruct (keep k); [|apply IH].
  apply preserves_bind; [apply Hf|]. intros v'. apply IH.
Qed.

Lemma preserves_composition (b o : json -> M json) kw props :
  (forall x, preserves I (b x)) -> (forall x, preserves I (o x)) ->
  preserves I (composition b o kw props).
Proof.
  intros Hb Ho. unfold composition.
  destruct (JS.assoc kw props) as [[| | | | items |]|];
    try apply preserves_throw.
  apply preserves_bind; [now apply preserves_mapM|]. intros mapped.
  apply preserves_bind; [now apply preserves_resolve_props|].
  intros result. apply preserves_ret.
Qed.
End Preservation.

Section CacheInvariant.
Variable root : json.

Lemma resolve_pointer_sound rec obj refPath stack flag :
  resolver_sound root rec -> stack_sound root stack ->
  preserves (memo_sound root)
    (fun m => resolve_pointer rec root obj refPath stack m flag).
Proof.
  intros Hrec Hstack memo r memo' Hmemo Hrun. unfold resolve_pointer in Hrun.
  destruct (negb (Str.startsWith refPath "#/"));
    [now injection Hrun as _ <-|].
  destruct (flag && keep_polymorphic_ref root refPath);
    [now injection Hrun as _ <-|].
  destruct (JS.assoc refPath memo); [now injection Hrun as _ <-|].
  destruct (in_stack refPath stack) eqn:Hon.
  { injection Hrun as _ <-. apply memo_sound_set; auto. }
  assert (Hcall : forall t, lookupRef root refPath = t -> t <> JNull ->
    match rec t (stack ++ [refPath]) memo flag with
    | (Ret resolvedObj, memo1) =>
        (Ret resolvedObj, JS.set memo1 refPath resolvedObj)
    | (Throw _, memo1) =>
        (Ret unresolved_placeholder,
         JS.set memo1 refPath unresolved_placeholder)
    | (Diverge, memo1) => (Diverge, memo1)
    end = (r, memo') -> memo_sound root memo').
  { intros t Ht Hnn Hmatch.
    assert (Htarget : lookupRef root refPath <> JNull) by congruence.
    pose proof (Hrec t (stack ++ [refPath]) flag
                  (stack_sound_push _ _ _ Hstack Htarget)) as Hpres.
    destruct (rec t (stack ++ [refPath]) memo flag) as [[x | e |] memo1]
      eqn:Hrect;
      pose proof (Hpres _ _ _ Hmemo Hrect) as Hmemo1;
      injection Hmatch as _ <-; auto using memo_sound_set. }
  destruct (lookupRef root refPath) as [| b | n | s | l | ps] eqn:Hlook;
    [now injection Hrun as _ <- | | | | |];
    (eapply Hcall; [reflexivity | discriminate | exact Hrun]).
Qed.

Lemma resolve_node_sound rec obj stack flag :
  resolver_sound root rec -> stack_sound root stack ->
  preserves (memo_sound root)
    (fun m => resolve_node rec root obj stack m flag).
Proof.
  intros Hrec Hstack. unfold resolve_node.
  assert (Hcall : forall fl x,
    preserves (memo_sound root) (fun m => rec x stack m fl))
    by (intros; now apply Hrec).
  destruct obj as [| b | n | s | items | props];
    try (intros memo r memo' HI H; now injection H as _ <-).
  - apply preserves_bind; [apply preserves_mapM; intros; apply Hcall|].
    intros; apply preserves_ret.
  - destruct (JS.has_key "anyOf" props);
      [apply preserves_composition; intros; apply Hcall|].
    destruct (JS.has_key "oneOf" props);
      [apply preserves_composition; intros; apply Hcall|].
    destruct (JS.has_key "allOf" props);
      [apply preserves_composition; intros; apply Hcall|].
    destruct (JS.has_key "$ref" props && (List.length props =? 1)).
    + destruct (JS.assoc "$ref" props) as [[| | | refPath | |]|];
        try (intros memo r memo' HI H; now injection H as _ <-).
      now apply resolve_pointer_sound.
    + apply preserves_bind;
        [apply preserves_resolve_props; intros; apply Hcall|].
      intros; apply preserves_ret.
Qed.

Lemma resolveRefs_fuel_sound fuel :
  resolver_sound root (resolveRefs_fuel fuel root).
Proof.
  induction fuel as [|fuel IH]; intros o stack flag Hstack.
  - intros memo r memo' HI H. now injection H as _ <-.
  - change (resolveRefs_fuel (S fuel) root)
      with (resolve_node (resolveRefs_fuel fuel root) root).
    now apply resolve_node_sound.
Qed.

(** Every cached pointer has a target: the invariant holds of the empty
    cache a parse starts from and is kept by every resolution. *)
Lemma resolveRefs_sound obj stack memo flag r memo' :
  stack_sound root stack -> memo_sound root memo ->
  resolveRefs obj (Some root) stack memo flag = (r, memo') ->
  memo_sound root memo'.
Proof.
  intros Hstack Hmemo Hrun. unfold resolveRefs in Hrun.
  exact (resolveRefs_fuel_sound _ obj stack flag Hstack _ _ _ Hmemo Hrun).
Qed.
End CacheInvariant.

(* ================================================================== *)
(** * The cache stays sound throughout a parse *)

Section ParseInvariant.
Variable root : json.
Variable specVersion : option string.

Lemma preserves_lift {A} (I : Memo -> Prop) (o : outcome A) :
  preserves I (lift o).
Proof. intros memo r memo' HI H. now injection H as _ <-. Qed.

Lemma preserves_top_level_resolve schema :
  preserves (memo_sound root)
    (fun memo => resolveRefs schema (Some root) [] memo false).
Proof.
  intros memo r memo' Hmemo Hrun.
  exact (resolveRefs_sound root schema [] memo false r memo'
           (stack_sound_empty root) Hmemo Hrun).
Qed.

(** Split a computation of the parser into its binds and branches. *)
Ltac preserves_steps :=
  repeat first
    [ apply preserves_ret
    | apply preserves_lift
    | apply preserves_top_level_resolve
    | apply preserves_bind; [|intros]
    | match goal with
      | |- preserves _ (if ?c then _ else _) => destruct c
      | |- preserves _ (match ?x with _ => _ end) => destruct x
      end ].

Lemma parseParameter_sound param result :
  preserves (memo_sound root) (parseParameter param root result).
Proof. unfold parseParameter. preserves_steps. Qed.

Lemma parseParameters_sound parameters :
  preserves (memo_sound root) (parseParameters parameters root).
Proof.
  unfold parseParameters. apply preserves_bind; [apply preserves_lift|].
  intros params. generalize (@nil (string * json)).
  induction params as [|param tl IH]; intros result; cbn [parseParameters_loop].
  - apply preserves_ret.
  - apply preserves_bind; [apply parseParameter_sound | intros; apply IH].
Qed.

Lemma parseOpenApi3RequestBody_sound requestBody :
  preserves (memo_sound root) (parseOpenApi3RequestBody requestBody root).
Proof. unfold parseOpenApi3RequestBody. preserves_steps. Qed.

Lemma parseSwagger2BodyParameter_sound param :
  preserves (memo_sound root) (parseSwagger2BodyParameter param root).
Proof. unfold parseSwagger2BodyParameter. preserves_steps. Qed.

Lemma swagger2_body_loop_sound params : forall parameters,
  preserves (memo_sound root) (swagger2_body_loop params root parameters).
Proof.
  induction params as [|param tl IH]; intros parameters;
    cbn [swagger2_body_loop].
  - apply preserves_ret.
  - apply preserves_bind;
      [apply parseSwagger2BodyParameter_sound | intros; apply IH].
Qed.

Lemma parseResponses_sound responses :
  preserves (memo_sound root) (parseResponses specVersion responses root).
Proof.
  unfold parseResponses. apply preserves_bind; [apply preserves_lift|].
  intros entries.
  induction entries as [|[statusCode response] tl IH];
    cbn [parseResponses_loop].
  - apply preserves_ret.
  - destruct (Str.startsWith statusCode "2" && JS.typeof_object response
              && negb (JS.is_null response)); [|exact IH].
    apply preserves_bind; [apply preserves_lift|]. intros [schema|];
      [|exact IH].
    preserves_steps.
Qed.

Lemma createToolFromOperation_sound path method operation :
  preserves (memo_sound root)
    (createToolFromOperation specVersion path method operation root).
Proof.
  unfold createToolFromOperation.
  repeat first
    [ apply preserves_ret
    | apply preserves_lift
    | apply parseParameters_sound
    | apply parseResponses_sound
    | apply swagger2_body_loop_sound
    | apply parseOpenApi3RequestBody_sound
    | apply preserves_bind; [|intros]
    | match goal with
      | |- preserves _ (if ?c then _ else _) => destruct c
      | |- preserves _ (match ?x with _ => _ end) => destruct x
      end ].
Qed.

Lemma operations_loop_sound path entries : forall tools,
  preserves (memo_sound root)
    (operations_loop specVersion path entries root tools).
Proof.
  induction entries as [|[method operation] tl IH]; intros tools;
    cbn [operations_loop].
  - apply preserves_ret.
  - destruct (negb (string_in (Str.toLowerCase method) SUPPORTED_HTTP_METHODS));
      [apply IH|].
    apply preserves_bind; [apply createToolFromOperation_sound|].
    intros [tool|]; apply IH.
Qed.

(** Every resolution of a parse starts from a sound cache: the cache is
    empty at first and the loop over the paths keeps it sound. *)
Lemma paths_loop_sound entries : forall tools,
  preserves (memo_sound root) (paths_loop specVersion entries root tools).
Proof.
  induction entries as [|[path pathItem] tl IH]; intros tools;
    cbn [paths_loop].
  - apply preserves_ret.
  - destruct (negb (JS.typeof_object pathItem) || JS.is_null pathItem);
      [apply IH|].
    apply preserves_bind; [apply preserves_lift|]. intros operations.
    apply preserves_bind; [apply operations_loop_sound | intros; apply IH].
Qed.

End ParseInvariant.

(* ================================================================== *)
(** * Pointers without a target, pointers under a composition keyword *)

Lemma keep_polymorphic_ref_spec root refPath :
  keep_polymorphic_ref root refPath
  = match lookupRef root refPath with
    | JNull => false
    | JObj ps => is_object_shaped (JObj ps)
    | JArr _ => false
    | _ => true
    end.
Proof.
  unfold keep_polymorphic_ref.
  destruct (lookupRef root refPath) as [| b | n | s | l | ps]; try reflexivity.
  unfold object_shaped, is_object_shaped. cbn [JSOps.get obind JSOps.has].
  destruct (JS.is_string (JS.assoc "type" ps) "object"); reflexivity.
Qed.

(** A pointer without a target: the node comes back as it is and nothing
    is cached. *)
Lemma dangling_ref_kept root refPath stack memo flag :
  Str.startsWith refPath "#/" = true ->
  lookupRef root refPath = JNull ->
  stack_sound root stack -> memo_sound root memo ->
  resolveRefs (ref_node refPath) (Some root) stack memo flag
  = (Ret (ref_node refPath), memo).
Proof.
  intros Hinternal Hlook Hstack Hmemo.
  apply (resolveRefs_of_fuel 1); [|discriminate].
  change (resolveRefs_fuel 1 root)
    with (resolve_node (resolveRefs_fuel 0 root) root).
  rewrite resolve_node_ref. unfold resolve_pointer.
  rewrite Hinternal, keep_polymorphic_ref_spec, Hlook, andb_false_r.
  cbn [negb].
  destruct (JS.assoc refPath memo) as [cached|] eqn:Hcached.
  { exfalso. apply (Hmemo refPath); [|exact Hlook].
    unfold JS.has_key. now rewrite Hcached. }
  destruct (in_stack refPath stack) eqn:Hon; [|reflexivity].
  exfalso. now apply (Hstack refPath).
Qed.

Lemma object_ref_kept root refPath stack memo :
  Str.startsWith refPath "#/" = true ->
  is_object_shaped (lookupRef root refPath) = true ->
  resolveRefs (ref_node refPath) (Some root) stack memo true
  = (Ret (ref_node refPath), memo).
Proof.
  intros Hinternal Hshaped.
  apply (resolveRefs_of_fuel 1); [|discriminate].
  change (resolveRefs_fuel 1 root)
    with (resolve_node (resolveRefs_fuel 0 root) root).
  rewrite resolve_node_ref. unfold resolve_pointer.
  rewrite Hinternal, keep_polymorphic_ref_spec. cbn [negb andb].
  destruct (lookupRef root refPath) as [| b | n | s | l | ps];
    try discriminate.
  now rewrite Hshaped.
Qed.

(** C7: under a composition keyword, a pure internal [$ref] whose target
    is object-shaped is returned unexpanded, and so is one whose lookup
    fails; a ref that is not returned as it stands has a target that exists
    and is not object-shaped. *)
Theorem polymorphic_ref_policy (root : json) (refPath : string)
  (stack : list string) (memo : Memo) :
  Str.startsWith refPath "#/" = true ->
  stack_sound root stack -> memo_sound root memo ->
  let node := ref_node refPath in
  let run := resolveRefs node (Some root) stack memo true in
  (lookupRef root refPath <> JNull ->
   is_object_shaped (lookupRef root refPath) = true ->
   run = (Ret node, memo))
  /\ (lookupRef root refPath = JNull -> run = (Ret node, memo))
  /\ (run <> (Ret node, memo) ->
      lookupRef root refPath <> JNull
      /\ is_object_shaped (lookupRef root refPath) = false).
Proof.
  intros Hinternal Hstack Hmemo node run. split; [|split].
  - intros _ Hshaped. now apply object_ref_kept.
  - intros Hlook. now apply dangling_ref_kept.
  - intros Hexpanded.
    destruct (is_object_shaped (lookupRef root refPath)) eqn:Hshaped.
    { exfalso. apply Hexpanded. now apply object_ref_kept. }
    split; [|reflexivity].
    intros Hlook. apply Hexpanded. now apply dangling_ref_kept.
Qed.

Example polymorphic_refs :
  fst (resolveRefs
         (JObj [("oneOf", JArr [ref_node "#/components/schemas/Pet";
                                ref_node "#/components/schemas/Name";
                                ref_node "#/components/schemas/Missing"])])
         (Some petstore) [] [] false)
  = Ret (JObj [("oneOf", JArr [ref_node "#/components/schemas/Pet";
                               string_schema;
                               ref_node "#/components/schemas/Missing"])]).
Proof. reflexivity. Qed.

(** C1 does not hold of the code: [lookupRef] reports a missing target by
    returning [null], it does not throw, so the handler that builds the
    "Unresolved reference" placeholder is not reached; the [$ref] node
    itself is returned and nothing is memoized. *)
Theorem missing_pointer_keeps_ref_node :
  let node := ref_node "#/components/schemas/Missing" in
  lookupRef petstore "#/components/schemas/Missing" = JNull
  /\ resolveRefs node (Some petstore) [] [] false = (Ret node, [])
  /\ node <> unresolved_placeholder.
Proof. repeat split. discriminate. Qed.

(** The placeholder is what a pointer resolves to when its target exists
    and resolving the target throws. *)
Example unresolved_placeholder_on_throw :
  resolveRefs (ref_node "#/components/schemas/Broken") (Some petstore) [] []
    false
  = (Ret unresolved_placeholder,
     [("#/components/schemas/Broken", unresolved_placeholder)]).
Proof. reflexivity. Qed.

(* ================================================================== *)
(** * Structural identity of documents *)



(* ================================================================== *)
(** * Objects built by assignment *)

Lemma insert_index_perm i k v ps :
  Permutation (JS.insert_index i k v ps) ((k, v) :: ps).
Proof.
  induction ps as [|[k' v'] ps IH]; [apply Permutation_refl|].
  cbn [JS.insert_index].
  destruct (Str.array_index k') as [j|]; [|apply Permutation_refl].
  destruct (j <? i)%N; [|apply Permutation_refl].
  eapply Permutation_trans; [apply perm_skip, IH | apply perm_swap].
Qed.

Lemma set_fresh_perm ps k v :
  JS.has_key k ps = false -> Permutation (JS.set ps k v) (ps ++ [(k, v)]).
Proof.
  intros Hfresh. unfold JS.set. rewrite Hfresh.
  destruct (Str.array_index k) as [i|]; [|apply Permutation_refl].
  eapply Permutation_trans; [apply insert_index_perm|].
  apply Permutation_cons_append.
Qed.

Lemma assign_cons result k v rs :
  JS.assign result ((k, v) :: rs) = JS.assign (JS.set result k v) rs.
Proof. reflexivity. Qed.

Lemma has_key_In k ps : JS.has_key k ps = true <-> In k (JS.keys ps).
Proof.
  unfold JS.has_key, JS.keys. induction ps as [|[k' v'] ps IH].
  - split; [discriminate | contradiction].
  - cbn [JS.assoc List.map fst In]. destruct (String.eqb k k') eqn:E.
    + apply String.eqb_eq in E. subst. split; auto.
    + apply String.eqb_neq in E. rewrite IH. split; [auto|].
      intros [Heq | Hin]; [congruence | assumption].
Qed.

(** Assigning members with fresh, distinct keys adds exactly them. *)
Lemma assign_perm rs : forall result,
  NoDup (JS.keys rs) ->
  (forall k, In k (JS.keys rs) -> JS.has_key k result = false) ->
  Permutation (JS.assign result rs) (result ++ rs).
Proof.
  induction rs as [|[k v] rs IH]; intros result Hnodup Hfresh.
  - cbn. now rewrite app_nil_r.
  - rewrite assign_cons. cbn [JS.keys List.map fst] in Hnodup, Hfresh.
    apply NoDup_cons_iff in Hnodup as [Hk Hnodup].
    eapply Permutation_trans.
    + apply IH; [exact Hnodup|].
      intros k' Hk'. rewrite has_key_set.
      destruct (String.eqb k' k) eqn:E.
      * apply String.eqb_eq in E. subst. contradiction.
      * apply Hfresh. now right.
    + eapply Permutation_trans.
      * apply Permutation_app_tail, set_fresh_perm, Hfresh. now left.
      * rewrite <- app_assoc. apply Permutation_refl.
Qed.

Lemma entry_keys (R : json -> json -> Prop) (ps rs : list (string * json)) :
  Forall2 (entry_equiv R) ps rs -> JS.keys rs = JS.keys ps.
Proof.
  induction 1 as [|a b ps rs [Hk _] _ IH]; [reflexivity|].
  cbn [JS.keys List.map]. f_equal; [now symmetry | exact IH].
Qed.

(** The key [kw] can be moved to the front of an object that has it. *)
Lemma extract_key kw v ps :
  NoDup (JS.keys ps) -> JS.assoc kw ps = Some v ->
  Permutation ps
    ((kw, v) :: List.filter (fun kv => negb (String.eqb (fst kv) kw)) ps).
Proof.
  induction ps as [|[k x] ps IH]; [discriminate|].
  cbn [JS.keys List.map fst]. intros Hnodup Hassoc.
  apply NoDup_cons_iff in Hnodup as [Hk Hnodup].
  cbn [JS.assoc] in Hassoc. cbn [List.filter fst].
  destruct (String.eqb kw k) eqn:E.
  - apply String.eqb_eq in E. subst k. injection Hassoc as ->.
    rewrite String.eqb_refl. cbn [negb]. apply perm_skip.
    rewrite forallb_filter_id; [apply Permutation_refl|].
    apply forallb_forall. intros [k' x'] Hin. cbn [fst].
    destruct (String.eqb k' kw) eqn:E'; [|reflexivity].
    apply String.eqb_eq in E'. subst k'. exfalso. apply Hk.
    apply in_map_iff. exists (kw, x'). auto.
  - rewrite String.eqb_sym in E. rewrite E. cbn [negb].
    eapply Permutation_trans; [apply perm_skip, IH; assumption|].
    apply perm_swap.
Qed.

Lemma NoDup_keys_filter (f : string * json -> bool) ps :
  NoDup (JS.keys ps) -> NoDup (JS.keys (List.filter f ps)).
Proof.
  unfold JS.keys. induction ps as [|kv ps IH]; [auto|].
  cbn [List.map List.filter]. intros Hnodup.
  apply NoDup_cons_iff in Hnodup as [Hk Hnodup].
  destruct (f kv); [|auto].
  cbn [List.map]. apply NoDup_cons; [|auto].
  intros Hin. apply Hk. apply in_map_iff in Hin as [kv' [Heq Hin]].
  apply filter_In in Hin as [Hin _]. apply in_map_iff. eauto.
Qed.

(* ================================================================== *)
(** * Runs of the loops *)

Section Runs.
(** an invariant of the cache and a relation between a value and what
    it resolves to *)
Variable I : Memo -> Prop.
Variable R : json -> json -> Prop.

Lemma mapM_run (f : json -> M json) l :
  (forall x, In x l -> returns I R f x) ->
  forall memo, I memo ->
    exists ys memo', mapM f l memo = (Ret ys, memo') /\ I memo'
                     /\ Forall2 R l ys.
Proof.
  induction l as [|x l IH]; intros Hf memo HI.
  - exists [], memo. repeat split; auto. 
  - destruct (Hf x (or_introl eq_refl) memo HI) as (y & memo1 & Hx & HI1 & Hr).
    destruct (IH (fun z Hz => Hf z (or_intror Hz)) memo1 HI1)
      as (ys & memo2 & Hl & HI2 & Hrs).
    exists (y :: ys), memo2. cbn [mapM].
    rewrite (bind_ret_eq _ _ _ _ _ Hx), (bind_ret_eq _ _ _ _ _ Hl).
    repeat split; auto.
Qed.

Lemma resolve_props_run (f : json -> M json) keep entries :
  (forall k v, In (k, v) entries -> keep k = true -> returns I R f v) ->
  forall result memo, I memo ->
    exists rs memo',
      resolve_props f keep entries result memo
      = (Ret (JS.assign result rs), memo')
      /\ I memo'
      /\ Forall2 (entry_equiv R)
           (List.filter (fun kv => keep (fst kv)) entries) rs.
Proof.
  induction entries as [|[k v] tl IH]; intros Hf result memo HI.
  - exists [], memo. repeat split; auto.
  - assert (Htl : forall k' v', In (k', v') tl -> keep k' = true ->
                                returns I R f v')
      by (intros k' v' Hin; apply (Hf k'); now right).
    cbn [resolve_props List.filter fst]. destruct (keep k) eqn:Hkeep.
    + destruct (Hf k v (or_introl eq_refl) Hkeep memo HI)
        as (y & memo1 & Hv & HI1 & Hr).
      destruct (IH Htl (JS.set result k y) memo1 HI1)
        as (rs & memo2 & Hrun & HI2 & Hrs).
      exists ((k, y) :: rs), memo2.
      rewrite (bind_ret_eq _ _ _ _ _ Hv), assign_cons.
      repeat split; auto. constructor; [|exact Hrs]. split; auto.
    + apply IH; auto.
Qed.
End Runs.

(* ================================================================== *)
(** * Classes of documents *)

Lemma every_object_item P l x :
  every_object P (JArr l) = true -> In x l -> every_object P x = true.
Proof.
  cbn [every_object]. intros H Hin.
  now apply (proj1 (forallb_forall _ _) H).
Qed.

Lemma every_object_here P ps : every_object P (JObj ps) = true -> P ps = true.
Proof. cbn [every_object]. intros H. now apply andb_prop in H. Qed.

Lemma every_object_member P ps k v :
  every_object P (JObj ps) = true -> In (k, v) ps -> every_object P v = true.
Proof.
  cbn [every_object]. intros H Hin. apply andb_prop in H as [_ H].
  exact (proj1 (forallb_forall _ _) H (k, v) Hin).
Qed.

Lemma distinct_NoDup l : distinct l = true -> NoDup l.
Proof.
  induction l as [|x l IH]; [constructor|].
  cbn [distinct]. intros H. apply andb_prop in H as [Hx Hl].
  constructor; [|auto].
  intros Hin. apply string_in_spec in Hin. now rewrite Hin in Hx.
Qed.

Lemma leading_keyword_has ps kw :
  leading_keyword ps = Some kw -> JS.has_key kw ps = true.
Proof.
  unfold leading_keyword.
  destruct (JS.has_key "anyOf" ps) eqn:Ha; [intros H; now injection H as <-|].
  destruct (JS.has_key "oneOf" ps) eqn:Ho; [intros H; now injection H as <-|].
  destruct (JS.has_key "allOf" ps) eqn:Hl; [intros H; now injection H as <-|].
  discriminate.
Qed.

(** The body on an object, by the keyword that leads it. *)
Lemma resolve_node_object rec root props stack memo flag :
  resolve_node rec root (JObj props) stack memo flag
  = match leading_keyword props with
    | Some kw =>
        composition (fun o m => rec o stack m true)
          (fun o m => rec o stack m flag) kw props memo
    | None =>
        if JS.has_key "$ref" props && (List.length props =? 1) then
          match JS.assoc "$ref" props with
          | Some (JStr refPath) =>
              resolve_pointer rec root (JObj props) refPath stack memo flag
          | _ => (Throw TypeError, memo)
          end
        else
          bind (resolve_props (fun o m => rec o stack m flag) (fun _ => true)
                  props [])
            (fun result => ret (JObj result)) memo
    end.
Proof.
  unfold resolve_node, leading_keyword.
  destruct (JS.has_key "anyOf" props); [reflexivity|].
  destruct (JS.has_key "oneOf" props); [reflexivity|].
  destruct (JS.has_key "allOf" props); reflexivity.
Qed.

Lemma Forall2_map_l {A B C} (R : B -> C -> Prop) (g : A -> B) l rs :
  Forall2 (fun x y => R (g x) y) l rs -> Forall2 R (List.map g l) rs.
Proof. induction 1; cbn [List.map]; constructor; auto. Qed.

Lemma assoc_map_values (g : json -> json) k ps :
  JS.assoc k (List.map (fun kv => (fst kv, g (snd kv))) ps)
  = option_map g (JS.assoc k ps).
Proof.
  induction ps as [|[k' v] ps IH]; [reflexivity|].
  cbn [List.map JS.assoc fst snd]. destruct (String.eqb k k'); auto.
Qed.

Lemma keys_map_values (g : json -> json) ps :
  JS.keys (List.map (fun kv => (fst kv, g (snd kv))) ps) = JS.keys ps.
Proof.
  unfold JS.keys. rewrite map_map. apply map_ext. reflexivity.
Qed.

Section NodeRuns.
Variable I : Memo -> Prop.
(** what a value is expected to resolve to *)
Variable T : json -> json.
Variable rec : resolver.
Variable root : json.
Variable stack : list string.

Lemma array_run items memo flag :
  (forall x, In x items -> resolves I T rec stack flag x) -> I memo ->
  exists r memo',
    resolve_node rec root (JArr items) stack memo flag = (Ret r, memo')
    /\ I memo' /\ json_equiv (JArr (List.map T items)) r.
Proof.
  intros Hitems HI.
  destruct (mapM_run I _ _ items Hitems memo HI) as (ys & memo1 & Hrun & HI1 & Hys).
  exists (JArr ys), memo1. cbn [resolve_node].
  rewrite (bind_ret_eq _ _ _ _ _ Hrun).
  split; [reflexivity|]. split; [exact HI1|].
  constructor. now apply Forall2_map_l.
Qed.

Lemma plain_object_run props memo flag :
  leading_keyword props = None -> JS.has_key "$ref" props = false ->
  NoDup (JS.keys props) ->
  (forall k v, In (k, v) props -> resolves I T rec stack flag v) -> I memo ->
  exists r memo',
    resolve_node rec root (JObj props) stack memo flag = (Ret r, memo')
    /\ I memo' /\ json_equiv (JObj (rebuilt T props)) r.
Proof.
  intros Hlead Href Hnodup Hmembers HI.
  destruct (resolve_props_run I (fun x y => json_equiv (T x) y)
              (fun o m => rec o stack m flag) (fun _ => true) props
              (fun k v Hin _ => Hmembers k v Hin) [] memo HI)
    as (rs & memo1 & Hrun & HI1 & Hrs).
  exists (JObj (JS.assign [] rs)), memo1.
  rewrite resolve_node_object, Hlead, Href. cbn [andb].
  rewrite (bind_ret_eq _ _ _ _ _ Hrun).
  split; [reflexivity|]. split; [exact HI1|].
  rewrite forallb_filter_id in Hrs by (apply forallb_forall; reflexivity).
  pose proof (entry_keys _ _ _ Hrs) as Hkeys.
  apply (equiv_obj _ (rebuilt T props) _ rs).
  - apply Permutation_refl.
  - apply (assign_perm rs []); [now rewrite Hkeys | reflexivity].
  - unfold rebuilt. apply Forall2_map_l.
    eapply Forall2_impl; [|exact Hrs]. intros a b [Hk Hv]. now split.
Qed.

Hypothesis T_array : forall l, T (JArr l) = JArr (List.map T l).

Lemma composed_object_run props kw items memo flag :
  leading_keyword props = Some kw ->
  JS.assoc kw props = Some (JArr items) ->
  NoDup (JS.keys props) ->
  (forall x, In x items -> resolves I T rec stack true x) ->
  (forall k v, In (k, v) props -> resolves I T rec stack flag v) -> I memo ->
  exists r memo',
    resolve_node rec root (JObj props) stack memo flag = (Ret r, memo')
    /\ I memo' /\ json_equiv (JObj (rebuilt T props)) r.
Proof.
  intros Hlead Hkw Hnodup Hitems Hmembers HI.
  destruct (mapM_run I _ _ items Hitems memo HI)
    as (mapped & memo1 & Hmap & HI1 & Hmapped).
  set (others := fun k : string => negb (String.eqb k kw)).
  destruct (resolve_props_run I (fun x y => json_equiv (T x) y)
              (fun o m => rec o stack m flag) others props
              (fun k v Hin _ => Hmembers k v Hin)
              [(kw, JArr mapped)] memo1 HI1)
    as (rs & memo2 & Hrun & HI2 & Hrs).
  exists (JObj (JS.assign [(kw, JArr mapped)] rs)), memo2.
  rewrite resolve_node_object, Hlead. unfold composition. rewrite Hkw.
  rewrite (bind_ret_eq _ _ _ _ _ Hmap). fold others.
  rewrite (bind_ret_eq _ _ _ _ _ Hrun).
  split; [reflexivity|]. split; [exact HI2|].
  pose proof (entry_keys _ _ _ Hrs) as Hkeys.
  apply (equiv_obj _
           ((kw, T (JArr items))
            :: List.filter (fun kv => negb (String.eqb (fst kv) kw))
                 (rebuilt T props))
           _ ((kw, JArr mapped) :: rs)).
  - apply extract_key.
    + unfold rebuilt. now rewrite keys_map_values.
    + unfold rebuilt. now rewrite assoc_map_values, Hkw.
  - apply (assign_perm rs [(kw, JArr mapped)]).
    + rewrite Hkeys. now apply NoDup_keys_filter.
    + intros k Hk. rewrite Hkeys in Hk. unfold JS.keys in Hk.
      apply in_map_iff in Hk as [[k' v'] [Heq Hin]]. cbn [fst] in Heq. subst k'.
      apply filter_In in Hin as [_ Hother]. cbn [fst] in Hother.
      unfold others in Hother. unfold JS.has_key. cbn [JS.assoc].
      now destruct (String.eqb k kw).
  - constructor.
    + split; [reflexivity|]. cbn [snd]. rewrite T_array. constructor.
      now apply Forall2_map_l.
    + unfold rebuilt.
      rewrite (filter_map_commute _ _
                 (fun kv : string * json => negb (String.eqb (fst kv) kw)))
        by reflexivity.
      apply Forall2_map_l.
      eapply Forall2_impl; [|exact Hrs]. intros a b [Hk Hv]. now split.
Qed.

End NodeRuns.

(* ================================================================== *)
(** * The identity law *)

Lemma rebuilt_same ps : rebuilt (fun x => x) ps = ps.
Proof.
  unfold rebuilt. induction ps as [|[k v] ps IH]; [reflexivity|].
  cbn [List.map fst snd]. now rewrite IH.
Qed.

Lemma identity_fuel root stack memo0 : forall fuel tree flag,
  unique_keys tree = true -> ref_free tree = true ->
  well_composed tree = true -> depth tree <= fuel ->
  exists r,
    resolveRefs_fuel fuel root tree stack memo0 flag = (Ret r, memo0)
    /\ json_equiv tree r.
Proof.
  induction fuel as [|fuel IH]; intros tree flag Huniq Hfree Hcomp Hdepth.
  { pose proof (depth_pos tree). lia. }
  change (resolveRefs_fuel (S fuel) root)
    with (resolve_node (resolveRefs_fuel fuel root) root).
  set (I := fun m : Memo => m = memo0).
  set (rec := resolveRefs_fuel fuel root).
  assert (Hsub : forall o fl,
    unique_keys o = true -> ref_free o = true -> well_composed o = true ->
    depth o < depth tree -> resolves I (fun x => x) rec stack fl o).
  { intros o fl Hu Hf Hc Hd memo ->.
    destruct (IH o fl Hu Hf Hc ltac:(lia)) as [r [Hrun Hr]].
    exists r, memo0. now repeat split. }
  assert (Hdone : forall expected,
    (exists r memo',
       resolve_node rec root tree stack memo0 flag = (Ret r, memo')
       /\ I memo' /\ json_equiv expected r) ->
    expected = tree ->
    exists r, resolve_node rec root tree stack memo0 flag = (Ret r, memo0)
              /\ json_equiv tree r).
  { intros expected (r & memo' & Hrun & -> & Hr) <-. eauto. }
  destruct tree as [| b | n | s | items | props].
  1-4: (eexists; split; [reflexivity | constructor]).
  - apply (Hdone (JArr (List.map (fun x => x) items))).
    + apply array_run; [|reflexivity].
      intros x Hx.
      apply Hsub; eauto using every_object_item, depth_item.
    + now rewrite map_id.
  - pose proof (every_object_here _ _ Huniq) as Hdistinct.
    apply distinct_NoDup in Hdistinct.
    pose proof (every_object_here _ _ Hfree) as Href.
    apply negb_true_iff in Href.
    pose proof (every_object_here _ _ Hcomp) as Harray.
    assert (Hmembers : forall k v, In (k, v) props ->
                                   resolves I (fun x => x) rec stack flag v).
    { intros k v Hin.
      apply Hsub; eauto using every_object_member, depth_member. }
    apply (Hdone (JObj (rebuilt (fun x => x) props)));
      [|now rewrite rebuilt_same].
    unfold composed_by_array in Harray.
    destruct (leading_keyword props) as [kw|] eqn:Hlead.
    + destruct (JS.assoc kw props) as [[| | | | items |]|] eqn:Hkw;
        try discriminate.
      apply (composed_object_run I (fun x => x) rec root stack
               ltac:(intros; now rewrite map_id) props kw items);
        auto; try reflexivity.
      intros x Hx.
      pose proof (assoc_In _ _ _ Hkw) as Hin.
      destruct (inside_branch _ _ _ _ Hkw Hx) as [Hd _].
      apply Hsub; auto;
        eapply every_object_item; eauto using every_object_member.
    + apply plain_object_run; auto. reflexivity.
Qed.

(** The identity law: a document without [$ref] members, whose objects
    have distinct member names none of which is [__proto__] and whose
    composition keywords hold arrays, resolves to a structurally identical
    document and leaves the cache untouched. *)
Theorem resolveRefs_identity (tree : json) (root : option json)
  (stack : list string) (memo : Memo) (insidePolymorphic : bool) :
  unique_keys tree = true -> ref_free tree = true ->
  well_composed tree = true -> proto_free tree = true ->
  exists r,
    resolveRefs tree root stack memo insidePolymorphic = (Ret r, memo)
    /\ json_equiv tree r.
Proof.
  intros Huniq Hfree Hcomp _.
  set (base := match root with Some r => r | None => tree end).
  destruct (identity_fuel base stack memo (depth tree) tree insidePolymorphic
              Huniq Hfree Hcomp (le_n _)) as [r [Hrun Hr]].
  exists r. split; [|exact Hr].
  change (resolveRefs tree root stack memo insidePolymorphic)
    with (resolveRefs tree (Some base) stack memo insidePolymorphic).
  apply (resolveRefs_of_fuel _ _ _ _ _ _ _ _ Hrun). discriminate.
Qed.

(** C6: the identity law fails on a schema that holds no [$ref] at all.
    The schema describes an object with a property named [anyOf]; its
    property map is taken for a composition, [obj.anyOf.map] is called on
    the schema of that property, which is no array, and the resolution
    throws a [TypeError] instead of returning the schema. *)
Lemma identity_fails_on_keyword_named_property :
  ref_free schema_with_anyOf_property = true
  /\ unique_keys schema_with_anyOf_property = true
  /\ proto_free schema_with_anyOf_property = true
  /\ resolveRefs schema_with_anyOf_property None [] [] false
     = (Throw TypeError, [])
  /\ ~ (exists r,
          resolveRefs schema_with_anyOf_property None [] [] false = (Ret r, [])
          /\ json_equiv schema_with_anyOf_property r).
Proof.
  repeat split. intros [r [Hrun _]]. discriminate Hrun.
Qed.

(* ================================================================== *)
(** * Circular references *)





(** The pointer branch when the target is followed. *)
Lemma resolve_pointer_follow rec root obj refPath stack memo flag target :
  Str.startsWith refPath "#/" = true ->
  flag && keep_polymorphic_ref root refPath = false ->
  JS.assoc refPath memo = None ->
  in_stack refPath stack = false ->
  lookupRef root refPath = target -> target <> JNull ->
  resolve_pointer rec root obj refPath stack memo flag
  = match rec target (stack ++ [refPath]) memo flag with
    | (Ret resolvedObj, memo') =>
        (Ret resolvedObj, JS.set memo' refPath resolvedObj)
    | (Throw _, memo') =>
        (Ret unresolved_placeholder,
         JS.set memo' refPath unresolved_placeholder)
    | (Diverge, memo') => (Diverge, memo')
    end.
Proof.
  intros Hinternal Hkeep Hmemo Hstack Hlook Htarget. unfold resolve_pointer.
  rewrite Hinternal, Hkeep, Hmemo, Hstack, Hlook. cbn [negb].
  destruct target; [contradiction | reflexivity ..].
Qed.




Section Cycle.
Variable root : json.
Variable refPath : string.
Variable stack : list string.
Hypothesis internal : Str.startsWith refPath "#/" = true.
Hypothesis on_stack : in_stack refPath stack = true.

(** an invariant of the cache that allows nothing but the placeholder *)
Variable I : Memo -> Prop.
Hypothesis I_cases :
  forall memo, I memo -> memo = [] \/ memo = [(refPath, circular_placeholder)].
Hypothesis I_marked : I [(refPath, circular_placeholder)].



End Cycle.






Section CycleInvariant.
Variable root : json.
Variable stack : list string.

Lemma cycle_sound_set memo q v :
  cycle_sound stack memo ->
  in_stack q stack = false \/ v = circular_placeholder ->
  cycle_sound stack (JS.set memo q v).
Proof.
  intros Hmemo Hq p Hp. rewrite assoc_set.
  destruct (String.eqb p q) eqn:Hpq; [|now apply Hmemo].
  apply String.eqb_eq in Hpq. subst q.
  destruct Hq as [Hfresh | ->]; [congruence | now right].
Qed.

Lemma extends_push stack' q : extends stack stack' -> extends stack (stack' ++ [q]).
Proof.
  intros Hext p Hp. rewrite in_stack_push, (Hext p Hp). reflexivity.
Qed.

Lemma resolve_pointer_cycle_sound rec obj refPath stack' flag :
  (forall o st fl, extends stack st ->
     preserves (cycle_sound stack) (fun m => rec o st m fl)) ->
  extends stack stack' ->
  preserves (cycle_sound stack)
    (fun m => resolve_pointer rec root obj refPath stack' m flag).
Proof.
  intros Hrec Hext memo r memo' Hmemo Hrun. unfold resolve_pointer in Hrun.
  destruct (negb (Str.startsWith refPath "#/"));
    [now injection Hrun as _ <-|].
  destruct (flag && keep_polymorphic_ref root refPath);
    [now injection Hrun as _ <-|].
  destruct (JS.assoc refPath memo); [now injection Hrun as _ <-|].
  destruct (in_stack refPath stack') eqn:Hon.
  { injection Hrun as _ <-. apply cycle_sound_set; auto. }
  assert (Hfresh : in_stack refPath stack = false).
  { destruct (in_stack refPath stack) eqn:Hin; [|reflexivity].
    apply Hext in Hin. congruence. }
  assert (Hcall : forall t,
    match rec t (stack' ++ [refPath]) memo flag with
    | (Ret resolvedObj, memo1) =>
        (Ret resolvedObj, JS.set memo1 refPath resolvedObj)
    | (Throw _, memo1) =>
        (Ret unresolved_placeholder,
         JS.set memo1 refPath unresolved_placeholder)
    | (Diverge, memo1) => (Diverge, memo1)
    end = (r, memo') -> cycle_sound stack memo').
  { intros t Hmatch.
    pose proof (Hrec t (stack' ++ [refPath]) flag (extends_push _ _ Hext))
      as Hpres.
    destruct (rec t (stack' ++ [refPath]) memo flag) as [[x | e |] memo1]
      eqn:Hrect;
      pose proof (Hpres _ _ _ Hmemo Hrect) as Hmemo1;
      injection Hmatch as _ <-; auto using cycle_sound_set. }
  destruct (lookupRef root refPath) as [| b | n | s | l | ps];
    [now injection Hrun as _ <- | | | | |]; (eapply Hcall; exact Hrun).
Qed.

Lemma resolve_node_cycle_sound rec obj stack' flag :
  (forall o st fl, extends stack st ->
     preserves (cycle_sound stack) (fun m => rec o st m fl)) ->
  extends stack stack' ->
  preserves (cycle_sound stack)
    (fun m => resolve_node rec root obj stack' m flag).
Proof.
  intros Hrec Hext. unfold resolve_node.
  assert (Hcall : forall fl x,
    preserves (cycle_sound stack) (fun m => rec x stack' m fl))
    by (intros; now apply Hrec).
  destruct obj as [| b | n | s | items | props];
    try (intros memo r memo' HI H; now injection H as _ <-).
  - apply preserves_bind; [apply preserves_mapM; intros; apply Hcall|].
    intros; apply preserves_ret.
  - destruct (JS.has_key "anyOf" props);
      [apply preserves_composition; intros; apply Hcall|].
    destruct (JS.has_key "oneOf" props);
      [apply preserves_composition; intros; apply Hcall|].
    destruct (JS.has_key "allOf" props);
      [apply preserves_composition; intros; apply Hcall|].
    destruct (JS.has_key "$ref" props && (List.length props =? 1)).
    + destruct (JS.assoc "$ref" props) as [[| | | refPath | |]|];
        try (intros memo r memo' HI H; now injection H as _ <-).
      now apply resolve_pointer_cycle_sound.
    + apply preserves_bind;
        [apply preserves_resolve_props; intros; apply Hcall|].
      intros; apply preserves_ret.
Qed.

(** While the pointers of [stack] are under resolution, no call of the
    resolver caches anything but the placeholder for them: a cyclic
    occurrence always finds the cache as the pointer branch expects. *)
Lemma resolveRefs_fuel_cycle_sound fuel : forall o stack' flag,
  extends stack stack' ->
  preserves (cycle_sound stack)
    (fun m => resolveRefs_fuel fuel root o stack' m flag).
Proof.
  induction fuel as [|fuel IH]; intros o stack' flag Hext.
  - intros memo r memo' HI H. now injection H as _ <-.
  - change (resolveRefs_fuel (S fuel) root)
      with (resolve_node (resolveRefs_fuel fuel root) root).
    now apply resolve_node_cycle_sound.
Qed.

End CycleInvariant.


Example circular_schema :
  resolveRefs (ref_node "#/components/schemas/A") (Some self_referential)
    [] [] false
  = (let resolved :=
       JObj [("type", JStr "object");
             ("properties", JObj [("self", circular_placeholder)])] in
     (Ret resolved, [("#/components/schemas/A", resolved)])).
Proof. reflexivity. Qed.

Example circular_alias :
  resolveRefs (ref_node "#/components/schemas/B") (Some self_referential)
    [] [] false
  = (Ret circular_placeholder,
     [("#/components/schemas/B", circular_placeholder)]).
Proof. reflexivity. Qed.

(* ================================================================== *)
(** * Detection and dispatch *)

Lemma unsupported_not_missing e : UnsupportedVersion e -> ~ MissingVersionField e.
Proof.
  intros [shown [-> | ->]] Hmissing; unfold MissingVersionField in Hmissing;
    cbv in Hmissing; discriminate Hmissing.
Qed.

Lemma canParse_object props :
  canParse (JObj props)
  = Ret (JS.has_key "swagger" props || JS.has_key "openapi" props).
Proof.
  unfold canParse. cbn [JSOps.has obind].
  destruct (JS.has_key "swagger" props); reflexivity.
Qed.

Lemma detectSpecVersion_array items :
  detectSpecVersion (JArr items)
  = Throw (SchemaDiscoveryError missing_version_message).
Proof. reflexivity. Qed.

(** What version detection makes of an object: with a version field it
    returns the version, rejects it, or fails to show it; without one it
    misses the field. *)
Lemma detectSpecVersion_object_cases props :
  (JS.has_key "swagger" props || JS.has_key "openapi" props = true
   /\ ((exists v, detectSpecVersion (JObj props) = Ret v)
       \/ exists e, detectSpecVersion (JObj props) = Throw e
                    /\ (UnsupportedVersion e \/ e = TypeError)))
  \/ (JS.has_key "swagger" props || JS.has_key "openapi" props = false
      /\ detectSpecVersion (JObj props)
         = Throw (SchemaDiscoveryError missing_version_message)).
Proof.
  assert (Hrejected : forall e,
    detectSpecVersion (JObj props) = Throw e /\ UnsupportedVersion e ->
    detectSpecVersion (JObj props) = Throw e
    /\ (UnsupportedVersion e \/ e = TypeError)) by (intros e [He Hun]; auto).
  destruct (JS.has_key "swagger" props) eqn:Hsw.
  - left. split; [reflexivity|].
    destruct (swagger_branch props Hsw) as (Hyes & Hno & Hhidden).
    destruct (field_printable props "swagger") eqn:Hshown.
    2:{ right. exists TypeError. split; [now apply Hhidden | now right]. }
    destruct (JS.assoc "swagger" props) as [v|] eqn:Hv.
    + destruct v as [| b | n | s | l | ps];
        try (right;
             destruct Hno as [e He];
             [intros [s' [Hs' _]]; congruence | reflexivity | eauto]).
      destruct (Str.startsWith s "2.") eqn:Hp.
      * left. eexists. apply Hyes. exists s. now split.
      * right. destruct Hno as [e He]; [|reflexivity|eauto].
        intros [s' [Hs' Hp']]. congruence.
    + apply has_key_false in Hv. congruence.
  - destruct (JS.has_key "openapi" props) eqn:Hoa.
    + left. split; [reflexivity|].
      destruct (openapi_branch props Hsw Hoa) as (H0 & H1 & H2 & Hno & Hhidden).
      destruct (field_printable props "openapi") eqn:Hshown.
      2:{ right. exists TypeError. split; [now apply Hhidden | now right]. }
      destruct (JS.assoc "openapi" props) as [v|] eqn:Hv.
      * assert (Hnot : forall p, (forall s, v <> JStr s) ->
                  ~ field_starts_with props "openapi" p).
        { intros p Hns [s [Hs _]]. rewrite Hv in Hs. injection Hs as ->.
          now apply (Hns s). }
        destruct v as [| b | n | s | l | ps];
          try (right;
               destruct Hno as [e He];
               [apply Hnot; intros; discriminate ..| reflexivity | eauto]).
        assert (Hiff : forall p,
          field_starts_with props "openapi" p <-> Str.startsWith s p = true).
        { intros p. split.
          - intros [s' [Hs' Hp]]. congruence.
          - intros Hp. exists s. now split. }
        destruct (Str.startsWith s "3.0") eqn:E0.
        { left. eexists. apply H0. now apply Hiff. }
        assert (N0 : ~ field_starts_with props "openapi" "3.0")
          by (intros H; apply Hiff in H; congruence).
        destruct (Str.startsWith s "3.1") eqn:E1.
        { left. eexists. apply H1; [exact N0 | now apply Hiff]. }
        assert (N1 : ~ field_starts_with props "openapi" "3.1")
          by (intros H; apply Hiff in H; congruence).
        destruct (Str.startsWith s "3.2") eqn:E2.
        { left. eexists. apply H2; [exact N0 | exact N1 | now apply Hiff]. }
        right.
        destruct (Hno N0 N1) as [e He];
          [intros H; apply Hiff in H; congruence | reflexivity | eauto].
      * apply has_key_false in Hv. congruence.
    + right. split; [reflexivity|].
      destruct (missing_branch props Hsw Hoa) as [e [He ->]]. exact He.
Qed.

Lemma canParse_false_missing specData :
  canParse specData = Ret false ->
  detectSpecVersion specData
  = Throw (SchemaDiscoveryError missing_version_message).
Proof.
  destruct specData as [| b | n | s | l | props]; try discriminate.
  - intros _. reflexivity.
  - rewrite canParse_object.
    destruct (detectSpecVersion_object_cases props)
      as [[Hkeys _] | [Hkeys Hthrow]]; rewrite Hkeys; congruence.
Qed.

Lemma detect_returns_canParse specData v :
  detectSpecVersion specData = Ret v -> canParse specData = Ret true.
Proof.
  destruct specData as [| b | n | s | l | props]; try discriminate.
  rewrite canParse_object.
  destruct (detectSpecVersion_object_cases props)
    as [[Hkeys _] | [Hkeys Hthrow]]; rewrite Hkeys; congruence.
Qed.

(** [canParse] answers [false] exactly on the documents that version
    detection rejects for their missing version field: arrays, and the
    objects that have neither a [swagger] nor an [openapi] member.  (On
    [null] and on scalars both throw a [TypeError].) *)
Theorem canParse_rejects_iff_version_missing (specData : json) :
  canParse specData = Ret false
  <-> exists e, detectSpecVersion specData = Throw e /\ MissingVersionField e.
Proof.
  split.
  - intros Hno. apply canParse_false_missing in Hno.
    eexists. split; [exact Hno | reflexivity].
  - intros [e [He Hm]].
    destruct specData as [| b | n | s | l | props];
      try (cbv in He; injection He as <-; discriminate Hm).
    + reflexivity.
    + rewrite canParse_object.
      destruct (detectSpecVersion_object_cases props)
        as [[Hkeys [[v Hv] | [e' [He' [Hun | ->]]]]] | [Hkeys Hthrow]];
        rewrite Hkeys.
      * congruence.
      * rewrite He in He'. injection He' as <-.
        now apply unsupported_not_missing in Hun.
      * rewrite He in He'. injection He' as ->. discriminate Hm.
      * reflexivity.
Qed.

(** [parse] returns only on documents that [canParse] accepts; where
    [canParse] answers [false] it throws the error of the missing version
    field, and where [canParse] throws it throws the same error. *)
Theorem parse_guarded_by_canParse (string_positive : string -> bool)
  (specData : json) (baseUrlOverride : option string)
  (includeResources : option (list string)) (pathPrefix : option string) :
  (forall api,
     parse string_positive specData baseUrlOverride includeResources pathPrefix
     = Ret api ->
     canParse specData = Ret true)
  /\ (canParse specData = Ret false ->
      parse string_positive specData baseUrlOverride includeResources pathPrefix
      = Throw (SchemaDiscoveryError missing_version_message))
  /\ (forall e,
        canParse specData = Throw e ->
        parse string_positive specData baseUrlOverride includeResources
          pathPrefix
        = Throw e).
Proof.
  split; [|split].
  - intros api Hrun. unfold parse in Hrun.
    apply obind_ret_inv in Hrun as [v [Hv _]].
    eapply detect_returns_canParse; eassumption.
  - intros Hno. apply canParse_false_missing in Hno.
    unfold parse. now rewrite Hno.
  - intros e He.
    destruct specData as [| b | n | s | l | props];
      try (cbv in He; injection He as <-; reflexivity);
      try discriminate.
    rewrite canParse_object in He. discriminate.
Qed.

Lemma findParser_loop_app before after specData :
  ParserRegistry.findParser_loop (before ++ after) specData
  = obind (ParserRegistry.findParser_loop before specData) (fun found =>
      match found with
      | Some earlier => Ret (Some earlier)
      | None => ParserRegistry.findParser_loop after specData
      end).
Proof.
  induction before as [|p before IH]; [reflexivity|].
  cbn [app ParserRegistry.findParser_loop].
  destruct (APISpecParser.canParse p specData) as [[|] | e |]; cbn [obind];
    auto.
Qed.

Lemma findParser_loop_none remaining specData :
  ParserRegistry.findParser_loop remaining specData = Ret None
  <-> Forall (fun p => APISpecParser.canParse p specData = Ret false) remaining.
Proof.
  induction remaining as [|p rest IH]; cbn [ParserRegistry.findParser_loop].
  - split; [constructor | reflexivity].
  - destruct (APISpecParser.canParse p specData) as [[|] | e |] eqn:Hp;
      cbn [obind].
    + split; [discriminate | intros H; inversion H; congruence].
    + rewrite IH. split; [now constructor | intros H; now inversion H].
    + split; [discriminate | intros H; inversion H; congruence].
    + split; [discriminate | intros H; inversion H; congruence].
Qed.

Lemma findParser_loop_some remaining specData parser :
  ParserRegistry.findParser_loop remaining specData = Ret (Some parser)
  <-> exists before after,
        remaining = before ++ parser :: after
        /\ Forall (fun p => APISpecParser.canParse p specData = Ret false) before
        /\ APISpecParser.canParse parser specData = Ret true.
Proof.
  split.
  - induction remaining as [|p rest IH]; cbn [ParserRegistry.findParser_loop];
      [discriminate|].
    destruct (APISpecParser.canParse p specData) as [[|] | e |] eqn:Hp;
      cbn [obind]; try discriminate.
    + intros H. injection H as ->. exists [], rest. auto.
    + intros H. destruct (IH H) as (before & after & -> & Hb & Hok).
      exists (p :: before), after. auto.
  - intros (before & after & -> & Hb & Hok).
    rewrite findParser_loop_app.
    apply findParser_loop_none in Hb. rewrite Hb. cbn [obind].
    cbn [ParserRegistry.findParser_loop]. now rewrite Hok.
Qed.

(** [findParser] returns the first parser, in the order of registration,
    that accepts the document, every parser before it having answered
    [false]; it returns [null] exactly when every registered parser
    answers [false]. *)
Theorem findParser_first_accepting (registry : ParserRegistry.t)
  (specData : json) :
  (forall parser,
     ParserRegistry.findParser registry specData = Ret (Some parser)
     <-> exists before after,
           ParserRegistry.parsers registry = before ++ parser :: after
           /\ Forall (fun p => APISpecParser.canParse p specData = Ret false)
                before
           /\ APISpecParser.canParse parser specData = Ret true)
  /\ (ParserRegistry.findParser registry specData = Ret None
      <-> Forall (fun p => APISpecParser.canParse p specData = Ret false)
            (ParserRegistry.parsers registry)).
Proof.
  split.
  - intros parser. apply findParser_loop_some.
  - apply findParser_loop_none.
Qed.

(** Registering a parser never changes the answer for a document an
    earlier parser accepts (or fails on): the new parser is asked last,
    and only when every earlier one has answered [false]. *)
Theorem findParser_register (registry : ParserRegistry.t)
  (parser : APISpecParser.t) (specData : json) :
  ParserRegistry.findParser (ParserRegistry.register registry parser) specData
  = obind (ParserRegistry.findParser registry specData) (fun found =>
      match found with
      | Some earlier => Ret (Some earlier)
      | None =>
          obind (APISpecParser.canParse parser specData) (fun accepted =>
          Ret (if accepted then Some parser else None))
      end).
Proof.
  unfold ParserRegistry.findParser, ParserRegistry.register.
  cbn [ParserRegistry.parsers]. rewrite findParser_loop_app.
  destruct (ParserRegistry.findParser_loop (ParserRegistry.parsers registry)
              specData) as [[earlier|] | e |]; cbn [obind]; try reflexivity.
  cbn [ParserRegistry.findParser_loop].
  destruct (APISpecParser.canParse parser specData) as [[|] | e |];
    reflexivity.
Qed.

Lemma omapM_app {A B} (f : A -> outcome B) l1 l2 :
  omapM f (l1 ++ l2)
  = obind (omapM f l1) (fun ys1 =>
    obind (omapM f l2) (fun ys2 => Ret (ys1 ++ ys2))).
Proof.
  induction l1 as [|x l1 IH]; cbn [app omapM obind].
  - destruct (omapM f l2); reflexivity.
  - destruct (f x) as [y | e |]; cbn [obind]; try reflexivity.
    rewrite IH. destruct (omapM f l1) as [ys1 | e |]; cbn [obind];
      try reflexivity.
    destruct (omapM f l2); reflexivity.
Qed.

Lemma omapM_length {A B} (f : A -> outcome B) l ys :
  omapM f l = Ret ys -> List.length ys = List.length l.
Proof.
  revert ys. induction l as [|x l IH]; intros ys; cbn [omapM].
  - intros H. now injection H as <-.
  - intros H. apply obind_ret_inv in H as [y [_ H]].
    apply obind_ret_inv in H as [ys' [Hys H]]. injection H as <-.
    cbn [List.length]. f_equal. now apply IH.
Qed.

(** [register] adds one parser: the count grows by one, the name of the
    new format comes last in the list of supported formats, and that list
    has one name for each registered parser. *)
Theorem register_appends (registry : ParserRegistry.t)
  (parser : APISpecParser.t) :
  ParserRegistry.getParserCount (ParserRegistry.register registry parser)
  = S (ParserRegistry.getParserCount registry)
  /\ ParserRegistry.getSupportedFormats
       (ParserRegistry.register registry parser)
     = obind (ParserRegistry.getSupportedFormats registry) (fun names =>
       obind (APISpecParser.getFormatName parser) (fun name =>
       Ret (names ++ [name])))
  /\ (forall names,
        ParserRegistry.getSupportedFormats registry = Ret names ->
        List.length names = ParserRegistry.getParserCount registry).
Proof.
  unfold ParserRegistry.getParserCount, ParserRegistry.getSupportedFormats,
    ParserRegistry.register. cbn [ParserRegistry.parsers].
  split; [|split].
  - rewrite length_app. cbn [List.length]. lia.
  - rewrite omapM_app. cbn [omapM].
    destruct (omapM APISpecParser.getFormatName
                (ParserRegistry.parsers registry)); cbn [obind];
      try reflexivity.
    destruct (APISpecParser.getFormatName parser); reflexivity.
  - intros names. apply omapM_length.
Qed.

(** The registry as it is created by default knows the one format
    "OpenAPI" and hands every document to the OpenAPI parser that
    [canParse] accepts, in particular every document [parse] returns on;
    a registry created without the built-in parsers finds no parser. *)
Theorem builtin_registry_dispatch (string_positive : string -> bool)
  (specData : json) :
  ParserRegistry.findParser (ParserRegistry.new string_positive None) specData
  = obind (canParse specData) (fun accepted =>
      Ret (if accepted then Some (OpenAPIParser string_positive) else None))
  /\ (forall baseUrlOverride includeResources pathPrefix api,
        parse string_positive specData baseUrlOverride includeResources
          pathPrefix = Ret api ->
        ParserRegistry.findParser (ParserRegistry.new string_positive None)
          specData
        = Ret (Some (OpenAPIParser string_positive)))
  /\ ParserRegistry.findParser
       (ParserRegistry.new string_positive (Some false)) specData
     = Ret None
  /\ ParserRegistry.getSupportedFormats
       (ParserRegistry.new string_positive None)
     = Ret ["OpenAPI"].
Proof.
  assert (Hfind :
    ParserRegistry.findParser (ParserRegistry.new string_positive None)
      specData
    = obind (canParse specData) (fun accepted =>
        Ret (if accepted then Some (OpenAPIParser string_positive)
             else None))).
  { unfold ParserRegistry.findParser, ParserRegistry.new,
      ParserRegistry.registerBuiltinParsers, ParserRegistry.register.
    cbn [ParserRegistry.parsers app ParserRegistry.findParser_loop
         OpenAPIParser APISpecParser.canParse].
    destruct (canParse specData) as [[|] | e |]; reflexivity. }
  split; [exact Hfind|]. split; [|split; reflexivity].
  intros baseUrlOverride includeResources pathPrefix api Hrun.
  unfold parse in Hrun. apply obind_ret_inv in Hrun as [v [Hv _]].
  rewrite Hfind, (detect_returns_canParse _ _ Hv). reflexivity.
Qed.

(* ================================================================== *)
(** * Tool names: the normal form *)

(** Decide a property of one character on each of the 256 characters. *)
Ltac by_cases_on_char c :=
  destruct c as [[] [] [] [] [] [] [] []]; vm_compute; try reflexivity;
  try discriminate; auto.

Lemma letter_is_alnum c : Str.is_letter c = true -> Str.is_alnum c = true.
Proof. unfold Str.is_alnum. now intros ->. Qed.

(** A name is valid exactly when it starts with an ASCII letter: the
    second test, for an alphanumeric character somewhere in the name,
    never rejects a name that passed the first. *)
Theorem isValidToolName_iff_leading_letter (name : string) :
  isValidToolName name = true
  <-> exists c rest, name = String c rest /\ Str.is_letter c = true.
Proof.
  destruct name as [|c rest]; cbn [isValidToolName].
  - split; [discriminate | intros (c & rest & H & _); discriminate].
  - cbn [Str.existsb]. split.
    + intros H. apply andb_true_iff in H as [H _]. eauto.
    + intros (c' & rest' & Heq & Hc). injection Heq as <- <-.
      rewrite Hc, (letter_is_alnum _ Hc). reflexivity.
Qed.

Lemma lower_char_letter c :
  Str.is_letter (Str.lower_char c) = true ->
  Str.is_lower (Str.lower_char c) = true.
Proof. by_cases_on_char c. Qed.

Lemma delimiter_lower c : is_delimiter (Str.lower_char c) = is_delimiter c.
Proof. by_cases_on_char c. Qed.

Lemma delimiter_upper c : is_delimiter (Str.upper_char c) = is_delimiter c.
Proof. by_cases_on_char c. Qed.

Lemma delimiter_not_letter c : is_delimiter c = true -> Str.is_letter c = false.
Proof. by_cases_on_char c. Qed.

Lemma existsb_map (P : ascii -> bool) (f : ascii -> ascii) s :
  (forall c, P (f c) = P c) -> Str.existsb P (Str.map f s) = Str.existsb P s.
Proof.
  intros Hf. induction s as [|c s IH]; [reflexivity|].
  cbn [Str.map Str.existsb]. now rewrite Hf, IH.
Qed.

Lemma existsb_append (P : ascii -> bool) s t :
  Str.existsb P (String.append s t) = Str.existsb P s || Str.existsb P t.
Proof.
  induction s as [|c s IH]; [reflexivity|].
  cbn [String.append Str.existsb]. rewrite IH. now rewrite orb_assoc.
Qed.

Lemma existsb_concat (P : ascii -> bool) ws :
  Forall (fun w => Str.existsb P w = false) ws ->
  Str.existsb P (String.concat "" ws) = false.
Proof.
  induction ws as [|w ws IH]; [reflexivity|].
  intros H. inversion H as [|? ? Hw Hws]; subst.
  destruct ws as [|w' ws']; [exact Hw|].
  change (String.concat "" (w :: w' :: ws'))
    with (String.append w (String.append "" (String.concat "" (w' :: ws')))).
  cbn [String.append]. rewrite existsb_append, Hw. now apply IH.
Qed.

Lemma replace_separators_clean in_run s :
  Str.existsb is_separator (replace_separators in_run s) = false.
Proof.
  revert in_run. induction s as [|c s IH]; intros in_run; [reflexivity|].
  cbn [replace_separators]. destruct (is_separator c) eqn:Hc.
  - destruct in_run; [apply IH|]. cbn [Str.existsb]. now rewrite IH.
  - cbn [Str.existsb]. now rewrite Hc, IH.
Qed.

Lemma split_clean s :
  Str.existsb is_separator s = false ->
  Forall (fun w => Str.existsb is_delimiter w = false) (Str.split " " s).
Proof.
  induction s as [|a s IH]; cbn [Str.split Str.existsb].
  - intros _. now constructor.
  - intros H. apply orb_false_iff in H as [Ha Hs]. specialize (IH Hs).
    destruct (Ascii.eqb a " ") eqn:Hsp.
    + constructor; [reflexivity | exact IH].
    + destruct (Str.split " " s) as [|w ws].
      * constructor; [|constructor]. cbn [Str.existsb]. unfold is_delimiter.
        now rewrite Hsp, Ha.
      * inversion IH as [|? ? Hw Hws]; subst. constructor; [|exact Hws].
        cbn [Str.existsb]. unfold is_delimiter at 1. now rewrite Hsp, Ha, Hw.
Qed.

Lemma capitalize_clean w :
  Str.existsb is_delimiter (capitalize w) = Str.existsb is_delimiter w.
Proof.
  destruct w as [|c w]; [reflexivity|].
  cbn [capitalize Str.existsb]. rewrite delimiter_upper.
  unfold Str.toLowerCase. now rewrite (existsb_map _ _ _ delimiter_lower).
Qed.

Lemma split_pascal_head c s : exists t, split_pascal (String c s) = String c t.
Proof.
  destruct s as [|b rest]; cbn [split_pascal]; [eauto|].
  destruct ((Str.is_lower c || Str.is_digit c) && Str.is_upper b); eauto.
Qed.

(** A name that yields no word starts with a delimiter. *)
Lemma no_word_leading_delimiter c s :
  List.filter Str.nonempty
    (Str.split " " (replace_separators false (split_pascal (String c s)))) = [] ->
  is_delimiter c = true.
Proof.
  destruct (split_pascal_head c s) as [t ->]. cbn [replace_separators].
  unfold is_delimiter. destruct (is_separator c); [now rewrite orb_true_r|].
  cbn [Str.split]. destruct (Ascii.eqb c " "); [reflexivity|].
  destruct (Str.split " " (replace_separators false t)); discriminate.
Qed.

Lemma concat_head w ws c rest :
  w = String c rest ->
  exists rest', String.concat "" (w :: ws) = String c rest'.
Proof.
  intros ->. destruct ws as [|w' ws']; cbn [String.concat]; [eauto|].
  cbn [String.append]. eauto.
Qed.

Lemma normalized_camel name :
  isValidToolName (normalizeToolName name) = true ->
  camel_name (normalizeToolName name).
Proof.
  unfold normalizeToolName. destruct name as [|c s]; [discriminate|].
  cbn [Str.nonempty negb].
  destruct (List.filter Str.nonempty
              (Str.split " "
                 (replace_separators false (split_pascal (String c s)))))
    as [|first others] eqn:Hwords.
  - apply no_word_leading_delimiter in Hwords.
    apply delimiter_not_letter in Hwords.
    cbn [isValidToolName]. rewrite Hwords. discriminate.
  - intros Hvalid.
    assert (Hclean : Forall (fun w => Str.existsb is_delimiter w = false)
                       (first :: others)).
    { rewrite <- Hwords. apply Forall_forall. intros w Hw.
      apply filter_In in Hw as [Hw _].
      pose proof (split_clean _ (replace_separators_clean false
                                   (split_pascal (String c s)))) as Hall.
      rewrite Forall_forall in Hall. now apply Hall. }
    assert (Hfirst : Str.nonempty first = true).
    { assert (Hin : In first (first :: others)) by now left.
      rewrite <- Hwords in Hin. now apply filter_In in Hin. }
    destruct first as [|d first']; [discriminate|].
    split.
    + destruct (concat_head (Str.toLowerCase (String d first'))
                  (List.map capitalize others) (Str.lower_char d)
                  (Str.toLowerCase first') eq_refl) as [rest' Hhead].
      rewrite Hhead in *. exists (Str.lower_char d), rest'.
      split; [reflexivity|].
      cbn [isValidToolName] in Hvalid. apply andb_true_iff in Hvalid as [H _].
      now apply lower_char_letter.
    + apply existsb_concat. inversion Hclean as [|? ? Hw Hws]; subst.
      constructor.
      * unfold Str.toLowerCase. now rewrite (existsb_map _ _ _ delimiter_lower).
      * apply Forall_forall. intros w Hw'.
        apply in_map_iff in Hw' as [w0 [<- Hw0]].
        rewrite capitalize_clean. rewrite Forall_forall in Hws. now apply Hws.
Qed.

(** A normalized name that is valid is in camel case: it starts with a
    lower-case letter and holds no space and none of the separators
    [/ _ . -].  Normalization yields the empty name for the empty name
    only. *)
Theorem normalizeToolName_normal_form (name : string) :
  (isValidToolName (normalizeToolName name) = true ->
   camel_name (normalizeToolName name))
  /\ (normalizeToolName name = "" <-> name = "").
Proof.
  split; [apply normalized_camel|]. split; [|now intros ->].
  unfold normalizeToolName. destruct name as [|c s]; [reflexivity|].
  cbn [Str.nonempty negb].
  destruct (List.filter Str.nonempty
              (Str.split " "
                 (replace_separators false (split_pascal (String c s)))))
    as [|first others] eqn:Hwords; [discriminate|].
  assert (Hfirst : Str.nonempty first = true).
  { assert (Hin : In first (first :: others)) by now left.
    rewrite <- Hwords in Hin. now apply filter_In in Hin. }
  destruct first as [|d first']; [discriminate|].
  destruct (concat_head (Str.toLowerCase (String d first'))
              (List.map capitalize others) (Str.lower_char d)
              (Str.toLowerCase first') eq_refl) as [rest' ->].
  discriminate.
Qed.

(* ================================================================== *)
(** * The tools of a parse *)

Lemma toolNameOf_some path method operationId name :
  toolNameOf path method operationId = Ret (Some name) ->
  (exists candidate, name = normalizeToolName candidate)
  /\ isValidToolName name = true.
Proof.
  unfold toolNameOf. intros H. apply obind_ret_inv in H as [first [Hfirst H]].
  destruct first as [n|].
  - injection H as ->.
    destruct (JS.truthy_opt operationId); [|discriminate].
    destruct operationId as [[| | | id | |]|]; try discriminate.
    destruct (isValidToolName (normalizeToolName id)) eqn:Hvalid;
      [|discriminate].
    injection Hfirst as <-. eauto.
  - destruct (isValidToolName (normalizeToolName (fallbackName method path)))
      eqn:Hvalid; [|discriminate].
    injection H as <-. eauto.
Qed.

Lemma createToolFromOperation_tool specVersion path method operation specData
  memo tool memo' :
  createToolFromOperation specVersion path method operation specData memo
  = (Ret (Some tool), memo') ->
  tool_of path method tool.
Proof.
  unfold createToolFromOperation. intros Hrun.
  destruct (negb (JS.truthy operation) || negb (JS.typeof_object operation));
    [discriminate|].
  apply bind_ret_inv in Hrun as (operationId & memo1 & _ & Hrun).
  apply bind_ret_inv in Hrun as (chosen & memo2 & Hname & Hrun).
  apply lift_ret_inv in Hname as [Hname _].
  destruct chosen as [toolName|]; [|discriminate].
  apply toolNameOf_some in Hname as [Hnorm Hvalid].
  repeat bind_inv Hrun.
  unfold ret in Hrun. injection Hrun as <- _.
  repeat split; assumption.
Qed.

Lemma upper_lower_char c : Str.upper_char (Str.lower_char c) = Str.upper_char c.
Proof. by_cases_on_char c. Qed.

Lemma toUpperCase_toLowerCase s :
  Str.toUpperCase (Str.toLowerCase s) = Str.toUpperCase s.
Proof.
  unfold Str.toUpperCase, Str.toLowerCase.
  induction s as [|c s IH]; [reflexivity|].
  cbn [Str.map]. now rewrite upper_lower_char, IH.
Qed.

Lemma supported_method_upper method :
  string_in (Str.toLowerCase method) SUPPORTED_HTTP_METHODS = true ->
  In (Str.toUpperCase method) (List.map Str.toUpperCase SUPPORTED_HTTP_METHODS).
Proof.
  intros H. apply string_in_spec in H.
  rewrite <- toUpperCase_toLowerCase. now apply in_map.
Qed.

Section ToolInvariant.
Variable specVersion : option string.
Variable specData : json.
Variable P : OCPTool.t -> Prop.

Lemma operations_loop_tools path entries : forall tools memo tools' memo',
  (forall method tool,
     string_in (Str.toLowerCase method) SUPPORTED_HTTP_METHODS = true ->
     tool_of path method tool -> P tool) ->
  Forall P tools ->
  operations_loop specVersion path entries specData tools memo
  = (Ret tools', memo') ->
  Forall P tools'.
Proof.
  induction entries as [|[method operation] tl IH];
    intros tools memo tools' memo' Hnew Hold Hrun; cbn [operations_loop] in Hrun.
  - unfold ret in Hrun. now injection Hrun as <- _.
  - destruct (string_in (Str.toLowerCase method) SUPPORTED_HTTP_METHODS)
      eqn:Hmethod; cbn [negb] in Hrun; [|eauto].
    apply bind_ret_inv in Hrun as (created & memo1 & Hcreated & Hrun).
    destruct created as [tool|]; [|eauto].
    apply createToolFromOperation_tool in Hcreated.
    eapply IH; [exact Hnew | | exact Hrun].
    apply Forall_app. split; [exact Hold|]. constructor; [|constructor].
    eauto.
Qed.

Lemma paths_loop_tools entries : forall tools memo tools' memo',
  (forall path method tool,
     In path (List.map fst entries) ->
     string_in (Str.toLowerCase method) SUPPORTED_HTTP_METHODS = true ->
     tool_of path method tool -> P tool) ->
  Forall P tools ->
  paths_loop specVersion entries specData tools memo = (Ret tools', memo') ->
  Forall P tools'.
Proof.
  induction entries as [|[path pathItem] tl IH];
    intros tools memo tools' memo' Hnew Hold Hrun; cbn [paths_loop] in Hrun.
  - unfold ret in Hrun. now injection Hrun as <- _.
  - assert (Hrest : forall path' method tool,
      In path' (List.map fst tl) ->
      string_in (Str.toLowerCase method) SUPPORTED_HTTP_METHODS = true ->
      tool_of path' method tool -> P tool).
    { intros path' method tool Hin. apply Hnew. now right. }
    destruct (negb (JS.typeof_object pathItem) || JS.is_null pathItem);
      [eauto|].
    apply bind_ret_inv in Hrun as (operations & memo1 & _ & Hrun).
    apply bind_ret_inv in Hrun as (found & memo2 & Hfound & Hrun).
    eapply IH; [exact Hrest | | exact Hrun].
    eapply operations_loop_tools; [| exact Hold | exact Hfound].
    intros method tool. apply Hnew. now left.
Qed.
End ToolInvariant.

Lemma tool_of_well_formed paths path method tool :
  In path paths ->
  string_in (Str.toLowerCase method) SUPPORTED_HTTP_METHODS = true ->
  tool_of path method tool -> well_formed_tool paths tool.
Proof.
  intros Hpath Hmethod ([candidate Hname] & Hvalid & Hm & Hp).
  split; [exact Hvalid|]. split; [|split].
  - rewrite Hname in *. now apply normalized_camel.
  - rewrite Hm. now apply supported_method_upper.
  - now rewrite Hp.
Qed.

Lemma filterToolsByResources_incl tools includeResources pathPrefix :
  incl (filterToolsByResources tools includeResources pathPrefix) tools.
Proof.
  unfold filterToolsByResources.
  destruct includeResources as [[|r rs]|]; try apply incl_refl.
  apply incl_filter.
Qed.

(** What a returning [parse] was made of. *)
Lemma parse_inv string_positive specData baseUrlOverride includeResources
  pathPrefix api :
  parse string_positive specData baseUrlOverride includeResources pathPrefix
  = Ret api ->
  exists specVersion apiSpec,
    detectSpecVersion specData = Ret specVersion
    /\ parseOpenApiSpec (Some specVersion) string_positive specData
         baseUrlOverride = Ret apiSpec
    /\ OCPAPISpec.base_url api = OCPAPISpec.base_url apiSpec
    /\ OCPAPISpec.raw_spec api = OCPAPISpec.raw_spec apiSpec
    /\ OCPAPISpec.tools api
       = filterToolsByResources (OCPAPISpec.tools apiSpec) includeResources
           pathPrefix.
Proof.
  unfold parse. intros Hrun.
  apply obind_ret_inv in Hrun as [specVersion [Hdetect Hrun]].
  apply obind_ret_inv in Hrun as [apiSpec [Hspec Hrun]].
  exists specVersion, apiSpec. split; [exact Hdetect|]. split; [exact Hspec|].
  destruct includeResources as [resources|]; injection Hrun as <-;
    repeat split; reflexivity.
Qed.

Lemma parseOpenApiSpec_inv specVersion string_positive specData
  baseUrlOverride apiSpec :
  parseOpenApiSpec specVersion string_positive specData baseUrlOverride
  = Ret apiSpec ->
  OCPAPISpec.raw_spec apiSpec = specData
  /\ (match baseUrlOverride with
      | Some url => if Str.nonempty url then Ret (JStr url)
                    else extractBaseUrl specVersion string_positive specData
      | None => extractBaseUrl specVersion string_positive specData
      end) = Ret (OCPAPISpec.base_url apiSpec)
  /\ exists paths0 entries memoCache,
       JSOps.get specData "paths" = Ret paths0
       /\ JSOps.entries (JS.or_else paths0 (JObj [])) = Ret entries
       /\ paths_loop specVersion entries specData [] []
          = (Ret (OCPAPISpec.tools apiSpec), memoCache).
Proof.
  unfold parseOpenApiSpec. intros Hspec.
  apply obind_ret_inv in Hspec as [info0 [_ Hspec]].
  apply obind_ret_inv in Hspec as [title0 [_ Hspec]].
  apply obind_ret_inv in Hspec as [version0 [_ Hspec]].
  apply obind_ret_inv in Hspec as [description0 [_ Hspec]].
  apply obind_ret_inv in Hspec as [baseUrl [Hurl Hspec]].
  apply obind_ret_inv in Hspec as [paths0 [Hpaths Hspec]].
  apply obind_ret_inv in Hspec as [entries [Hentries Hspec]].
  apply obind_ret_inv in Hspec as [tools [Htools Hspec]].
  injection Hspec as <-. split; [reflexivity|]. split; [exact Hurl|].
  destruct (paths_loop specVersion entries specData [] [])
    as [r memoCache] eqn:Hloop.
  cbn [fst] in Htools. subst r.
  exists paths0, entries, memoCache. auto.
Qed.

(** Every tool of a parsed specification is well formed: its name is
    valid and in camel case, its method is one of GET, POST, PUT, PATCH
    and DELETE, and its path is a key of the [paths] of the document. *)
Theorem parse_tools_well_formed (string_positive : string -> bool)
  (specData : json) (baseUrlOverride : option string)
  (includeResources : option (list string)) (pathPrefix : option string)
  (api : OCPAPISpec.t) :
  parse string_positive specData baseUrlOverride includeResources pathPrefix
  = Ret api ->
  exists props entries,
    specData = JObj props
    /\ JSOps.entries (JS.or_else (JS.assoc "paths" props) (JObj []))
       = Ret entries
    /\ Forall (well_formed_tool (List.map fst entries)) (OCPAPISpec.tools api).
Proof.
  intros Hrun.
  apply parse_inv in Hrun
    as (specVersion & apiSpec & Hdetect & Hspec & _ & _ & Htools).
  destruct specData as [| b | n | s | l | props]; try discriminate.
  apply parseOpenApiSpec_inv in Hspec
    as (_ & _ & paths0 & entries & memoCache & Hpaths & Hentries & Hloop).
  cbn [JSOps.get] in Hpaths. injection Hpaths as <-.
  exists props, entries. split; [reflexivity|]. split; [exact Hentries|].
  eapply paths_loop_tools
    with (P := well_formed_tool (List.map fst entries)) in Hloop;
    [| intros; eapply tool_of_well_formed; eassumption | constructor].
  rewrite Htools. rewrite Forall_forall in *. intros tool Hin.
  apply Hloop. eapply filterToolsByResources_incl. eassumption.
Qed.

Lemma operations_loop_supported specVersion path entries specData :
  forall tools memo,
    operations_loop specVersion path entries specData tools memo
    = operations_loop specVersion path (List.filter is_operation entries)
        specData tools memo.
Proof.
  induction entries as [|[method operation] tl IH]; intros tools memo;
    [reflexivity|].
  cbn [operations_loop List.filter]. unfold is_operation at 1. cbn [fst].
  destruct (string_in (Str.toLowerCase method) SUPPORTED_HTTP_METHODS)
    eqn:Hmethod; cbn [negb]; [|apply IH].
  cbn [operations_loop]. rewrite Hmethod. cbn [negb]. unfold bind.
  destruct (createToolFromOperation specVersion path method operation
              specData memo) as [[[tool|] | e |] memo1]; auto.
Qed.

(** Only the entries of a path item whose key is a supported method are
    read, and only the entries of [paths] whose value is an object: what
    else a document holds there ([parameters], [summary], HEAD or OPTIONS
    operations, scalar path items) makes no difference to the tools, the
    cache or the errors. *)
Theorem only_operations_of_path_items_are_read (specVersion : option string)
  (specData : json) (tools : list OCPTool.t) (memo : Memo) :
  (forall path entries,
     operations_loop specVersion path entries specData tools memo
     = operations_loop specVersion path (List.filter is_operation entries)
         specData tools memo)
  /\ (forall entries,
        paths_loop specVersion entries specData tools memo
        = paths_loop specVersion (List.filter is_path_item entries) specData
            tools memo).
Proof.
  split.
  - intros path entries. apply operations_loop_supported.
  - intros entries. revert tools memo.
    induction entries as [|[path pathItem] tl IH]; intros tools memo;
      [reflexivity|].
    cbn [paths_loop List.filter]. unfold is_path_item at 1. cbn [snd].
    destruct (JS.typeof_object pathItem) eqn:Hobject; cbn [negb orb andb];
      [|apply IH].
    destruct (JS.is_null pathItem) eqn:Hnull; cbn [negb]; [apply IH|].
    cbn [paths_loop]. rewrite Hobject, Hnull. cbn [negb orb].
    unfold bind.
    destruct (lift (JSOps.entries pathItem) memo) as [[operations | e |] memo1];
      auto.
    destruct (operations_loop specVersion path operations specData tools memo1)
      as [[tools' | e |] memo2]; auto.
Qed.

Lemma bind_lift_ret {A B} (a : A) (k : A -> M B) memo :
  bind (lift (Ret a)) k memo = k a memo.
Proof. reflexivity. Qed.

(** An operation id that is a string with a valid normal form names the
    tool, whatever the path and the method; an operation id that is truthy
    and no string makes the extraction of the operation throw a
    [TypeError]. *)
Theorem operation_id_names_the_tool (specVersion : option string)
  (path method : string) (fields : list (string * json)) (operationId : json)
  (specData : json) (memo : Memo) :
  JS.assoc "operationId" fields = Some operationId ->
  JS.truthy operationId = true ->
  (forall id,
     operationId = JStr id ->
     isValidToolName (normalizeToolName id) = true ->
     forall result memo',
       createToolFromOperation specVersion path method (JObj fields) specData
         memo = (Ret result, memo') ->
       exists tool,
         result = Some tool
         /\ OCPTool.name tool = normalizeToolName id
         /\ OCPTool.operation_id tool = Some (JStr id))
  /\ ((forall id, operationId <> JStr id) ->
      createToolFromOperation specVersion path method (JObj fields) specData
        memo = (Throw TypeError, memo)).
Proof.
  intros Hfield Htruthy. split.
  - intros id -> Hvalid result memo' Hrun.
    unfold createToolFromOperation in Hrun.
    cbn [JS.truthy JS.typeof_object negb orb JSOps.get] in Hrun.
    rewrite bind_lift_ret, Hfield in Hrun.
    assert (Hname : toolNameOf path method (Some (JStr id))
                    = Ret (Some (normalizeToolName id))).
    { unfold toolNameOf. cbn [JS.truthy_opt]. rewrite Htruthy.
      now rewrite Hvalid. }
    rewrite Hname, bind_lift_ret in Hrun.
    repeat bind_inv Hrun.
    unfold ret in Hrun. injection Hrun as <- _.
    eexists. repeat split.
  - intros Hother. unfold createToolFromOperation.
    cbn [JS.truthy JS.typeof_object negb orb JSOps.get].
    rewrite bind_lift_ret, Hfield.
    assert (Hname : toolNameOf path method (Some operationId)
                    = Throw TypeError).
    { unfold toolNameOf. cbn [JS.truthy_opt]. rewrite Htruthy.
      destruct operationId; try reflexivity. now contradiction (Hother s). }
    rewrite Hname. reflexivity.
Qed.

(** The [requestBody] of an operation is read for POST, PUT and PATCH
    only: for any other method the tool, the cache and the errors are the
    same whatever the operation holds there. *)
Theorem request_body_read_only_for_post_put_patch
  (specVersion : option string) (path method : string)
  (fields : list (string * json)) (requestBody : json) (specData : json)
  (memo : Memo) :
  string_in (Str.toUpperCase method) ["POST"; "PUT"; "PATCH"] = false ->
  createToolFromOperation specVersion path method
    (JObj (JS.set fields "requestBody" requestBody)) specData memo
  = createToolFromOperation specVersion path method (JObj fields) specData
      memo.
Proof.
  intros Hmethod. unfold createToolFromOperation.
  cbn [JS.truthy JS.typeof_object negb orb JSOps.get].
  rewrite !assoc_set.
  change (String.eqb "operationId" "requestBody") with false.
  change (String.eqb "summary" "requestBody") with false.
  change (String.eqb "description" "requestBody") with false.
  change (String.eqb "tags" "requestBody") with false.
  change (String.eqb "parameters" "requestBody") with false.
  change (String.eqb "responses" "requestBody") with false.
  cbv iota. rewrite Hmethod. reflexivity.
Qed.

(* ================================================================== *)
(** * Base URL: the override, the first scheme, the first server *)

(** A base-URL override that is not empty becomes the [base_url] of the
    parsed specification, whose [raw_spec] is the document itself; an
    empty override counts as none. *)
Theorem base_url_override_wins (string_positive : string -> bool)
  (specData : json) (url : string) (includeResources : option (list string))
  (pathPrefix : option string) :
  (Str.nonempty url = true ->
   forall api,
     parse string_positive specData (Some url) includeResources pathPrefix
     = Ret api ->
     OCPAPISpec.base_url api = JStr url /\ OCPAPISpec.raw_spec api = specData)
  /\ (Str.nonempty url = false ->
      parse string_positive specData (Some url) includeResources pathPrefix
      = parse string_positive specData None includeResources pathPrefix).
Proof.
  split.
  - intros Hurl api Hrun.
    apply parse_inv in Hrun
      as (specVersion & apiSpec & _ & Hspec & -> & -> & _).
    apply parseOpenApiSpec_inv in Hspec as (Hraw & Hbase & _).
    rewrite Hurl in Hbase. injection Hbase as <-. auto.
  - intros Hurl. unfold parse, parseOpenApiSpec. now rewrite Hurl.
Qed.

Lemma detect_swagger_2 props :
  field_starts_with props "swagger" "2." ->
  detectSpecVersion (JObj props) = Ret "swagger_2".
Proof.
  intros Hfield.
  assert (Hhas : JS.has_key "swagger" props = true).
  { destruct Hfield as [s [Hs _]]. apply has_key_assoc. eauto. }
  now apply (swagger_branch props Hhas).
Qed.

Lemma extractBaseUrl_swagger2 string_positive props host url :
  JS.assoc "host" props = Some host -> JS.truthy host = true ->
  match JS.assoc "schemes" props with
  | Some (JArr _) | None => True
  | Some _ => False
  end ->
  extractBaseUrl (Some "swagger_2") string_positive (JObj props) = Ret url ->
  url = JStr (String.concat ""
                [swagger2_scheme (JS.assoc "schemes" props); "://";
                 JSOps.to_string host;
                 JSOps.to_string
                   (JS.or_else (JS.assoc "basePath" props) (JStr ""))]).
Proof.
  intros Hhost Htruthy Hschemes Hrun. unfold extractBaseUrl in Hrun.
  change (is_swagger_2 (Some "swagger_2")) with true in Hrun. cbv iota in Hrun.
  cbn [JSOps.get obind] in Hrun. rewrite Hhost in Hrun.
  replace (JS.or_else (Some host) (JStr "")) with host in Hrun
    by (unfold JS.or_else; now rewrite Htruthy).
  rewrite Htruthy in Hrun.
  set (basePath := JS.or_else (JS.assoc "basePath" props) (JStr "")) in *.
  assert (Hshown : forall scheme,
    obind (JSOps.ToString_opt (Some scheme)) (fun schemeText =>
    obind (JSOps.ToString host) (fun hostText =>
    obind (JSOps.ToString basePath) (fun basePathText =>
    Ret (JStr (String.concat ""
                 [schemeText; "://"; hostText; basePathText])))))
    = Ret url ->
    url = JStr (String.concat ""
                  [JSOps.to_string scheme; "://"; JSOps.to_string host;
                   JSOps.to_string basePath])).
  { intros scheme H.
    apply obind_ret_inv in H as [schemeText [Hscheme H]].
    apply obind_ret_inv in H as [hostText [Hhosted H]].
    apply obind_ret_inv in H as [basePathText [Hbase H]].
    apply ToString_ret in Hscheme as [_ ->].
    apply ToString_ret in Hhosted as [_ ->].
    apply ToString_ret in Hbase as [_ ->].
    now injection H as <-. }
  destruct (JS.assoc "schemes" props) as [[| | | | l |]|]; try contradiction.
  - destruct l as [|first rest].
    + apply (Hshown (JStr "https")). exact Hrun.
    + cbn [JS.or_else JS.truthy JSOps.get String.eqb Ascii.eqb Bool.eqb obind
           List.length positive] in Hrun.
      replace (0 <? Z.of_nat (S (List.length rest)))%Z with true in Hrun
        by (symmetry; apply Z.ltb_lt; lia).
      apply (Hshown first). exact Hrun.
  - apply (Hshown (JStr "https")). exact Hrun.
Qed.

(** The base URL of a Swagger 2 document that names a host, parsed
    without an override, is [<scheme>://<host><basePath>]: the scheme is
    the first of [schemes], "https" when [schemes] is missing or empty,
    and a missing [basePath] adds nothing. *)
Theorem swagger2_base_url_composed (string_positive : string -> bool)
  (props : list (string * json)) (host : json)
  (includeResources : option (list string)) (pathPrefix : option string)
  (api : OCPAPISpec.t) :
  field_starts_with props "swagger" "2." ->
  JS.assoc "host" props = Some host -> JS.truthy host = true ->
  match JS.assoc "schemes" props with
  | Some (JArr _) | None => True
  | Some _ => False
  end ->
  parse string_positive (JObj props) None includeResources pathPrefix
  = Ret api ->
  OCPAPISpec.base_url api
  = JStr (String.concat ""
            [swagger2_scheme (JS.assoc "schemes" props); "://";
             JSOps.to_string host;
             JSOps.to_string
               (JS.or_else (JS.assoc "basePath" props) (JStr ""))]).
Proof.
  intros Hversion Hhost Htruthy Hschemes Hrun.
  apply parse_inv in Hrun
    as (specVersion & apiSpec & Hdetect & Hspec & -> & _).
  rewrite (detect_swagger_2 _ Hversion) in Hdetect. injection Hdetect as <-.
  apply parseOpenApiSpec_inv in Hspec as (_ & Hbase & _).
  exact (extractBaseUrl_swagger2 string_positive props host _ Hhost Htruthy
           Hschemes Hbase).
Qed.

Lemma extractBaseUrl_servers string_positive specVersion props first rest :
  is_swagger_2 (Some specVersion) = false ->
  JS.assoc "servers" props = Some (JArr (first :: rest)) ->
  extractBaseUrl (Some specVersion) string_positive (JObj props)
  = obind (JSOps.get first "url") (fun url => Ret (JS.or_else url (JStr ""))).
Proof.
  intros Hversion Hservers. unfold extractBaseUrl. rewrite Hversion.
  cbn [JSOps.get obind]. rewrite Hservers.
  cbn [JS.truthy JSOps.get String.eqb Ascii.eqb Bool.eqb obind List.length
       positive].
  replace (0 <? Z.of_nat (S (List.length rest)))%Z with true
    by (symmetry; apply Z.ltb_lt; lia).
  reflexivity.
Qed.

Lemma parseOpenApiSpec_base_url_throws specVersion string_positive props e :
  extractBaseUrl specVersion string_positive (JObj props) = Throw e ->
  parseOpenApiSpec specVersion string_positive (JObj props) None = Throw e.
Proof.
  intros Hurl. unfold parseOpenApiSpec. rewrite Hurl.
  cbn [JSOps.get obind].
  set (info := JS.or_else (JS.assoc "info" props) (JObj [])).
  assert (Hinfo : JS.truthy info = true) by (apply or_else_truthy; reflexivity).
  destruct (get_of_truthy info "title" Hinfo) as [title0 ->].
  destruct (get_of_truthy info "version" Hinfo) as [version0 ->].
  destruct (get_of_truthy info "description" Hinfo) as [description0 ->].
  reflexivity.
Qed.

(** The base URL of an OpenAPI 3 document with a non-empty [servers]
    array, parsed without an override, is the [url] of the first server
    (the empty string when that is missing or falsy), whatever the other
    servers are; a first server that is [null] makes the parse throw a
    [TypeError]. *)
Theorem openapi3_first_server_decides (string_positive : string -> bool)
  (props : list (string * json)) (specVersion : string) (first : json)
  (rest : list json) (includeResources : option (list string))
  (pathPrefix : option string) :
  detectSpecVersion (JObj props) = Ret specVersion ->
  is_swagger_2 (Some specVersion) = false ->
  JS.assoc "servers" props = Some (JArr (first :: rest)) ->
  (forall api,
     parse string_positive (JObj props) None includeResources pathPrefix
     = Ret api ->
     exists url,
       JSOps.get first "url" = Ret url
       /\ OCPAPISpec.base_url api = JS.or_else url (JStr ""))
  /\ (first = JNull ->
      parse string_positive (JObj props) None includeResources pathPrefix
      = Throw TypeError).
Proof.
  intros Hdetect Hversion Hservers.
  pose proof (extractBaseUrl_servers string_positive _ _ _ _ Hversion Hservers)
    as Hurl.
  split.
  - intros api Hrun.
    apply parse_inv in Hrun
      as (specVersion' & apiSpec & Hdetect' & Hspec & -> & _).
    rewrite Hdetect in Hdetect'. injection Hdetect' as <-.
    apply parseOpenApiSpec_inv in Hspec as (_ & Hbase & _).
    rewrite Hurl in Hbase.
    apply obind_ret_inv in Hbase as [url [Hget Hbase]].
    injection Hbase as <-. eauto.
  - intros ->. unfold parse. rewrite Hdetect. cbn [obind].
    now rewrite (parseOpenApiSpec_base_url_throws _ _ _ TypeError Hurl).
Qed.

(* ================================================================== *)
(** * Parameters *)

Lemma resolveRefs_empty_schema specData memo :
  resolveRefs (JObj []) (Some specData) [] memo false = (Ret (JObj []), memo).
Proof. apply (resolveRefs_of_fuel 1); [reflexivity | discriminate]. Qed.

Lemma resolveRefs_scalar schema specData memo :
  match schema with JObj _ | JArr _ => False | _ => True end ->
  resolveRefs schema (Some specData) [] memo false = (Ret schema, memo).
Proof.
  intros Hscalar. apply (resolveRefs_of_fuel 1); [|discriminate].
  destruct schema; try contradiction; reflexivity.
Qed.

(** A parameter without a (truthy) [schema] that is named by a string,
    [__proto__] apart, is filed under its name with type "string",
    whatever its own [type] member says, as a Swagger 2 parameter carries
    it; its description, its [required] flag and its location default to
    the empty string, [false] and "query".  A name that does not convert
    to a string makes the extraction throw a [TypeError]. *)
Theorem parameter_without_schema_is_string (fields : list (string * json))
  (specData : json) (result : list (string * json)) (memo : Memo) :
  JS.truthy_opt (JS.assoc "schema" fields) = false ->
  (forall name,
     JS.assoc "name" fields = Some (JStr name) ->
     name <> "" -> name <> "__proto__" ->
     parseParameter (JObj fields) specData result memo
     = (Ret (JS.set result name
               (JObj [("description",
                       JS.or_else (JS.assoc "description" fields) (JStr ""));
                      ("required",
                       JS.or_else (JS.assoc "required" fields) (JBool false));
                      ("location",
                       JS.or_else (JS.assoc "in" fields) (JStr "query"));
                      ("type", JStr "string")])),
        memo))
  /\ (forall name,
        JS.assoc "name" fields = Some name -> JS.truthy name = true ->
        JSOps.printable name = false ->
        parseParameter (JObj fields) specData result memo
        = (Throw TypeError, memo)).
Proof.
  intros Hschema.
  assert (Hrun : forall name,
    JS.assoc "name" fields = Some name -> JS.truthy name = true ->
    parseParameter (JObj fields) specData result memo
    = match JSOps.ToString name with
      | Ret key =>
          (Ret (JS.set result key
                  (JObj [("description",
                          JS.or_else (JS.assoc "description" fields) (JStr ""));
                         ("required",
                          JS.or_else (JS.assoc "required" fields)
                            (JBool false));
                         ("location",
                          JS.or_else (JS.assoc "in" fields) (JStr "query"));
                         ("type", JStr "string")])),
           memo)
      | Throw e => (Throw e, memo)
      | Diverge => (Diverge, memo)
      end).
  { intros name Hname Htruthy. unfold parseParameter.
    cbn [JS.truthy JS.typeof_object negb orb JSOps.get].
    rewrite bind_lift_ret, Hname. cbn [JS.truthy_opt]. rewrite Htruthy.
    cbn [negb]. do 4 rewrite bind_lift_ret.
    replace (JS.or_else (JS.assoc "schema" fields) (JObj [])) with (JObj []).
    2:{ unfold JS.or_else. destruct (JS.assoc "schema" fields) as [schema|];
        [|reflexivity]. cbn [JS.truthy_opt] in Hschema. now rewrite Hschema. }
    rewrite (bind_ret_eq _ _ _ _ _ (resolveRefs_empty_schema specData memo)).
    cbn [JSOps.ToString_opt].
    destruct (JSOps.ToString name); reflexivity. }
  split.
  - intros name Hname Hnonempty _.
    rewrite (Hrun (JStr name) Hname); [reflexivity|].
    destruct name; [contradiction | reflexivity].
  - intros name Hname Htruthy Hhidden.
    rewrite (Hrun name Hname Htruthy).
    now rewrite (ToString_unprintable _ Hhidden).
Qed.

(** A named parameter whose [schema] is a truthy scalar (a non-empty
    string, a non-zero number, [true]) makes [parseParameters] throw a
    [TypeError]: the test ['enum' in resolvedSchema] is applied to a value
    that is no object. *)
Theorem scalar_parameter_schema_throws (fields : list (string * json))
  (name schema : json) (specData : json) (result : list (string * json))
  (memo : Memo) :
  JS.assoc "name" fields = Some name -> JS.truthy name = true ->
  JS.assoc "schema" fields = Some schema -> JS.truthy schema = true ->
  JS.typeof_object schema = false ->
  parseParameter (JObj fields) specData result memo = (Throw TypeError, memo).
Proof.
  intros Hname Htruthy Hschema Hs Hscalar. unfold parseParameter.
  cbn [JS.truthy JS.typeof_object negb orb JSOps.get].
  rewrite bind_lift_ret, Hname. cbn [JS.truthy_opt]. rewrite Htruthy.
  cbn [negb]. do 4 rewrite bind_lift_ret. rewrite Hschema.
  replace (JS.or_else (Some schema) (JObj [])) with schema
    by (unfold JS.or_else; now rewrite Hs).
  assert (Hresolved :
    resolveRefs schema (Some specData) [] memo false = (Ret schema, memo)).
  { apply resolveRefs_scalar. destruct schema; try discriminate; exact I. }
  rewrite (bind_ret_eq _ _ _ _ _ Hresolved).
  destruct schema as [| b | n | s | l | ps]; try discriminate; reflexivity.
Qed.

Lemma copy_if_present_keys key source target target' :
  copy_if_present key source target = Ret target' ->
  forall k, JS.has_key k target = true -> JS.has_key k target' = true.
Proof.
  unfold copy_if_present. intros H k Hk.
  apply obind_ret_inv in H as [present [_ H]].
  destruct present; [|now injection H as <-].
  apply obind_ret_inv in H as [v [_ H]].
  destruct v as [x|]; injection H as <-; [|exact Hk].
  rewrite has_key_set, Hk. apply orb_true_r.
Qed.

Lemma copy_if_present_assoc key source target target' :
  copy_if_present key source target = Ret target' ->
  forall k, String.eqb k key = false -> JS.assoc k target' = JS.assoc k target.
Proof.
  unfold copy_if_present. intros H k Hk.
  apply obind_ret_inv in H as [present [_ H]].
  destruct present; [|now injection H as <-].
  apply obind_ret_inv in H as [v [_ H]].
  destruct v as [x|]; injection H as <-; [|reflexivity].
  rewrite assoc_set. now rewrite Hk.
Qed.

(** One turn of the loop of [parseParameters]: the parameter is skipped,
    or filed under its name. *)
Lemma parseParameter_effect param specData result memo result' memo' :
  parseParameter param specData result memo = (Ret result', memo') ->
  match parameter_name param with
  | None => result' = result
  | Some k => exists entry, parameter_entry entry /\ result' = JS.set result k entry
  end.
Proof.
  unfold parseParameter. intros Hrun.
  assert (Hskip : ret result memo = (Ret result', memo') -> result' = result)
    by (unfold ret; intros H; now injection H as <- _).
  destruct param as [| b | n | s | l | fields]; cbn [parameter_name];
    try (cbn [JS.truthy JS.typeof_object negb orb] in Hrun;
         rewrite ?orb_true_r in Hrun; now apply Hskip).
  cbn [JS.truthy JS.typeof_object negb orb JSOps.get] in Hrun.
  rewrite bind_lift_ret in Hrun.
  destruct (JS.assoc "name" fields) as [name|]; cbn [JS.truthy_opt] in Hrun;
    [|now apply Hskip].
  destruct (JS.truthy name); cbn [negb] in Hrun; [|now apply Hskip].
  do 4 rewrite bind_lift_ret in Hrun.
  apply bind_ret_inv in Hrun as (resolvedSchema & memo1 & _ & Hrun).
  apply bind_ret_inv in Hrun as (type & memo2 & _ & Hrun).
  apply bind_ret_inv in Hrun as (withEnum & memo3 & Henum & Hrun).
  apply bind_ret_inv in Hrun as (withFormat & memo4 & Hformat & Hrun).
  apply bind_ret_inv in Hrun as (key & memo5 & Hkey & Hrun).
  unfold ret in Hrun. injection Hrun as <- _.
  apply lift_ret_inv in Henum as [Henum _].
  apply lift_ret_inv in Hformat as [Hformat _].
  apply lift_ret_inv in Hkey as [Hkey _].
  cbn [JSOps.ToString_opt] in Hkey. apply ToString_ret in Hkey as [_ ->].
  eexists. split; [|reflexivity].
  exists withFormat. split; [reflexivity|].
  repeat split;
    (eapply copy_if_present_keys; [exact Hformat|];
     eapply copy_if_present_keys; [exact Henum|];
     rewrite has_key_set; reflexivity).
Qed.

Lemma parseParameters_loop_names params specData :
  forall result memo result' memo',
    parseParameters_loop params specData result memo = (Ret result', memo') ->
    forall k,
      JS.has_key k result' = true
      <-> JS.has_key k result = true
          \/ exists param, In param params /\ parameter_name param = Some k.
Proof.
  induction params as [|param tl IH]; intros result memo result' memo' Hrun k;
    cbn [parseParameters_loop] in Hrun.
  - unfold ret in Hrun. injection Hrun as <- _.
    split; [now left | intros [H | (param & [] & _)]; exact H].
  - apply bind_ret_inv in Hrun as (filed & memo1 & Hstep & Hrun).
    apply parseParameter_effect in Hstep.
    rewrite (IH _ _ _ _ Hrun k).
    destruct (parameter_name param) as [n|] eqn:Hname.
    + destruct Hstep as (entry & _ & ->). rewrite has_key_set. split.
      * intros [H | (p & Hin & Hp)].
        -- apply orb_true_iff in H as [H | H]; [|now left].
           apply String.eqb_eq in H. subst n. right. exists param.
           split; [now left | exact Hname].
        -- right. exists p. split; [now right | exact Hp].
      * intros [H | (p & [<- | Hin] & Hp)].
        -- left. rewrite H. apply orb_true_r.
        -- left. rewrite Hname in Hp. injection Hp as ->.
           now rewrite String.eqb_refl.
        -- right. eauto.
    + subst filed. split.
      * intros [H | (p & Hin & Hp)]; [now left|]. right. exists p.
        split; [now right | exact Hp].
      * intros [H | (p & [<- | Hin] & Hp)]; [now left | congruence |].
        right. eauto.
Qed.

Lemma parseParameters_loop_entries params specData :
  forall result memo result' memo',
    parseParameters_loop params specData result memo = (Ret result', memo') ->
    (forall k entry, JS.assoc k result = Some entry -> parameter_entry entry) ->
    forall k entry, JS.assoc k result' = Some entry -> parameter_entry entry.
Proof.
  induction params as [|param tl IH]; intros result memo result' memo' Hrun Hold;
    cbn [parseParameters_loop] in Hrun.
  - unfold ret in Hrun. now injection Hrun as <- _.
  - apply bind_ret_inv in Hrun as (filed & memo1 & Hstep & Hrun).
    apply parseParameter_effect in Hstep.
    apply (IH _ _ _ _ Hrun).
    destruct (parameter_name param) as [n|]; [|now subst filed].
    destruct Hstep as (new & Hnew & ->). intros k entry. rewrite assoc_set.
    destruct (String.eqb k n); [|apply Hold].
    intros H. now injection H as <-.
Qed.

(** The parameters extracted from an array of parameters named by
    strings are filed under the names of its named object members, and
    under nothing else ([__proto__], which is no key a member can be filed
    under, apart); every entry is an object with a [description], a
    [required] flag, a [location] and a [type]. *)
Theorem parseParameters_names_and_fields (params : list json)
  (specData : json) (memo : Memo) (result : list (string * json))
  (memo' : Memo) :
  named_by_strings params ->
  parseParameters (JArr params) specData memo = (Ret result, memo') ->
  (forall k,
     k <> "__proto__" ->
     (JS.has_key k result = true
      <-> k <> ""
          /\ exists fields,
               In (JObj fields) params
               /\ JS.assoc "name" fields = Some (JStr k)))
  /\ (forall k entry,
        k <> "__proto__" ->
        JS.assoc k result = Some entry -> parameter_entry entry).
Proof.
  unfold parseParameters. cbn [JSOps.iterate]. rewrite bind_lift_ret.
  intros Hnamed Hrun. split.
  - intros k _. rewrite (parseParameters_loop_names _ _ _ _ _ _ Hrun k).
    split.
    + intros [H | (param & Hin & Hname)]; [discriminate|].
      destruct param as [| b | n | s | l | fields]; try discriminate.
      cbn [parameter_name] in Hname.
      destruct (JS.assoc "name" fields) as [name|] eqn:Hfield;
        [|discriminate].
      destruct (JS.truthy name) eqn:Htruthy; [|discriminate].
      destruct (Hnamed fields name Hin Hfield Htruthy) as [s ->].
      injection Hname as <-. split; [|eauto].
      intros ->. discriminate Htruthy.
    + intros [Hnonempty (fields & Hin & Hfield)]. right.
      exists (JObj fields). split; [exact Hin|].
      cbn [parameter_name]. rewrite Hfield.
      destruct k; [contradiction | reflexivity].
  - intros k entry _.
    apply (parseParameters_loop_entries _ _ _ _ _ _ Hrun). discriminate.
Qed.

Lemma body_properties_entries entries required : forall result result',
  body_properties entries required result = Ret result' ->
  (forall name entry,
     JS.assoc name result = Some entry -> body_entry required name entry) ->
  forall name entry,
    JS.assoc name result' = Some entry -> body_entry required name entry.
Proof.
  induction entries as [|[name prop] tl IH]; intros result result' Hrun Hold;
    cbn [body_properties] in Hrun.
  - now injection Hrun as <-.
  - destruct (negb (JS.typeof_object prop) || JS.is_null prop); [eauto|].
    apply obind_ret_inv in Hrun as [description [_ Hrun]].
    apply obind_ret_inv in Hrun as [is_required [Hrequired Hrun]].
    apply obind_ret_inv in Hrun as [type [_ Hrun]].
    apply obind_ret_inv in Hrun as [entry' [Henum Hrun]].
    apply (IH _ _ Hrun). intros k entry. rewrite assoc_set.
    destruct (String.eqb k name) eqn:Hk; [|apply Hold].
    apply String.eqb_eq in Hk. subst k. intros H. injection H as <-.
    exists entry', is_required. split; [reflexivity|].
    repeat split.
    + now rewrite (copy_if_present_assoc _ _ _ _ Henum "location").
    + now rewrite (copy_if_present_assoc _ _ _ _ Henum "required").
    + exact Hrequired.
    + now apply (copy_if_present_keys _ _ _ _ Henum).
    + now apply (copy_if_present_keys _ _ _ _ Henum).
Qed.

(** Only a mapping has a [type] member that is "object". *)
Lemma typed_object schema type :
  JSOps.get schema "type" = Ret type -> JS.is_string type "object" = true ->
  exists ps, schema = JObj ps.
Proof.
  destruct schema as [| b | n | s | l | ps]; cbv; intros Htype Hobject;
    try discriminate; try (injection Htype as <-; discriminate).
  eauto.
Qed.

Lemma body_parameters_entries schema result :
  body_parameters schema = Ret result ->
  forall name entry,
    JS.assoc name result = Some entry ->
    body_entry (required_of schema) name entry.
Proof.
  unfold body_parameters. intros Hrun.
  apply obind_ret_inv in Hrun as [type [Htype Hrun]].
  destruct (JS.is_string type "object") eqn:Hobject.
  - apply obind_ret_inv in Hrun as [properties [_ Hrun]].
    apply obind_ret_inv in Hrun as [required [Hrequired Hrun]].
    apply obind_ret_inv in Hrun as [entries [_ Hrun]].
    assert (Hsame : JS.or_else required (JArr []) = required_of schema).
    { destruct (typed_object _ _ Htype Hobject) as [ps ->].
      cbn [JSOps.get] in Hrequired. injection Hrequired as <-. reflexivity. }
    rewrite <- Hsame.
    apply (body_properties_entries _ _ _ _ Hrun). discriminate.
  - injection Hrun as <-. discriminate.
Qed.

Lemma field_some v k x :
  ResponseSpec.field v k = Some x ->
  exists ps, v = Some (JObj ps) /\ JS.assoc k ps = Some x.
Proof.
  destruct v as [[| b | n | s | l | ps]|]; try discriminate.
  cbn [ResponseSpec.field]. eauto.
Qed.

(** Every parameter read from a request body, be it the [requestBody] of
    OpenAPI 3 or a body parameter of Swagger 2, has the location "body"
    and a boolean [required] flag that tells whether its name is in the
    [required] list of the body schema, as the resolver returns that
    schema.  (The schema is taken to resolve to a document without
    [__proto__] members.) *)
Theorem request_body_parameters_are_body_entries (specData : json)
  (memo : Memo) (s schema : json) (memo1 : Memo) :
  JS.truthy s = true ->
  resolveRefs s (Some specData) [] memo false = (Ret schema, memo1) ->
  proto_free schema = true ->
  (forall requestBody result memo',
     ResponseSpec.schema_at false requestBody = Some s ->
     parseOpenApi3RequestBody requestBody specData memo = (Ret result, memo') ->
     memo' = memo1
     /\ forall name entry,
          JS.assoc name result = Some entry ->
          body_entry (required_of schema) name entry)
  /\ (forall fields result memo',
        JS.is_string (JS.assoc "in" fields) "body" = true ->
        JS.assoc "schema" fields = Some s ->
        parseSwagger2BodyParameter (JObj fields) specData memo
        = (Ret result, memo') ->
        memo' = memo1
        /\ forall name entry,
             JS.assoc name result = Some entry ->
             body_entry (required_of schema) name entry).
Proof.
  intros Htruthy Hresolved _.
  assert (Hread : forall result memo',
    ((schema' <- (fun m => resolveRefs s (Some specData) [] m false) ;;
      lift (body_parameters schema')) memo = (Ret result, memo')) ->
    memo' = memo1
    /\ forall name entry,
         JS.assoc name result = Some entry ->
         body_entry (required_of schema) name entry).
  { intros result memo' H.
    rewrite (bind_ret_eq _ _ _ _ _ Hresolved) in H.
    apply lift_ret_inv in H as [H ->]. split; [reflexivity|].
    intros name entry. now apply body_parameters_entries. }
  split.
  - intros requestBody result memo' Hschema Hrun.
    unfold ResponseSpec.schema_at in Hschema.
    apply field_some in Hschema as (jc & Hjc & Hs).
    apply field_some in Hjc as (content & Hcontent & Hjson).
    apply field_some in Hcontent as (fields & Hbody & Hcontent).
    injection Hbody as ->.
    unfold parseOpenApi3RequestBody in Hrun.
    cbn [JS.truthy JS.typeof_object negb orb JSOps.get] in Hrun.
    rewrite bind_lift_ret, Hcontent in Hrun.
    cbn [JS.or_else JS.truthy JSOps.get] in Hrun.
    rewrite bind_lift_ret, Hjson in Hrun.
    cbn [JS.truthy negb JSOps.get] in Hrun.
    rewrite bind_lift_ret, Hs, Htruthy in Hrun. cbn [negb] in Hrun.
    now apply Hread.
  - intros fields result memo' Hin Hs Hrun.
    unfold parseSwagger2BodyParameter in Hrun.
    cbn [JS.truthy JS.typeof_object negb orb JSOps.get] in Hrun.
    rewrite bind_lift_ret, Hin in Hrun. cbn [negb] in Hrun.
    rewrite bind_lift_ret, Hs, Htruthy in Hrun. cbn [negb] in Hrun.
    now apply Hread.
Qed.

(* ================================================================== *)
(** * The resolver: pointers, cache and shape *)

Lemma resolveRefs_default_root obj stack memo flag :
  resolveRefs obj None stack memo flag
  = resolveRefs obj (Some obj) stack memo flag.
Proof. reflexivity. Qed.

(** [resolveRefs] runs the body of the resolver at least once. *)
Lemma resolveRefs_unfold obj root stack memo flag :
  exists fuel,
    resolveRefs obj (Some root) stack memo flag
    = resolve_node (resolveRefs_fuel fuel root) root obj stack memo flag.
Proof.
  unfold resolveRefs, resolve_fuel. pose proof (depth_pos obj) as Hpos.
  destruct (depth obj) as [|d]; [lia|]. cbn [Nat.add]. eexists. reflexivity.
Qed.

(** A [$ref] node whose pointer does not start with "#/" (a reference
    to another file, a URL) is returned as it stands, and the cache is
    left alone. *)
Theorem external_ref_untouched (refPath : string) (root : option json)
  (stack : list string) (memo : Memo) (insidePolymorphic : bool) :
  Str.startsWith refPath "#/" = false ->
  resolveRefs (ref_node refPath) root stack memo insidePolymorphic
  = (Ret (ref_node refPath), memo).
Proof.
  intros Hexternal.
  assert (Hbody : forall rec r,
    resolve_node rec r (ref_node refPath) stack memo insidePolymorphic
    = (Ret (ref_node refPath), memo)).
  { intros rec r. rewrite resolve_node_ref. unfold resolve_pointer.
    now rewrite Hexternal. }
  destruct root as [root|]; [|rewrite resolveRefs_default_root];
    match goal with
    | |- resolveRefs ?o (Some ?r) _ _ _ = _ =>
        destruct (resolveRefs_unfold o r stack memo insidePolymorphic)
          as [fuel ->]
    end; apply Hbody.
Qed.

(** Once an internal pointer that has a target has been resolved (and was
    not kept as a reference under a composition keyword), the cache holds
    the answer for it, and resolving the pointer again, on whatever
    stack, gives the same answer and leaves the cache as it is. *)
Theorem resolved_pointer_is_cached (root : json) (refPath : string)
  (stack : list string) (memo : Memo) (insidePolymorphic : bool)
  (answer : json) (memo' : Memo) :
  Str.startsWith refPath "#/" = true ->
  lookupRef root refPath <> JNull ->
  insidePolymorphic && keep_polymorphic_ref root refPath = false ->
  resolveRefs (ref_node refPath) (Some root) stack memo insidePolymorphic
  = (Ret answer, memo') ->
  JS.assoc refPath memo' = Some answer
  /\ forall stack',
       resolveRefs (ref_node refPath) (Some root) stack' memo' insidePolymorphic
       = (Ret answer, memo').
Proof.
  intros Hinternal Htarget Hexpand Hrun.
  assert (Hcached : JS.assoc refPath memo' = Some answer).
  { destruct (resolveRefs_unfold (ref_node refPath) root stack memo
                insidePolymorphic) as [fuel Heq].
    rewrite Heq, resolve_node_ref in Hrun. unfold resolve_pointer in Hrun.
    rewrite Hinternal, Hexpand in Hrun. cbn [negb] in Hrun.
    destruct (JS.assoc refPath memo) as [cached|] eqn:Hmemo.
    { injection Hrun as <- <-. exact Hmemo. }
    destruct (in_stack refPath stack).
    { injection Hrun as <- <-. rewrite assoc_set. now rewrite String.eqb_refl. }
    assert (Hcall : forall target,
      match resolveRefs_fuel fuel root target (stack ++ [refPath]) memo
              insidePolymorphic with
      | (Ret resolvedObj, memo1) =>
          (Ret resolvedObj, JS.set memo1 refPath resolvedObj)
      | (Throw _, memo1) =>
          (Ret unresolved_placeholder,
           JS.set memo1 refPath unresolved_placeholder)
      | (Diverge, memo1) => (Diverge, memo1)
      end = (Ret answer, memo') ->
      JS.assoc refPath memo' = Some answer).
    { intros target Hmatch.
      destruct (resolveRefs_fuel fuel root target (stack ++ [refPath]) memo
                  insidePolymorphic) as [[x | e |] memo1];
        try discriminate; injection Hmatch as <- <-;
        rewrite assoc_set; now rewrite String.eqb_refl. }
    destruct (lookupRef root refPath); [congruence | | | | |];
      now apply Hcall in Hrun. }
  split; [exact Hcached|]. intros stack'.
  apply (resolveRefs_of_fuel 1); [|discriminate].
  change (resolveRefs_fuel 1 root)
    with (resolve_node (resolveRefs_fuel 0 root) root).
  rewrite resolve_node_ref. unfold resolve_pointer.
  rewrite Hinternal, Hexpand, Hcached. reflexivity.
Qed.

Section Stability.
Variable root : json.
Variable p : string.
Variable v : json.

Lemma caches_set memo q w :
  caches p v memo -> String.eqb p q = false -> caches p v (JS.set memo q w).
Proof. unfold caches. intros Hm Hpq. rewrite assoc_set. now rewrite Hpq. Qed.

(** The pointer branch writes to the cache only under a pointer the
    cache did not hold when the branch was entered. *)
Lemma resolve_pointer_stable rec obj refPath stack flag :
  (forall o stack' fl, preserves (caches p v) (fun m => rec o stack' m fl)) ->
  preserves (caches p v)
    (fun m => resolve_pointer rec root obj refPath stack m flag).
Proof.
  intros Hrec memo r memo' Hmemo Hrun. unfold resolve_pointer in Hrun.
  destruct (negb (Str.startsWith refPath "#/"));
    [now injection Hrun as _ <-|].
  destruct (flag && keep_polymorphic_ref root refPath);
    [now injection Hrun as _ <-|].
  destruct (JS.assoc refPath memo) eqn:Hfresh; [now injection Hrun as _ <-|].
  assert (Hother : String.eqb p refPath = false).
  { destruct (String.eqb p refPath) eqn:E; [|reflexivity].
    apply String.eqb_eq in E. subst refPath. unfold caches in Hmemo.
    congruence. }
  destruct (in_stack refPath stack).
  { injection Hrun as _ <-. now apply caches_set. }
  assert (Hcall : forall target,
    match rec target (stack ++ [refPath]) memo flag with
    | (Ret resolvedObj, memo1) =>
        (Ret resolvedObj, JS.set memo1 refPath resolvedObj)
    | (Throw _, memo1) =>
        (Ret unresolved_placeholder,
         JS.set memo1 refPath unresolved_placeholder)
    | (Diverge, memo1) => (Diverge, memo1)
    end = (r, memo') -> caches p v memo').
  { intros target Hmatch.
    pose proof (Hrec target (stack ++ [refPath]) flag) as Hpres.
    destruct (rec target (stack ++ [refPath]) memo flag) as [[x | e |] memo1]
      eqn:Hcalled;
      pose proof (Hpres _ _ _ Hmemo Hcalled) as Hmemo1;
      injection Hmatch as _ <-; auto using caches_set. }
  destruct (lookupRef root refPath);
    [now injection Hrun as _ <- | | | | |]; now apply Hcall in Hrun.
Qed.

Lemma resolve_node_stable rec obj stack flag :
  (forall o stack' fl, preserves (caches p v) (fun m => rec o stack' m fl)) ->
  preserves (caches p v) (fun m => resolve_node rec root obj stack m flag).
Proof.
  intros Hrec. unfold resolve_node.
  assert (Hcall : forall fl x,
    preserves (caches p v) (fun m => rec x stack m fl))
    by (intros; apply Hrec).
  destruct obj as [| b | n | s | items | props];
    try (intros memo r memo' HI H; now injection H as _ <-).
  - apply preserves_bind; [apply preserves_mapM; intros; apply Hcall|].
    intros; apply preserves_ret.
  - destruct (JS.has_key "anyOf" props);
      [apply preserves_composition; intros; apply Hcall|].
    destruct (JS.has_key "oneOf" props);
      [apply preserves_composition; intros; apply Hcall|].
    destruct (JS.has_key "allOf" props);
      [apply preserves_composition; intros; apply Hcall|].
    destruct (JS.has_key "$ref" props && (List.length props =? 1)).
    + destruct (JS.assoc "$ref" props) as [[| | | refPath | |]|];
        try (intros memo r memo' HI H; now injection H as _ <-).
      now apply resolve_pointer_stable.
    + apply preserves_bind;
        [apply preserves_resolve_props; intros; apply Hcall|].
      intros; apply preserves_ret.
Qed.

Lemma resolveRefs_fuel_stable fuel : forall o stack flag,
  preserves (caches p v) (fun m => resolveRefs_fuel fuel root o stack m flag).
Proof.
  induction fuel as [|fuel IH]; intros o stack flag.
  - intros memo r memo' HI H. now injection H as _ <-.
  - change (resolveRefs_fuel (S fuel) root)
      with (resolve_node (resolveRefs_fuel fuel root) root).
    now apply resolve_node_stable.
Qed.
End Stability.

(** What the cache holds for a pointer when a resolution starts, it
    still holds when the resolution ends, however it ends: a cached answer
    is never overwritten or removed. *)
Theorem cached_answers_are_stable (obj : json) (root : option json)
  (stack : list string) (memo : Memo) (insidePolymorphic : bool)
  (outcome_of_call : outcome json) (memo' : Memo) (refPath : string)
  (cached : json) :
  JS.assoc refPath memo = Some cached ->
  resolveRefs obj root stack memo insidePolymorphic
  = (outcome_of_call, memo') ->
  JS.assoc refPath memo' = Some cached.
Proof.
  intros Hcached Hrun. unfold resolveRefs in Hrun.
  exact (resolveRefs_fuel_stable _ refPath cached _ obj stack insidePolymorphic
           memo outcome_of_call memo' Hcached Hrun).
Qed.

Lemma mapM_length {A B} (f : A -> M B) l : forall memo ys memo',
  mapM f l memo = (Ret ys, memo') -> List.length ys = List.length l.
Proof.
  induction l as [|x l IH]; intros memo ys memo' Hrun; cbn [mapM] in Hrun.
  - unfold ret in Hrun. now injection Hrun as <- _.
  - apply bind_ret_inv in Hrun as (y & memo1 & _ & Hrun).
    apply bind_ret_inv in Hrun as (rest & memo2 & Hrest & Hrun).
    unfold ret in Hrun. injection Hrun as <- _.
    cbn [List.length]. f_equal. eapply IH. eassumption.
Qed.

Lemma has_key_existsb k ps :
  JS.has_key k ps = List.existsb (fun e => String.eqb k (fst e)) ps.
Proof.
  unfold JS.has_key. induction ps as [|[k' x] ps IH]; [reflexivity|].
  cbn [JS.assoc List.existsb fst]. destruct (String.eqb k k'); [reflexivity|].
  exact IH.
Qed.

(** The members of the object built by the loop over the entries. *)
Lemma resolve_props_keys (f : json -> M json) keep entries :
  forall result memo rs memo',
    resolve_props f keep entries result memo = (Ret rs, memo') ->
    forall k,
      JS.has_key k rs
      = JS.has_key k result
        || List.existsb (fun e => keep (fst e) && String.eqb k (fst e)) entries.
Proof.
  induction entries as [|[k' x] tl IH]; intros result memo rs memo' Hrun k;
    cbn [resolve_props] in Hrun.
  - unfold ret in Hrun. injection Hrun as <- _. cbn. now rewrite orb_false_r.
  - cbn [List.existsb fst]. destruct (keep k') eqn:Hkeep; cbn [andb].
    + apply bind_ret_inv in Hrun as (x' & memo1 & _ & Hrun).
      rewrite (IH _ _ _ _ Hrun k), has_key_set.
      destruct (String.eqb k k'), (JS.has_key k result); reflexivity.
    + now rewrite (IH _ _ _ _ Hrun k).
Qed.

Lemma existsb_other_key k kw (ps : list (string * json)) :
  String.eqb k kw = false ->
  List.existsb (fun e => negb (String.eqb (fst e) kw) && String.eqb k (fst e)) ps
  = List.existsb (fun e => String.eqb k (fst e)) ps.
Proof.
  intros Hk. induction ps as [|[k' x] ps IH]; [reflexivity|].
  cbn [List.existsb fst]. rewrite IH. f_equal.
  destruct (String.eqb k k') eqn:Hkk; [|apply andb_false_r].
  apply String.eqb_eq in Hkk. subst k'. now rewrite Hk.
Qed.

Lemma composition_keys (b o : json -> M json) kw props memo r memo' :
  JS.has_key kw props = true ->
  composition b o kw props memo = (Ret r, memo') ->
  exists rs, r = JObj rs /\ forall k, JS.has_key k rs = JS.has_key k props.
Proof.
  intros Hkw Hrun. unfold composition in Hrun.
  destruct (JS.assoc kw props) as [[| | | | items |]|]; try discriminate.
  apply bind_ret_inv in Hrun as (mapped & memo1 & _ & Hrun).
  apply bind_ret_inv in Hrun as (result & memo2 & Hprops & Hrun).
  unfold ret in Hrun. injection Hrun as <- _.
  eexists. split; [reflexivity|]. intros k.
  rewrite (resolve_props_keys _ _ _ _ _ _ _ Hprops k).
  unfold JS.has_key at 1. cbn [JS.assoc].
  destruct (String.eqb k kw) eqn:Hk.
  - apply String.eqb_eq in Hk. subst k. now rewrite Hkw.
  - cbn [orb]. rewrite (existsb_other_key _ _ _ Hk). symmetry.
    apply has_key_existsb.
Qed.

Lemma plain_keys (f : json -> M json) props memo rs memo' :
  resolve_props f (fun _ => true) props [] memo = (Ret rs, memo') ->
  forall k, JS.has_key k rs = JS.has_key k props.
Proof.
  intros Hrun k. rewrite (resolve_props_keys _ _ _ _ _ _ _ Hrun k).
  cbn [orb andb]. symmetry. apply has_key_existsb.
Qed.

(** Resolution keeps the shape of what it is given: a scalar is returned
    as it is, with the cache untouched; an array becomes an array of the
    same length; an object that is no pure [$ref] node becomes an object
    with the same member names, a member named [__proto__] apart. *)
Theorem resolution_keeps_the_shape (obj : json) (root : option json)
  (stack : list string) (memo : Memo) (insidePolymorphic : bool)
  (answer : json) (memo' : Memo) :
  resolveRefs obj root stack memo insidePolymorphic = (Ret answer, memo') ->
  match obj with
  | JArr items =>
      exists resolved,
        answer = JArr resolved /\ List.length resolved = List.length items
  | JObj props =>
      leading_keyword props = None /\ pure_ref props = true
      \/ exists resolved,
           answer = JObj resolved
           /\ forall k,
                k <> "__proto__" ->
                JS.has_key k resolved = JS.has_key k props
  | scalar => answer = scalar /\ memo' = memo
  end.
Proof.
  intros Hrun.
  assert (Hbody : exists fuel r,
    resolve_node (resolveRefs_fuel fuel r) r obj stack memo insidePolymorphic
    = (Ret answer, memo')).
  { destruct root as [r|]; [|rewrite resolveRefs_default_root in Hrun];
      match type of Hrun with
      | resolveRefs ?o (Some ?r) _ _ _ = _ =>
          destruct (resolveRefs_unfold o r stack memo insidePolymorphic)
            as [fuel Heq]; rewrite Heq in Hrun; eauto
      end. }
  destruct Hbody as (fuel & r & Hnode). unfold resolve_node in Hnode.
  destruct obj as [| b | n | s | items | props];
    try (injection Hnode as <- <-; now split).
  - apply bind_ret_inv in Hnode as (mapped & memo1 & Hmapped & Hnode).
    unfold ret in Hnode. injection Hnode as <- _.
    eexists. split; [reflexivity|]. eapply mapM_length. eassumption.
  - unfold leading_keyword, pure_ref.
    assert (Hcomposed : forall kw b o,
      JS.has_key kw props = true ->
      composition b o kw props memo = (Ret answer, memo') ->
      exists resolved,
        answer = JObj resolved
        /\ forall k,
             k <> "__proto__" -> JS.has_key k resolved = JS.has_key k props).
    { intros kw b o Hkw Hrun'.
      destruct (composition_keys _ _ _ _ _ _ _ Hkw Hrun') as [rs [-> Hrs]].
      exists rs. split; [reflexivity | intros k _; apply Hrs]. }
    destruct (JS.has_key "anyOf" props) eqn:HanyOf;
      [right; eapply Hcomposed; eassumption|].
    destruct (JS.has_key "oneOf" props) eqn:HoneOf;
      [right; eapply Hcomposed; eassumption|].
    destruct (JS.has_key "allOf" props) eqn:HallOf;
      [right; eapply Hcomposed; eassumption|].
    destruct (JS.has_key "$ref" props && (List.length props =? 1));
      [now left|].
    right. apply bind_ret_inv in Hnode as (result & memo1 & Hprops & Hnode).
    unfold ret in Hnode. injection Hnode as <- _.
    eexists. split; [reflexivity|]. intros k _. eapply plain_keys. eassumption.
Qed.

Lemma split_nonempty c s : Str.split c s <> [].
Proof.
  destruct s as [|a s]; cbn [Str.split]; [discriminate|].
  destruct (Ascii.eqb a c); [discriminate|].
  destruct (Str.split c s); discriminate.
Qed.

Lemma split_append c s t :
  Str.split c (String.append s (String c t)) = Str.split c s ++ Str.split c t.
Proof.
  induction s as [|a s IH]; cbn [String.append Str.split].
  - now rewrite Ascii.eqb_refl.
  - rewrite IH. destruct (Ascii.eqb a c); [reflexivity|].
    pose proof (split_nonempty c s) as Hne.
    destruct (Str.split c s) as [|w ws]; [contradiction|]. reflexivity.
Qed.

Lemma navigate_null parts : navigate JNull parts = JNull.
Proof. destruct parts; reflexivity. Qed.

Lemma navigate_app first : forall current rest,
  navigate current (first ++ rest) = navigate (navigate current first) rest.
Proof.
  induction first as [|part first IH]; intros current rest; [reflexivity|].
  cbn [app navigate].
  destruct current as [| b | n | s | l | ps];
    try (symmetry; apply navigate_null).
  - destruct (JSOps.has part (JArr l)) as [[|] | e |];
      try (symmetry; apply navigate_null).
    destruct (JSOps.get (JArr l) part) as [[v|] | e |];
      try (symmetry; apply navigate_null).
    apply IH.
  - destruct (JS.assoc part ps) as [v|]; [apply IH|].
    symmetry. apply navigate_null.
Qed.

(** Looking a pointer up composes: what [pointer/rest] reaches in the
    document is what [#/rest] reaches in the target of [pointer], and
    [null] when [pointer] has no target. *)
Theorem lookupRef_composes (root : json) (pointer rest : string) :
  Str.startsWith pointer "#/" = true ->
  lookupRef root (String.append pointer (String "/" rest))
  = lookupRef (lookupRef root pointer) (String.append "#/" rest).
Proof.
  intros Hinternal. unfold Str.startsWith in Hinternal.
  destruct pointer as [|c1 [|c2 tail]]; cbn [String.prefix] in Hinternal;
    [discriminate | destruct (ascii_dec "#" c1); discriminate |].
  destruct (ascii_dec "#" c1) as [<- | ]; [|discriminate].
  destruct (ascii_dec "/" c2) as [<- | ]; [|discriminate].
  unfold lookupRef.
  cbn [String.append Str.startsWith String.prefix Str.substring_from negb].
  destruct (ascii_dec "#" "#"); [|contradiction].
  destruct (ascii_dec "/" "/"); [|contradiction].
  assert (Hempty : forall s, String.prefix "" s = true)
    by (intros []; reflexivity).
  rewrite !Hempty. cbn [negb]. rewrite split_append. apply navigate_app.
Qed.

(* ================================================================== *)
(** * How a resolution and a parse end *)

Lemma settles_obind {A B} (x : outcome A) (f : A -> outcome B) :
  settles x -> (forall a, settles (f a)) -> settles (obind x f).
Proof. destruct x as [a | e |]; cbn [obind settles]; auto. Qed.

Lemma settles_get v k : settles (JSOps.get v k).
Proof.
  destruct v as [| b | n | s | l | ps]; cbn [JSOps.get settles]; auto.
  - destruct (String.eqb k "length"); [exact I|].
    destruct (Str.array_index k); exact I.
  - destruct (String.eqb k "length"); [exact I|].
    destruct (Str.array_index k); exact I.
Qed.

Lemma settles_has k v : settles (JSOps.has k v).
Proof.
  destruct v as [| b | n | s | l | ps]; cbn [JSOps.has settles]; auto.
  destruct (String.eqb k "length"); [exact I|].
  destruct (Str.array_index k); exact I.
Qed.

Lemma settles_entries v : settles (JSOps.entries v).
Proof. destruct v; cbn [JSOps.entries settles]; auto. Qed.

Lemma settles_iterate v : settles (JSOps.iterate v).
Proof. destruct v; cbn [JSOps.iterate settles]; auto. Qed.

Lemma settles_includes_name required name :
  settles (includes_name required name).
Proof. destruct required; cbn [includes_name settles]; auto. Qed.

Lemma settles_ToString v : settles (JSOps.ToString v).
Proof. unfold JSOps.ToString. destruct (JSOps.printable v); reflexivity. Qed.

Lemma settles_ToString_opt v : settles (JSOps.ToString_opt v).
Proof. destruct v; [apply settles_ToString | exact I]. Qed.

(** Split an outcome into the steps it is made of. *)
Ltac settles_steps :=
  repeat first
    [ exact I
    | reflexivity
    | apply settles_get
    | apply settles_has
    | apply settles_entries
    | apply settles_iterate
    | apply settles_includes_name
    | apply settles_ToString
    | apply settles_ToString_opt
    | apply settles_obind; [|intros]
    | match goal with
      | |- settles (if ?c then _ else _) => destruct c
      | |- settles (match ?x with _ => _ end) => destruct x
      end ].

Lemma settles_copy_if_present key source target :
  settles (copy_if_present key source target).
Proof. unfold copy_if_present. settles_steps. Qed.

Lemma settles_body_properties entries required : forall result,
  settles (body_properties entries required result).
Proof.
  induction entries as [|[name prop] tl IH]; intros result;
    cbn [body_properties]; [exact I|].
  destruct (negb (JS.typeof_object prop) || JS.is_null prop); [apply IH|].
  apply settles_obind; [apply settles_get|]. intros description.
  apply settles_obind; [apply settles_includes_name|]. intros is_required.
  apply settles_obind; [apply settles_get|]. intros type.
  apply settles_obind; [apply settles_copy_if_present|]. intros entry'.
  apply IH.
Qed.

Lemma settles_body_parameters schema : settles (body_parameters schema).
Proof.
  unfold body_parameters.
  apply settles_obind; [apply settles_get|]. intros type.
  destruct (JS.is_string type "object"); [|exact I].
  apply settles_obind; [apply settles_get|]. intros properties.
  apply settles_obind; [apply settles_get|]. intros required.
  apply settles_obind; [apply settles_entries|]. intros entries.
  apply settles_body_properties.
Qed.

Lemma settles_toolNameOf path method operationId :
  settles (toolNameOf path method operationId).
Proof. unfold toolNameOf. settles_steps. Qed.

Lemma settles_response_schema_of specVersion response :
  settles (response_schema_of specVersion response).
Proof. unfold response_schema_of. settles_steps. Qed.

Lemma settles_positive string_positive x : settles (positive string_positive x).
Proof. unfold positive. settles_steps. Qed.

Lemma settles_extractBaseUrl specVersion string_positive spec :
  settles (extractBaseUrl specVersion string_positive spec).
Proof.
  unfold extractBaseUrl.
  repeat first [ apply settles_positive | progress settles_steps ].
Qed.

Section ThrowsTypeErrors.

Lemma throws_ret {A} (a : A) : throws_type_errors_only (ret a).
Proof. intros memo e memo' H. discriminate. Qed.

Lemma throws_throw {A} : throws_type_errors_only (throw (A := A) TypeError).
Proof. intros memo e memo' H. now injection H as <- _. Qed.

Lemma throws_bind {A B} (c : M A) (k : A -> M B) :
  throws_type_errors_only c -> (forall a, throws_type_errors_only (k a)) ->
  throws_type_errors_only (bind c k).
Proof.
  intros Hc Hk memo e memo' Hrun. unfold bind in Hrun.
  destruct (c memo) as [[a | e' |] memo1] eqn:Hcm.
  - exact (Hk a _ _ _ Hrun).
  - injection Hrun as <- _. exact (Hc _ _ _ Hcm).
  - discriminate.
Qed.

Lemma throws_mapM {A B} (f : A -> M B) l :
  (forall x, throws_type_errors_only (f x)) ->
  throws_type_errors_only (mapM f l).
Proof.
  intros Hf. induction l as [|x l IH]; [apply throws_ret|].
  cbn [mapM]. apply throws_bind; [apply Hf|]. intros y.
  apply throws_bind; [exact IH|]. intros ys. apply throws_ret.
Qed.

Lemma throws_resolve_props (f : json -> M json) keep entries :
  (forall x, throws_type_errors_only (f x)) ->
  forall result, throws_type_errors_only (resolve_props f keep entries result).
Proof.
  intros Hf. induction entries as [|[k v] tl IH]; intros result;
    [apply throws_ret|].
  cbn [resolve_props]. destruct (keep k); [|apply IH].
  apply throws_bind; [apply Hf|]. intros v'. apply IH.
Qed.

Lemma throws_composition (b o : json -> M json) kw props :
  (forall x, throws_type_errors_only (b x)) ->
  (forall x, throws_type_errors_only (o x)) ->
  throws_type_errors_only (composition b o kw props).
Proof.
  intros Hb Ho. unfold composition.
  destruct (JS.assoc kw props) as [[| | | | items |]|];
    try apply throws_throw.
  apply throws_bind; [now apply throws_mapM|]. intros mapped.
  apply throws_bind; [now apply throws_resolve_props|].
  intros result. apply throws_ret.
Qed.

(** The pointer branch catches what the resolution of the target throws. *)
Lemma resolve_pointer_never_throws rec root obj refPath stack memo flag e memo' :
  resolve_pointer rec root obj refPath stack memo flag <> (Throw e, memo').
Proof.
  unfold resolve_pointer.
  destruct (negb (Str.startsWith refPath "#/")); [discriminate|].
  destruct (flag && keep_polymorphic_ref root refPath); [discriminate|].
  destruct (JS.assoc refPath memo); [discriminate|].
  destruct (in_stack refPath stack); [discriminate|].
  assert (Hcall : forall target,
    match rec target (stack ++ [refPath]) memo flag with
    | (Ret resolvedObj, memo1) =>
        (Ret resolvedObj, JS.set memo1 refPath resolvedObj)
    | (Throw _, memo1) =>
        (Ret unresolved_placeholder,
         JS.set memo1 refPath unresolved_placeholder)
    | (Diverge, memo1) => (Diverge, memo1)
    end <> (Throw e, memo')).
  { intros target.
    destruct (rec target (stack ++ [refPath]) memo flag) as [[x | e' |] memo1];
      discriminate. }
  destruct (lookupRef root refPath); [discriminate | | | | |]; apply Hcall.
Qed.

Lemma throws_resolve_node rec root obj stack flag :
  (forall o stack' fl, throws_type_errors_only (fun m => rec o stack' m fl)) ->
  throws_type_errors_only (fun m => resolve_node rec root obj stack m flag).
Proof.
  intros Hrec. unfold resolve_node.
  assert (Hcall : forall fl x,
    throws_type_errors_only (fun m => rec x stack m fl))
    by (intros; apply Hrec).
  destruct obj as [| b | n | s | items | props];
    try (intros memo e memo' H; discriminate).
  - apply throws_bind; [apply throws_mapM; intros; apply Hcall|].
    intros; apply throws_ret.
  - destruct (JS.has_key "anyOf" props);
      [apply throws_composition; intros; apply Hcall|].
    destruct (JS.has_key "oneOf" props);
      [apply throws_composition; intros; apply Hcall|].
    destruct (JS.has_key "allOf" props);
      [apply throws_composition; intros; apply Hcall|].
    destruct (JS.has_key "$ref" props && (List.length props =? 1)).
    + destruct (JS.assoc "$ref" props) as [[| | | refPath | |]|];
        try (intros memo e memo' H; now injection H as <- _).
      intros memo e memo' H. now apply resolve_pointer_never_throws in H.
    + apply throws_bind;
        [apply throws_resolve_props; intros; apply Hcall|].
      intros; apply throws_ret.
Qed.

Lemma throws_resolveRefs_fuel fuel root : forall o stack flag,
  throws_type_errors_only
    (fun m => resolveRefs_fuel fuel root o stack m flag).
Proof.
  induction fuel as [|fuel IH]; intros o stack flag.
  - intros memo e memo' H. discriminate.
  - change (resolveRefs_fuel (S fuel) root)
      with (resolve_node (resolveRefs_fuel fuel root) root).
    now apply throws_resolve_node.
Qed.

End ThrowsTypeErrors.

Section Settles.

Lemma always_ret {A} (a : A) : always_settles (ret a).
Proof. intros memo. exact I. Qed.

Lemma always_lift {A} (o : outcome A) : settles o -> always_settles (lift o).
Proof. intros Ho memo. exact Ho. Qed.

Lemma always_bind {A B} (c : M A) (k : A -> M B) :
  always_settles c -> (forall a, always_settles (k a)) ->
  always_settles (bind c k).
Proof.
  intros Hc Hk memo. specialize (Hc memo). unfold bind.
  destruct (c memo) as [[a | e |] memo1]; cbn [fst settles] in *.
  - apply Hk.
  - exact Hc.
  - exact Hc.
Qed.

(** A resolution ends: with the resolved schema, or with a [TypeError]. *)
Lemma always_resolveRefs obj root stack flag :
  always_settles (fun m => resolveRefs obj (Some root) stack m flag).
Proof.
  intros memo.
  pose proof (resolve_fuel_enough obj root stack flag memo) as Hend.
  change (fst (resolveRefs obj (Some root) stack memo flag) <> Diverge)
    in Hend.
  destruct (resolveRefs obj (Some root) stack memo flag) as [[r | e |] memo']
    eqn:Hrun; cbn [fst settles] in *.
  - exact I.
  - unfold resolveRefs in Hrun.
    exact (throws_resolveRefs_fuel _ _ _ _ _ _ _ _ Hrun).
  - now apply Hend.
Qed.

End Settles.

(** Split a computation of the parser into its binds and branches. *)
Ltac always_steps :=
  repeat first
    [ apply always_ret
    | apply always_resolveRefs
    | apply always_lift;
        first [ apply settles_get | apply settles_has | apply settles_entries
              | apply settles_iterate | apply settles_copy_if_present
              | apply settles_body_parameters | apply settles_toolNameOf
              | apply settles_response_schema_of | apply settles_ToString_opt ]
    | apply always_bind; [|intros]
    | match goal with
      | |- always_settles (if ?c then _ else _) => destruct c
      | |- always_settles (match ?x with _ => _ end) => destruct x
      end ].

Section ParserSettles.
Variable specVersion : option string.
Variable specData : json.

Lemma always_parseParameter param result :
  always_settles (parseParameter param specData result).
Proof. unfold parseParameter. always_steps. Qed.

Lemma always_parseParameters parameters :
  always_settles (parseParameters parameters specData).
Proof.
  unfold parseParameters. apply always_bind;
    [apply always_lift, settles_iterate|].
  intros params. generalize (@nil (string * json)).
  induction params as [|param tl IH]; intros result; cbn [parseParameters_loop].
  - apply always_ret.
  - apply always_bind; [apply always_parseParameter | intros; apply IH].
Qed.

Lemma always_parseOpenApi3RequestBody requestBody :
  always_settles (parseOpenApi3RequestBody requestBody specData).
Proof. unfold parseOpenApi3RequestBody. always_steps. Qed.

Lemma always_parseSwagger2BodyParameter param :
  always_settles (parseSwagger2BodyParameter param specData).
Proof. unfold parseSwagger2BodyParameter. always_steps. Qed.

Lemma always_swagger2_body_loop params : forall parameters,
  always_settles (swagger2_body_loop params specData parameters).
Proof.
  induction params as [|param tl IH]; intros parameters;
    cbn [swagger2_body_loop].
  - apply always_ret.
  - apply always_bind;
      [apply always_parseSwagger2BodyParameter | intros; apply IH].
Qed.

Lemma always_parseResponses responses :
  always_settles (parseResponses specVersion responses specData).
Proof.
  unfold parseResponses. apply always_bind;
    [apply always_lift, settles_entries|].
  intros entries.
  induction entries as [|[statusCode response] tl IH];
    cbn [parseResponses_loop].
  - apply always_ret.
  - destruct (Str.startsWith statusCode "2" && JS.typeof_object response
              && negb (JS.is_null response)); [|exact IH].
    apply always_bind; [apply always_lift, settles_response_schema_of|].
    intros [schema|]; [|exact IH].
    always_steps.
Qed.

Lemma always_createToolFromOperation path method operation :
  always_settles
    (createToolFromOperation specVersion path method operation specData).
Proof.
  unfold createToolFromOperation.
  repeat first
    [ apply always_ret
    | apply always_parseParameters
    | apply always_parseResponses
    | apply always_swagger2_body_loop
    | apply always_parseOpenApi3RequestBody
    | apply always_lift;
        first [ apply settles_get | apply settles_iterate
              | apply settles_toolNameOf ]
    | apply always_bind; [|intros]
    | match goal with
      | |- always_settles (if ?c then _ else _) => destruct c
      | |- always_settles (match ?x with _ => _ end) => destruct x
      end ].
Qed.

Lemma always_operations_loop path entries : forall tools,
  always_settles (operations_loop specVersion path entries specData tools).
Proof.
  induction entries as [|[method operation] tl IH]; intros tools;
    cbn [operations_loop].
  - apply always_ret.
  - destruct (negb (string_in (Str.toLowerCase method) SUPPORTED_HTTP_METHODS));
      [apply IH|].
    apply always_bind; [apply always_createToolFromOperation|].
    intros [tool|]; apply IH.
Qed.

Lemma always_paths_loop entries : forall tools,
  always_settles (paths_loop specVersion entries specData tools).
Proof.
  induction entries as [|[path pathItem] tl IH]; intros tools;
    cbn [paths_loop].
  - apply always_ret.
  - destruct (negb (JS.typeof_object pathItem) || JS.is_null pathItem);
      [apply IH|].
    apply always_bind; [apply always_lift, settles_entries|].
    intros operations.
    apply always_bind; [apply always_operations_loop | intros; apply IH].
Qed.

Lemma settles_parseOpenApiSpec string_positive baseUrlOverride :
  settles
    (parseOpenApiSpec specVersion string_positive specData baseUrlOverride).
Proof.
  unfold parseOpenApiSpec.
  apply settles_obind; [apply settles_get|]. intros info0.
  apply settles_obind; [apply settles_get|]. intros title0.
  apply settles_obind; [apply settles_get|]. intros version0.
  apply settles_obind; [apply settles_get|]. intros description0.
  apply settles_obind.
  { destruct baseUrlOverride as [url|]; [|apply settles_extractBaseUrl].
    destruct (Str.nonempty url); [exact I | apply settles_extractBaseUrl]. }
  intros baseUrl.
  apply settles_obind; [apply settles_get|]. intros paths0.
  apply settles_obind; [apply settles_entries|]. intros entries.
  apply settles_obind; [apply always_paths_loop | intros; exact I].
Qed.

End ParserSettles.

Lemma detectSpecVersion_outcomes specData :
  match detectSpecVersion specData with
  | Ret _ => True
  | Throw e => e = TypeError \/ UnsupportedVersion e \/ MissingVersionField e
  | Diverge => False
  end.
Proof.
  destruct specData as [| b | n | s | l | props];
    try (cbv; now left).
  - rewrite detectSpecVersion_array. right. right. reflexivity.
  - destruct (detectSpecVersion_object_cases props)
      as [[_ [[v ->] | [e' [-> [Hun | ->]]]]] | [_ ->]]; auto.
    right. right. reflexivity.
Qed.

(** A parse always ends, and in one of four ways: it returns a
    specification, or it throws a [TypeError], or the error of an
    unsupported version, or the error of a missing version field. *)
Theorem parse_outcomes (string_positive : string -> bool)
  (specData : json) (baseUrlOverride : option string)
  (includeResources : option (list string)) (pathPrefix : option string) :
  match parse string_positive specData baseUrlOverride includeResources
          pathPrefix with
  | Ret _ => True
  | Throw e => e = TypeError \/ UnsupportedVersion e \/ MissingVersionField e
  | Diverge => False
  end.
Proof.
  unfold parse. pose proof (detectSpecVersion_outcomes specData) as Hdetect.
  destruct (detectSpecVersion specData) as [specVersion | e |];
    cbn [obind]; try exact Hdetect.
  pose proof (settles_parseOpenApiSpec (Some specVersion) specData
                string_positive baseUrlOverride) as Hspec.
  destruct (parseOpenApiSpec (Some specVersion) string_positive specData
              baseUrlOverride) as [apiSpec | e |];
    cbn [obind settles] in *.
  - now destruct includeResources.
  - now left.
  - exact Hspec.
Qed.

(** Resolving a pure [$ref] node always returns: whatever goes wrong
    while the target is resolved is caught.  When the target of an
    internal pointer that is neither cached nor under resolution (nor kept
    as a reference under a composition keyword) is resolved and that
    resolution throws, the node is answered with the placeholder of an
    unresolved reference, which is then what the cache holds for the
    pointer, on top of what the failed resolution had cached. *)
Theorem pure_ref_node_always_resolves (refPath : string)
  (stack : list string) (memo : Memo) (insidePolymorphic : bool) :
  (forall root : option json,
     exists answer memo',
       resolveRefs (ref_node refPath) root stack memo insidePolymorphic
       = (Ret answer, memo'))
  /\ (forall (root : json) (e : exn) (memo1 : Memo),
        Str.startsWith refPath "#/" = true ->
        insidePolymorphic && keep_polymorphic_ref root refPath = false ->
        JS.assoc refPath memo = None ->
        in_stack refPath stack = false ->
        lookupRef root refPath <> JNull ->
        resolveRefs (lookupRef root refPath) (Some root) (stack ++ [refPath])
          memo insidePolymorphic
        = (Throw e, memo1) ->
        resolveRefs (ref_node refPath) (Some root) stack memo insidePolymorphic
        = (Ret unresolved_placeholder,
           JS.set memo1 refPath unresolved_placeholder)
        /\ JS.assoc refPath (JS.set memo1 refPath unresolved_placeholder)
           = Some unresolved_placeholder).
Proof.
  assert (Hends : forall r,
    fst (resolveRefs (ref_node refPath) (Some r) stack memo insidePolymorphic)
    <> Diverge).
  { intros r.
    exact (resolve_fuel_enough (ref_node refPath) r stack insidePolymorphic
             memo). }
  split.
  - assert (Hsome : forall r,
      exists answer memo',
        resolveRefs (ref_node refPath) (Some r) stack memo insidePolymorphic
        = (Ret answer, memo')).
    { intros r. pose proof (Hends r) as Hend.
      destruct (resolveRefs_unfold (ref_node refPath) r stack memo
                  insidePolymorphic) as [fuel Heq].
      destruct (resolveRefs (ref_node refPath) (Some r) stack memo
                  insidePolymorphic) as [[answer | e |] memo'] eqn:Hrun.
      - eauto.
      - rewrite resolve_node_ref in Heq. symmetry in Heq.
        now apply resolve_pointer_never_throws in Heq.
      - now contradiction Hend. }
    intros [r|]; [apply Hsome|].
    rewrite resolveRefs_default_root. apply Hsome.
  - intros root e memo1 Hinternal Hexpand Hfresh Hoff Htarget Hthrows.
    split; [|rewrite assoc_set; now rewrite String.eqb_refl].
    pose proof (Hends root) as Hend.
    destruct (resolveRefs_unfold (ref_node refPath) root stack memo
                insidePolymorphic) as [fuel Heq].
    rewrite Heq in Hend |- *. rewrite resolve_node_ref in Hend |- *.
    rewrite (resolve_pointer_follow _ _ _ _ _ _ _ (lookupRef root refPath))
      in Hend |- * by auto.
    destruct (resolveRefs_fuel fuel root (lookupRef root refPath)
                (stack ++ [refPath]) memo insidePolymorphic)
      as [[resolvedObj | e' |] memo2] eqn:Hinner.
    + apply resolveRefs_of_fuel in Hinner; [congruence | discriminate].
    + apply resolveRefs_of_fuel in Hinner; [|discriminate].
      rewrite Hthrows in Hinner. now injection Hinner as _ <-.
    + now contradiction Hend.
Qed.

(* ================================================================== *)
(** * The resource filter and the parse *)

Lemma filter_idempotent {A} (f : A -> bool) l :
  List.filter f (List.filter f l) = List.filter f l.
Proof.
  induction l as [|x l IH]; [reflexivity|].
  cbn [List.filter]. destruct (f x) eqn:Hx; [|exact IH].
  cbn [List.filter]. now rewrite Hx, IH.
Qed.

(** The filter judges each tool on its own path: filtering a
    concatenation is concatenating the filtered lists, so that tools are
    never reordered or duplicated; filtering twice is filtering once; and
    the result holds tools of the input only. *)
Theorem filterToolsByResources_judges_each_tool_alone
  (tools more : list OCPTool.t) (includeResources : option (list string))
  (pathPrefix : option string) :
  filterToolsByResources (tools ++ more) includeResources pathPrefix
  = filterToolsByResources tools includeResources pathPrefix
    ++ filterToolsByResources more includeResources pathPrefix
  /\ filterToolsByResources
       (filterToolsByResources tools includeResources pathPrefix)
       includeResources pathPrefix
     = filterToolsByResources tools includeResources pathPrefix
  /\ incl (filterToolsByResources tools includeResources pathPrefix) tools
  /\ List.length (filterToolsByResources tools includeResources pathPrefix)
     <= List.length tools.
Proof.
  unfold filterToolsByResources.
  destruct includeResources as [[|r rs]|];
    try (repeat split; [apply incl_refl | lia]).
  repeat split.
  - apply filter_app.
  - apply filter_idempotent.
  - apply incl_filter.
  - apply filter_length_le.
Qed.

(** Parsing with a list of resources is parsing without one and then
    filtering the tools, every other member of the specification being
    the same; an empty list filters nothing, and a path prefix without a
    list of resources has no effect. *)
Theorem parse_filters_the_unfiltered_parse (string_positive : string -> bool)
  (specData : json) (baseUrlOverride : option string)
  (resources : list string) (pathPrefix : option string) :
  parse string_positive specData baseUrlOverride (Some resources) pathPrefix
  = obind (parse string_positive specData baseUrlOverride None None)
      (fun apiSpec =>
         Ret (with_tools apiSpec
                (filterToolsByResources (OCPAPISpec.tools apiSpec)
                   (Some resources) pathPrefix)))
  /\ parse string_positive specData baseUrlOverride (Some []) pathPrefix
     = parse string_positive specData baseUrlOverride None None
  /\ parse string_positive specData baseUrlOverride None pathPrefix
     = parse string_positive specData baseUrlOverride None None.
Proof.
  unfold parse.
  destruct (detectSpecVersion specData) as [specVersion | e |];
    cbn [obind]; try (repeat split; reflexivity).
  destruct (parseOpenApiSpec (Some specVersion) string_positive specData
              baseUrlOverride) as [apiSpec | e |];
    cbn [obind]; try (repeat split; reflexivity).
  repeat split. now destruct apiSpec.
Qed.

(** Parsing the [raw_spec] of a parsed specification again, with its
    [base_url] as the override, gives what parsing the document itself
    gives, whatever the resources and the path prefix: a specification can
    be kept unfiltered and filtered later. *)
Theorem reparse_of_parsed_specification (string_positive : string -> bool)
  (specData : json) (baseUrlOverride : option string)
  (kept : OCPAPISpec.t) (url : string)
  (includeResources : option (list string)) (pathPrefix : option string) :
  parse string_positive specData baseUrlOverride None None = Ret kept ->
  OCPAPISpec.base_url kept = JStr url ->
  parse string_positive (OCPAPISpec.raw_spec kept) (Some url) includeResources
    pathPrefix
  = parse string_positive specData baseUrlOverride includeResources pathPrefix.
Proof.
  intros Hkept Hurl.
  apply parse_inv in Hkept
    as (specVersion & apiSpec & Hdetect & Hspec & Hbase & Hraw & _).
  apply parseOpenApiSpec_inv in Hspec as (Hspec_raw & Hextract & _).
  rewrite Hraw, Hspec_raw. rewrite Hbase in Hurl. rewrite Hurl in Hextract.
  unfold parse. rewrite Hdetect. cbn [obind].
  assert (Hsame :
    parseOpenApiSpec (Some specVersion) string_positive specData (Some url)
    = parseOpenApiSpec (Some specVersion) string_positive specData
        baseUrlOverride).
  { unfold parseOpenApiSpec.
    replace (if Str.nonempty url then Ret (JStr url)
             else extractBaseUrl (Some specVersion) string_positive specData)
      with (Ret (A := json) (JStr url)).
    - now rewrite Hextract.
    - destruct (Str.nonempty url) eqn:Hne; [reflexivity|].
      destruct baseUrlOverride as [given|]; [|now rewrite Hextract].
      destruct (Str.nonempty given) eqn:Hgiven; [|now rewrite Hextract].
      injection Hextract as ->. congruence. }
  now rewrite Hsame.
Qed.

(* ================================================================== *)
(** * Instances *)



Lemma fallback_tool_name_witness :
  NamingSpec.unusable (JS.assoc "operationId" [("operationId", JStr "123")])
  /\ isValidToolName
       (NamingSpec.synthesized NamingSpec.underscored "get" "/users/{id}")
     = true
  /\ exists tool,
       fst (createToolFromOperation (Some "openapi_3.0") "/users/{id}" "get"
              (JObj [("operationId", JStr "123")]) (JObj []) [])
       = Ret (Some tool)
       /\ OCPTool.name tool = "getUsersId".
Proof.
  assert (Hunusable :
    NamingSpec.unusable (JS.assoc "operationId" [("operationId", JStr "123")])).
  { right. exists "123". split; reflexivity. }
  split; [exact Hunusable|]. split; [reflexivity|].
  pose proof (fallback_tool_name (Some "openapi_3.0") "/users/{id}" "get"
                [("operationId", JStr "123")] (JObj []) [] Hunusable)
    as [Hnamed _].
  destruct (createToolFromOperation (Some "openapi_3.0") "/users/{id}" "get"
              (JObj [("operationId", JStr "123")]) (JObj []) [])
    as [result memo'] eqn:Hrun.
  assert (Hret : exists created, result = Ret created)
    by (vm_compute in Hrun; injection Hrun as <- _; eauto).
  destruct Hret as [created ->].
  destruct (Hnamed eq_refl created memo' eq_refl) as [tool [-> Hname]].
  exists tool. split; [reflexivity|]. rewrite Hname. reflexivity.
Defined.

Lemma parseResponses_first_qualifying_witness :
  parseResponses (Some "swagger_2")
    (JObj [("200", JObj [("schema", string_schema)])]) (JObj []) []
  = resolved_response string_schema (JObj []) [].
Proof.
  pose proof (parseResponses_first_qualifying (Some "swagger_2")
                [("200", JObj [("schema", string_schema)])] (JObj []) [])
    as [Hfound _].
  apply (Hfound "200" (JObj [("schema", string_schema)])); reflexivity.
Defined.


Lemma resolveRefs_terminates_witness :
  fst (resolveRefs (ref_node "#/components/schemas/A")
         (Some self_referential) [] [] false) <> Diverge.
Proof.
  pose proof (resolveRefs_terminates (ref_node "#/components/schemas/A")
                (Some self_referential) [] [] false) as [Hend _].
  exact Hend.
Defined.

Lemma polymorphic_ref_policy_witness :
  Str.startsWith "#/components/schemas/Pet" "#/" = true
  /\ stack_sound petstore []
  /\ memo_sound petstore []
  /\ resolveRefs (ref_node "#/components/schemas/Pet") (Some petstore) [] []
       true
     = (Ret (ref_node "#/components/schemas/Pet"), []).
Proof.
  assert (Hstack : stack_sound petstore []) by (intros p H; discriminate H).
  assert (Hmemo : memo_sound petstore []) by (intros p H; discriminate H).
  split; [reflexivity|]. split; [exact Hstack|]. split; [exact Hmemo|].
  pose proof (polymorphic_ref_policy petstore "#/components/schemas/Pet" [] []
                eq_refl Hstack Hmemo) as [Hobject _].
  apply Hobject; [vm_compute; discriminate | reflexivity].
Defined.

Lemma resolveRefs_identity_witness :
  unique_keys union_schema = true
  /\ ref_free union_schema = true
  /\ well_composed union_schema = true
  /\ proto_free union_schema = true
  /\ exists r,
       resolveRefs union_schema None [] [] false = (Ret r, [])
       /\ json_equiv union_schema r.
Proof.
  split; [reflexivity|]. split; [reflexivity|]. split; [reflexivity|].
  split; [reflexivity|].
  apply (resolveRefs_identity union_schema None [] [] false); reflexivity.
Defined.


Lemma canParse_rejects_iff_version_missing_witness :
  canParse (JObj [("title", JStr "no version")]) = Ret false.
Proof.
  apply (canParse_rejects_iff_version_missing
           (JObj [("title", JStr "no version")])).
  eexists. split; reflexivity.
Defined.

Lemma parse_guarded_by_canParse_witness :
  canParse users_api = Ret true
  /\ parse (fun _ => false) (JObj [("title", JStr "no version")]) None None None
     = Throw (SchemaDiscoveryError missing_version_message).
Proof.
  pose proof (parse_guarded_by_canParse (fun _ => false) users_api None None
                None) as [Hreturns _].
  pose proof (parse_guarded_by_canParse (fun _ => false)
                (JObj [("title", JStr "no version")]) None None None)
    as [_ [Hrejects _]].
  split.
  - eapply Hreturns. reflexivity.
  - apply Hrejects. reflexivity.
Defined.

Lemma findParser_first_accepting_witness :
  ParserRegistry.findParser (ParserRegistry.new (fun _ => false) None)
    users_api
  = Ret (Some (OpenAPIParser (fun _ => false))).
Proof.
  pose proof (findParser_first_accepting
                (ParserRegistry.new (fun _ => false) None) users_api)
    as [Hfound _].
  apply Hfound. exists [], []. split; [reflexivity|]. split.
  - constructor.
  - reflexivity.
Defined.

Lemma register_appends_witness :
  List.length ["OpenAPI"]
  = ParserRegistry.getParserCount (ParserRegistry.new (fun _ => false) None).
Proof.
  pose proof (register_appends (ParserRegistry.new (fun _ => false) None)
                (OpenAPIParser (fun _ => false))) as [_ [_ Hnames]].
  apply Hnames. reflexivity.
Defined.

Lemma builtin_registry_dispatch_witness :
  ParserRegistry.findParser (ParserRegistry.new (fun _ => false) None)
    swagger_api
  = Ret (Some (OpenAPIParser (fun _ => false))).
Proof.
  pose proof (builtin_registry_dispatch (fun _ => false) swagger_api)
    as [_ [Hparsed _]].
  eapply (Hparsed None None None). reflexivity.
Defined.

Lemma isValidToolName_iff_leading_letter_witness :
  isValidToolName "metaRoot" = true.
Proof.
  apply (isValidToolName_iff_leading_letter "metaRoot").
  eexists. eexists. split; reflexivity.
Defined.

Lemma normalizeToolName_normal_form_witness :
  isValidToolName (normalizeToolName "SMS/send") = true
  /\ camel_name (normalizeToolName "SMS/send").
Proof.
  split; [reflexivity|].
  pose proof (normalizeToolName_normal_form "SMS/send") as [Hcamel _].
  apply Hcamel. reflexivity.
Defined.

Lemma parse_tools_well_formed_witness :
  exists api,
    parse (fun _ => false) users_api None None None = Ret api
    /\ exists props entries,
         users_api = JObj props
         /\ JSOps.entries (JS.or_else (JS.assoc "paths" props) (JObj []))
            = Ret entries
         /\ Forall (well_formed_tool (List.map fst entries))
              (OCPAPISpec.tools api).
Proof.
  eexists. split; [reflexivity|].
  apply (parse_tools_well_formed (fun _ => false) users_api None None None).
  reflexivity.
Defined.

Lemma base_url_override_wins_witness :
  exists api,
    parse (fun _ => false) users_api (Some "https://custom.api.com") None None
    = Ret api
    /\ OCPAPISpec.base_url api = JStr "https://custom.api.com"
    /\ OCPAPISpec.raw_spec api = users_api.
Proof.
  pose proof (base_url_override_wins (fun _ => false) users_api
                "https://custom.api.com" None None) as [Hwins _].
  eexists. split; [reflexivity|]. apply (Hwins eq_refl). reflexivity.
Defined.

Lemma swagger2_base_url_composed_witness :
  exists api,
    parse (fun _ => false) swagger_api None None None = Ret api
    /\ OCPAPISpec.base_url api = JStr "https://api.example.com/v1".
Proof.
  eexists. split; [reflexivity|].
  apply (swagger2_base_url_composed (fun _ => false) swagger_api_members
           (JStr "api.example.com") None None).
  - exists "2.0". split; reflexivity.
  - reflexivity.
  - reflexivity.
  - exact I.
  - reflexivity.
Defined.

Lemma openapi3_first_server_decides_witness :
  exists api url,
    parse (fun _ => false) users_api None None None = Ret api
    /\ JSOps.get (JObj [("url", JStr "https://api.example.com")]) "url"
       = Ret url
    /\ OCPAPISpec.base_url api = JS.or_else url (JStr "").
Proof.
  pose proof (openapi3_first_server_decides (fun _ => false)
                users_api_members "openapi_3.0"
                (JObj [("url", JStr "https://api.example.com")]) [] None None
                eq_refl eq_refl eq_refl) as [Hfirst _].
  eexists.
  assert (Hrun : parse (fun _ => false) users_api None None None
                 = Ret (OCPAPISpec.mk (JStr "https://api.example.com")
                          (JStr "Test API") (JStr "1.0.0") (JStr "")
                          [OCPTool.mk "listUsers"
                             (JStr "No description provided") "GET" "/users"
                             [] None (Some (JStr "listUsers")) (JArr [])]
                          users_api)) by reflexivity.
  destruct (Hfirst _ Hrun) as [url [Hget Hbase]].
  exists url. split; [exact Hrun|]. split; [exact Hget | exact Hbase].
Defined.

Lemma operation_id_names_the_tool_witness :
  exists tool,
    fst (createToolFromOperation None "/users" "get"
           (JObj [("operationId", JStr "listUsers")]) (JObj []) [])
    = Ret (Some tool)
    /\ OCPTool.name tool = "listUsers".
Proof.
  pose proof (operation_id_names_the_tool None "/users" "get"
                [("operationId", JStr "listUsers")] (JStr "listUsers")
                (JObj []) [] eq_refl eq_refl) as [Hnamed _].
  destruct (createToolFromOperation None "/users" "get"
              (JObj [("operationId", JStr "listUsers")]) (JObj []) [])
    as [result memo'] eqn:Hrun.
  assert (Hret : exists created, result = Ret created)
    by (vm_compute in Hrun; injection Hrun as <- _; eauto).
  destruct Hret as [created ->].
  destruct (Hnamed "listUsers" eq_refl eq_refl created memo' eq_refl)
    as [tool [-> [Hname _]]].
  exists tool. split; [reflexivity | exact Hname].
Defined.

Lemma request_body_read_only_for_post_put_patch_witness :
  createToolFromOperation None "/users" "get"
    (JObj (JS.set [("operationId", JStr "listUsers")] "requestBody" user_body))
    (JObj []) []
  = createToolFromOperation None "/users" "get"
      (JObj [("operationId", JStr "listUsers")]) (JObj []) [].
Proof.
  apply (request_body_read_only_for_post_put_patch None "/users" "get"
           [("operationId", JStr "listUsers")] user_body (JObj []) []).
  reflexivity.
Defined.

Lemma parameter_without_schema_is_string_witness :
  JS.truthy_opt (JS.assoc "schema" limit_parameter) = false
  /\ parseParameter (JObj limit_parameter) (JObj []) [] []
     = (Ret [("limit",
              JObj [("description", JStr ""); ("required", JBool false);
                    ("location", JStr "query"); ("type", JStr "string")])],
        [])
  /\ parseParameter (JObj [("name", JObj [("toString", JStr "limit")])])
       (JObj []) [] []
     = (Throw TypeError, []).
Proof.
  split; [reflexivity|].
  pose proof (parameter_without_schema_is_string limit_parameter (JObj []) []
                [] eq_refl) as [Hfiled _].
  pose proof (parameter_without_schema_is_string
                [("name", JObj [("toString", JStr "limit")])] (JObj []) [] []
                eq_refl) as [_ Hthrows].
  split.
  - apply (Hfiled "limit"); [reflexivity | discriminate | discriminate].
  - apply (Hthrows (JObj [("toString", JStr "limit")])); reflexivity.
Defined.

Lemma scalar_parameter_schema_throws_witness :
  parseParameter (JObj [("name", JStr "limit"); ("schema", JBool true)])
    (JObj []) [] []
  = (Throw TypeError, []).
Proof.
  apply (scalar_parameter_schema_throws
           [("name", JStr "limit"); ("schema", JBool true)] (JStr "limit")
           (JBool true) (JObj []) [] []); reflexivity.
Defined.

Lemma parseParameters_names_and_fields_witness :
  named_by_strings [JObj limit_parameter; JStr "stray"]
  /\ exists result,
       fst (parseParameters (JArr [JObj limit_parameter; JStr "stray"])
              (JObj []) [])
       = Ret result
       /\ (JS.has_key "limit" result = true
           <-> "limit" <> ""
               /\ exists fields,
                    In (JObj fields) [JObj limit_parameter; JStr "stray"]
                    /\ JS.assoc "name" fields = Some (JStr "limit")).
Proof.
  assert (Hnamed : named_by_strings [JObj limit_parameter; JStr "stray"]).
  { intros fields name [Hin | [Hin | []]] Hfield Htruthy;
      [|discriminate Hin].
    injection Hin as <-. injection Hfield as <-. eauto. }
  split; [exact Hnamed|].
  destruct (parseParameters (JArr [JObj limit_parameter; JStr "stray"])
              (JObj []) []) as [outcome_of_call memo'] eqn:Hrun.
  assert (Hret : exists result, outcome_of_call = Ret result)
    by (vm_compute in Hrun; injection Hrun as <- _; eauto).
  destruct Hret as [result ->].
  pose proof (parseParameters_names_and_fields
                [JObj limit_parameter; JStr "stray"] (JObj []) [] result memo'
                Hnamed Hrun) as [Hnames _].
  exists result. split; [reflexivity | apply Hnames; discriminate].
Defined.

Lemma request_body_parameters_are_body_entries_witness :
  exists result,
    fst (parseOpenApi3RequestBody user_body (JObj []) []) = Ret result
    /\ JS.has_key "name" result = true
    /\ forall entry,
         JS.assoc "name" result = Some entry ->
         body_entry (JArr [JStr "name"]) "name" entry.
Proof.
  destruct (parseOpenApi3RequestBody user_body (JObj []) [])
    as [outcome_of_call memo'] eqn:Hrun.
  assert (Hret : exists result,
            outcome_of_call = Ret result /\ JS.has_key "name" result = true)
    by (vm_compute in Hrun; injection Hrun as <- _; eauto).
  destruct Hret as [result [-> Hfiled]].
  pose proof (request_body_parameters_are_body_entries (JObj []) []
                (JObj [("type", JStr "object");
                       ("properties", JObj [("name", string_schema)]);
                       ("required", JArr [JStr "name"])])
                (JObj [("type", JStr "object");
                       ("properties", JObj [("name", string_schema)]);
                       ("required", JArr [JStr "name"])])
                [] eq_refl eq_refl eq_refl) as [Hbody _].
  destruct (Hbody user_body result memo' eq_refl Hrun) as [_ Hentries].
  exists result. split; [reflexivity|]. split; [exact Hfiled|].
  intros entry. apply Hentries.
Defined.

Lemma external_ref_untouched_witness :
  resolveRefs (ref_node "other.yaml#/components/schemas/Pet") (Some petstore)
    [] [] false
  = (Ret (ref_node "other.yaml#/components/schemas/Pet"), []).
Proof.
  apply (external_ref_untouched "other.yaml#/components/schemas/Pet"
           (Some petstore) [] [] false).
  reflexivity.
Defined.

Lemma resolved_pointer_is_cached_witness :
  JS.assoc "#/components/schemas/Name"
    [("#/components/schemas/Name", string_schema)]
  = Some string_schema
  /\ resolveRefs (ref_node "#/components/schemas/Name") (Some petstore)
       ["#/components/schemas/Pet"]
       [("#/components/schemas/Name", string_schema)] false
     = (Ret string_schema, [("#/components/schemas/Name", string_schema)]).
Proof.
  pose proof (resolved_pointer_is_cached petstore "#/components/schemas/Name"
                [] [] false string_schema
                [("#/components/schemas/Name", string_schema)] eq_refl)
    as Hcached.
  destruct Hcached as [Hheld Hagain].
  - vm_compute. discriminate.
  - reflexivity.
  - reflexivity.
  - split; [exact Hheld | apply Hagain].
Defined.

Lemma cached_answers_are_stable_witness :
  JS.assoc "#/components/schemas/Name"
    (snd (resolveRefs (ref_node "#/components/schemas/Pet") (Some petstore) []
            [("#/components/schemas/Name", integer_schema)] false))
  = Some integer_schema.
Proof.
  destruct (resolveRefs (ref_node "#/components/schemas/Pet") (Some petstore)
              [] [("#/components/schemas/Name", integer_schema)] false)
    as [outcome_of_call memo'] eqn:Hrun.
  apply (cached_answers_are_stable (ref_node "#/components/schemas/Pet")
           (Some petstore) [] [("#/components/schemas/Name", integer_schema)]
           false outcome_of_call memo' "#/components/schemas/Name"
           integer_schema eq_refl Hrun).
Defined.

Lemma resolution_keeps_the_shape_witness :
  exists resolved,
    fst (resolveRefs union_schema None [] [] false) = Ret (JObj resolved)
    /\ forall k,
         k <> "__proto__" ->
         JS.has_key k resolved
         = JS.has_key k
             [("description", JStr "a name or an age");
              ("oneOf", JArr [string_schema; integer_schema])].
Proof.
  destruct (resolveRefs union_schema None [] [] false)
    as [outcome_of_call memo'] eqn:Hrun.
  assert (Hret : exists answer, outcome_of_call = Ret answer)
    by (vm_compute in Hrun; injection Hrun as <- _; eauto).
  destruct Hret as [answer ->].
  pose proof (resolution_keeps_the_shape union_schema None [] [] false answer
                memo' Hrun) as Hshape.
  cbn [union_schema] in Hshape.
  destruct Hshape as [[Hplain _] | [resolved [-> Hkeys]]].
  - vm_compute in Hplain. discriminate Hplain.
  - exists resolved. split; [reflexivity | exact Hkeys].
Defined.

Lemma pure_ref_node_always_resolves_witness :
  lookupRef petstore "#/components/schemas/Broken" <> JNull
  /\ resolveRefs (lookupRef petstore "#/components/schemas/Broken")
       (Some petstore) ["#/components/schemas/Broken"] [] false
     = (Throw TypeError, [])
  /\ resolveRefs (ref_node "#/components/schemas/Broken") (Some petstore) []
       [] false
     = (Ret unresolved_placeholder,
        [("#/components/schemas/Broken", unresolved_placeholder)]).
Proof.
  assert (Htarget : lookupRef petstore "#/components/schemas/Broken" <> JNull)
    by (vm_compute; discriminate).
  split; [exact Htarget|]. split; [reflexivity|].
  pose proof (pure_ref_node_always_resolves "#/components/schemas/Broken" []
                [] false) as [_ Hcaught].
  destruct (Hcaught petstore TypeError [] eq_refl eq_refl eq_refl eq_refl
              Htarget eq_refl) as [Hanswer _].
  exact Hanswer.
Defined.

Lemma lookupRef_composes_witness :
  lookupRef petstore "#/components/schemas/Name"
  = lookupRef (lookupRef petstore "#/components") "#/schemas/Name".
Proof.
  apply (lookupRef_composes petstore "#/components" "schemas/Name").
  reflexivity.
Defined.

Lemma reparse_of_parsed_specification_witness :
  exists kept,
    parse (fun _ => false) users_api None None None = Ret kept
    /\ OCPAPISpec.base_url kept = JStr "https://api.example.com"
    /\ parse (fun _ => false) (OCPAPISpec.raw_spec kept)
         (Some "https://api.example.com") (Some ["users"]) None
       = parse (fun _ => false) users_api None (Some ["users"]) None.
Proof.
  eexists. split; [reflexivity|]. split; [reflexivity|].
  apply (reparse_of_parsed_specification (fun _ => false) users_api None _
           "https://api.example.com" (Some ["users"]) None);
    reflexivity.
Defined.
